(** * M6SS: the synchronisation model, the simulator and their data types

    A shallow embedding of [syncparameters.cpp], [timeinterval.cpp],
    [model.cpp] and [simulator.cpp], and of the parts of
    [modelvalidation.cpp] and [main.cpp] that compute.

    Numeric conventions of the embedding:
    - [int], [long], [long long], [size_t] and the tick count of
      [std::chrono::nanoseconds] are integers of [Z]; the arithmetic of the
      program is assumed to stay inside the machine ranges.  The C++
      operators [/] and [%] on integers are [Z.quot] and [Z.rem].
    - [double] is the field of rationals [Q]: the arithmetic is exact, and
      equality of computed values is [Qeq].  A [std::chrono::duration<double>]
      is a rational number of seconds.
    - [std::map<int, T>] is [gmap Z T]; [std::vector<T>] is [list T].

    A statement that an overflow of these integers or the rounding of
    [double] would falsify carries the range that it needs as a hypothesis:
    [validated_range] for [Model::calculate], a bound on the simulated time
    for [Simulator::run], a confidence level away from 1 for
    [calculateCI]. *)

From Stdlib Require Import ZArith QArith Qround Qabs Qpower Lia Lqa String.
From stdpp Require Import base option list gmap fin_maps fin_sets sorting.

Local Open Scope Z_scope.

(** ** Exceptions and outcomes of calls *)

(** The C++ exceptions of the program and of the containers it uses.  The
    last two constructors are not exceptions: [undefined_behaviour] marks an
    execution that indexes a vector outside its bounds or divides an integer
    by zero, and [not_finite] one whose [double] arithmetic divides by zero
    and so leaves the rationals. *)
Inductive exn : Type :=
| invalid_argument (what : string)
| out_of_range
| bad_optional_access
| length_error
| undefined_behaviour
| not_finite.

(** The outcome of a call: it returns, it throws, or the fuel given to an
    unbounded loop or recursion of the program is used up. *)
Inductive outcome (A : Type) : Type :=
| Ret (a : A)
| Throw (e : exn)
| OutOfFuel.

Arguments Ret {A} a.
Arguments Throw {A} e.
Arguments OutOfFuel {A}.

Definition bind {A B} (m : outcome A) (k : A -> outcome B) : outcome B :=
  match m with
  | Ret a => k a
  | Throw e => Throw e
  | OutOfFuel => OutOfFuel
  end.

Declare Scope outcome_scope.
Delimit Scope outcome_scope with outcome.
Notation "'let*' x ':=' m 'in' k" := (bind m (fun x => k))
  (at level 10, x pattern, m at level 100, k at level 200) : outcome_scope.
Local Open Scope outcome_scope.

(** [std::optional<T>::value()] *)
Definition value {A} (o : option A) : outcome A :=
  match o with
  | Some a => Ret a
  | None => Throw bad_optional_access
  end.

(** [std::map<int, T>::at] *)
Definition map_at {A} (m : gmap Z A) (k : Z) : outcome A :=
  match m !! k with
  | Some a => Ret a
  | None => Throw out_of_range
  end.

(** [std::vector<T>::operator[]] *)
Definition vector_get {A} (v : list A) (k : Z) : outcome A :=
  if k <? 0 then Throw undefined_behaviour
  else match v !! Z.to_nat k with
       | Some a => Ret a
       | None => Throw undefined_behaviour
       end.

(** [a < b] on doubles. *)
Definition Qltb (a b : Q) : bool := negb (Qle_bool b a).

(** [a / b] on doubles. *)
Definition fdiv (a b : Q) : outcome Q :=
  if Qeq_bool b 0 then Throw not_finite else Ret (a / b)%Q.

(** [a / b] and [a % b] on integers. *)
Definition idiv (a b : Z) : outcome Z :=
  if b =? 0 then Throw undefined_behaviour else Ret (Z.quot a b).
Definition imod (a b : Z) : outcome Z :=
  if b =? 0 then Throw undefined_behaviour else Ret (Z.rem a b).

(** [std::pow(x, n)] for an integer exponent. *)
Definition pow (x : Q) (n : Z) : Q := Qpower x n.

(** A [duration<double, std::nano>] converted to [duration<double>]. *)
Definition seconds (ns : Q) : Q := (ns / 1000000000)%Q.

(** [for (i = lo; ...; i++) acc = body(i, acc)], for [n] rounds. *)
Fixpoint for_loop {A} (n : nat) (i : Z) (body : Z -> A -> outcome A) (acc : A)
    : outcome A :=
  match n with
  | O => Ret acc
  | S n' => let* acc' := body i acc in for_loop n' (i + 1) body acc'
  end.

(** [for (i = lo; i <= hi; i++) acc = body(i, acc)] *)
Definition for_range {A} (lo hi : Z) (body : Z -> A -> outcome A) (acc : A)
    : outcome A :=
  for_loop (Z.to_nat (hi - lo + 1)) lo body acc.

(** [std::vector<T>::at] *)
Definition vector_at {A} (v : list A) (k : Z) : outcome A :=
  if (k <? 0) || (Z.of_nat (length v) <=? k) then Throw out_of_range
  else match v !! Z.to_nat k with
       | Some a => Ret a
       | None => Throw out_of_range
       end.

(** ** timeinterval.cpp *)

Module TimeInterval.

Record t : Type := mk { start_ : option Z; end_ : option Z }.

(** [TimeInterval::TimeInterval()] *)
Definition empty : t := mk None None.

(** [void TimeInterval::set(start, end)] *)
Definition set (start end' : Z) : t := mk (Some start) (Some end').

(** [TimeInterval::TimeInterval(start, end)] *)
Definition make (start end' : Z) : outcome t :=
  if start >? end' then
    Throw (invalid_argument
      "The parameter 'start' must be greater than the parameter 'end'.")
  else Ret (set start end').

Definition getStart (I : t) : option Z := start_ I.
Definition getEnd (I : t) : option Z := end_ I.

Definition isEmpty (I : t) : bool :=
  match start_ I with Some _ => false | None => true end.

Definition length (I : t) : outcome Z :=
  if isEmpty I then Ret 0
  else let* e := value (end_ I) in
       let* s := value (start_ I) in
       Ret (e - s).

Definition isSubsetOf (I other : t) : outcome bool :=
  if isEmpty I || isEmpty other then Ret false
  else let* os := value (getStart other) in
       let* s := value (start_ I) in
       if os <=? s then
         let* oe := value (getEnd other) in
         let* e := value (end_ I) in
         Ret (oe >=? e)
       else Ret false.

(** The short-circuit disjunction of [intersection], on outcomes. *)
Definition orelse (a : outcome bool) (b : outcome bool) : outcome bool :=
  let* x := a in if (x : bool) then Ret true else b.

Definition intersection (interval1 interval2 : t) : outcome t :=
  let* disjoint :=
    orelse (Ret (isEmpty interval1 || isEmpty interval2))
   (orelse (let* s1 := value (getStart interval1) in
            let* e2 := value (getEnd interval2) in
            Ret (s1 >? e2))
           (let* e1 := value (getEnd interval1) in
            let* s2 := value (getStart interval2) in
            Ret (e1 <? s2))) in
  if (disjoint : bool) then Ret empty
  else
    let* s1 := value (getStart interval1) in
    let* s2 := value (getStart interval2) in
    let* e1 := value (getEnd interval1) in
    let* e2 := value (getEnd interval2) in
    make (Z.max s1 s2) (Z.min e1 e2).

(** The values the two constructors build: the empty interval, and
    [start, end] with [start <= end]. *)
Definition wf (I : t) : Prop :=
  match start_ I, end_ I with
  | None, None => True
  | Some s, Some e => s <= e
  | _, _ => False
  end.

(** Two non-empty intervals that share no point. *)
Definition disjoint (I J : t) : Prop :=
  match start_ I, end_ I, start_ J, end_ J with
  | Some s1, Some e1, Some s2, Some e2 => e1 < s2 \/ e2 < s1
  | _, _, _, _ => False
  end.

(** The instant [t] lies in the interval. *)
Definition contains (I : t) (t : Z) : Prop :=
  match start_ I, end_ I with
  | Some s, Some e => s <= t <= e
  | _, _ => False
  end.

(** The values the public operations can produce: the empty interval, or an
    interval given to [set], which does not compare its arguments. *)
Definition built (I : t) : Prop :=
  I = empty \/ exists a b, I = set a b.

End TimeInterval.

(** ** syncparameters.cpp *)

Module SyncParameters.

Record t : Type := mk {
  chs_ : list Z;
  s_ : Z;
  pEB_ : Q;
  pSR_ : gmap Z Q;
  tScan_ : Z;
  tSwitch_ : Z;
  tEB_ : Z
}.

(** [DEFAULT_SLOT_DURATION], 10 ms, and [DEFAULT_TX_OFFSET], 2120 us, in
    nanoseconds. *)
Definition DEFAULT_SLOT_DURATION : Z := 10000000.
Definition DEFAULT_TX_OFFSET : Z := 2120000.

Definition msg_range : string :=
  "chs can not contain channel numbers less than 11 and greater than 26.".
Definition msg_unique : string := "chs must contain unique elements.".
Definition msg_s : string := "s must be greater than 0.".
Definition msg_coprime : string :=
  "The number of channels and the number of slots (s) must be co-primes.".
Definition msg_pEB : string := "pEB is not a valid probability.".
Definition msg_pSR_missing : string :=
  "pSR does not contain all the channels included in chs.".
Definition msg_pSR_invalid : string := "pSR contains an invalid probability.".
Definition msg_pSR_extra : string :=
  "pSR contains channels that are not included in chs.".
Definition msg_tScan : string := "tScan must be greater than 0.".
Definition msg_tSwitch : string :=
  "tSwitch must be greater than or equal to 0.".
Definition msg_tEB : string := "tEB cannot be negative.".

(** [DEFAULT_CHANNEL_HOPPING_SEQUENCES] *)
Definition DEFAULT_CHANNEL_HOPPING_SEQUENCES : gmap Z (list Z) :=
  list_to_map
    [(1, [11]);
     (2, [11; 12]);
     (3, [11; 13; 12]);
     (4, [11; 13; 14; 12]);
     (5, [11; 13; 14; 15; 12]);
     (6, [16; 12; 15; 11; 13; 14]);
     (7, [14; 13; 15; 11; 16; 12; 17]);
     (8, [16; 12; 15; 11; 14; 13; 17; 18]);
     (9, [11; 13; 12; 16; 17; 18; 19; 14; 15]);
     (10, [16; 12; 19; 13; 17; 14; 20; 18; 15; 11]);
     (11, [16; 12; 11; 20; 17; 18; 14; 13; 19; 15; 21]);
     (12, [16; 19; 15; 20; 13; 12; 21; 18; 22; 11; 14; 17]);
     (13, [15; 13; 20; 19; 17; 23; 16; 12; 21; 22; 14; 11; 18]);
     (14, [14; 11; 21; 18; 16; 19; 17; 20; 22; 24; 15; 23; 12; 13]);
     (15, [17; 22; 24; 18; 12; 11; 25; 13; 19; 16; 14; 15; 20; 23; 21]);
     (16, [16; 17; 23; 18; 26; 15; 25; 22; 19; 11; 12; 13; 24; 14; 20; 21])].

(** The first loop: every channel is in 11..26. *)
Fixpoint check_range (chs : list Z) : outcome unit :=
  match chs with
  | [] => Ret tt
  | channel :: rest =>
      if (channel <? 11) || (channel >? 26)
      then Throw (invalid_argument msg_range)
      else check_range rest
  end.

(** The inner loop over [it2], from [it1 + 1] to the end. *)
Fixpoint check_unique_inner (x : Z) (rest : list Z) : outcome unit :=
  match rest with
  | [] => Ret tt
  | y :: rest' =>
      if x =? y then Throw (invalid_argument msg_unique)
      else check_unique_inner x rest'
  end.

(** The outer loop over [it1]. *)
Fixpoint check_unique (chs : list Z) : outcome unit :=
  match chs with
  | [] => Ret tt
  | x :: rest =>
      let* _ := check_unique_inner x rest in check_unique rest
  end.

(** The loop over [chs] that looks every channel up in [pSR]. *)
Fixpoint check_pSR (chs : list Z) (pSR : gmap Z Q) : outcome unit :=
  match chs with
  | [] => Ret tt
  | channel :: rest =>
      match pSR !! channel with
      | None => Throw (invalid_argument msg_pSR_missing)
      | Some p =>
          if Qltb p 0 || Qltb 1 p
          then Throw (invalid_argument msg_pSR_invalid)
          else check_pSR rest pSR
      end
  end.

Definition guard (fails : bool) (msg : string) : outcome unit :=
  if fails then Throw (invalid_argument msg) else Ret tt.

(** The constructor. *)
Definition make (chs : list Z) (s : Z) (pEB : Q) (pSR : gmap Z Q)
    (tScan tSwitch tEB : Z) : outcome t :=
  let* _ := check_range chs in
  let* _ := check_unique chs in
  let* _ := guard (s <=? 0) msg_s in
  let* _ := guard (negb (Z.gcd (Z.of_nat (length chs)) s =? 1)) msg_coprime in
  let* _ := guard (Qltb pEB 0 || Qltb 1 pEB) msg_pEB in
  let* _ := check_pSR chs pSR in
  let* _ := guard (Z.of_nat (size pSR) >? Z.of_nat (length chs)) msg_pSR_extra in
  let* _ := guard (tScan <=? 0) msg_tScan in
  let* _ := guard (tSwitch <? 0) msg_tSwitch in
  let* _ := guard (tEB <? 0) msg_tEB in
  Ret (mk chs s pEB pSR tScan tSwitch tEB).

Definition getCHS (p : t) : list Z := chs_ p.
Definition getS (p : t) : Z := s_ p.
Definition getPeb (p : t) : Q := pEB_ p.
Definition getPsr (p : t) : gmap Z Q := pSR_ p.
Definition getTScan (p : t) : Z := tScan_ p.
Definition getTSwitch (p : t) : Z := tSwitch_ p.
Definition getTeb (p : t) : Z := tEB_ p.

(** The nine conditions of a valid configuration, in the order of the
    documentation. *)
Definition cond1 (chs : list Z) : Prop := Forall (fun c => 11 <= c <= 26) chs.
Definition cond2 (chs : list Z) : Prop := NoDup chs.
Definition cond3 (s : Z) : Prop := 0 < s.
Definition cond4 (chs : list Z) (s : Z) : Prop :=
  Z.gcd (Z.of_nat (length chs)) s = 1.
Definition cond5 (pEB : Q) : Prop := (0 <= pEB /\ pEB <= 1)%Q.
Definition cond6 (chs : list Z) (pSR : gmap Z Q) : Prop :=
  (forall c, c ∈ chs -> is_Some (pSR !! c)) /\
  (forall c p, pSR !! c = Some p -> (0 <= p /\ p <= 1)%Q) /\
  (forall c, is_Some (pSR !! c) -> c ∈ chs).
Definition cond7 (tScan : Z) : Prop := 0 < tScan.
Definition cond8 (tSwitch : Z) : Prop := 0 <= tSwitch.
Definition cond9 (tEB : Z) : Prop := 0 <= tEB.

Definition cond (i : nat) (chs : list Z) (s : Z) (pEB : Q) (pSR : gmap Z Q)
    (tScan tSwitch tEB : Z) : Prop :=
  match i with
  | 1%nat => cond1 chs
  | 2%nat => cond2 chs
  | 3%nat => cond3 s
  | 4%nat => cond4 chs s
  | 5%nat => cond5 pEB
  | 6%nat => cond6 chs pSR
  | 7%nat => cond7 tScan
  | 8%nat => cond8 tSwitch
  | 9%nat => cond9 tEB
  | _ => True
  end.

(** The condition a message of the constructor reports. *)
Definition condition_of (msg : string) : nat :=
  if String.eqb msg msg_range then 1
  else if String.eqb msg msg_unique then 2
  else if String.eqb msg msg_s then 3
  else if String.eqb msg msg_coprime then 4
  else if String.eqb msg msg_pEB then 5
  else if String.eqb msg msg_pSR_missing then 6
  else if String.eqb msg msg_pSR_invalid then 6
  else if String.eqb msg msg_pSR_extra then 6
  else if String.eqb msg msg_tScan then 7
  else if String.eqb msg msg_tSwitch then 8
  else if String.eqb msg msg_tEB then 9
  else 0.

(** A parameter object the constructor has built. *)
Definition valid (p : t) : Prop :=
  make (chs_ p) (s_ p) (pEB_ p) (pSR_ p) (tScan_ p) (tSwitch_ p) (tEB_ p)
  = Ret p.

End SyncParameters.

(** ** model.cpp *)

Module Model.

Record Results : Type := mkResults { avgSyncTime_ : Q; cdf_ : list Q }.

Definition avgSyncTime (r : Results) : Q := avgSyncTime_ r.

(** [Model::Results::cdf]; [steps] is a [size_t]. *)
Definition cdf (r : Results) (steps : nat) : outcome Q :=
  if (steps <? 1)%nat then
    Throw (invalid_argument "steps must be greater than zero.")
  else if (length (cdf_ r) <=? steps)%nat then Ret 1%Q
  else vector_get (cdf_ r) (Z.of_nat steps).

Section Calculate.

Variable syncParams : SyncParameters.t.

Definition Peb : Q := SyncParameters.getPeb syncParams.
Definition chs : list Z := SyncParameters.getCHS syncParams.
Definition C : Z := Z.of_nat (length chs).
Definition Psr : gmap Z Q := SyncParameters.getPsr syncParams.
Definition Tscan : Z := SyncParameters.getTScan syncParams.
Definition Tsf : Z :=
  SyncParameters.DEFAULT_SLOT_DURATION * SyncParameters.getS syncParams.
Definition Teb : Z := SyncParameters.getTeb syncParams.

(** The truncation threshold [1 - std::pow(10, -9)]. *)
Definition threshold : Q := (1 - pow 10 (-9))%Q.

(** The time charged to step [k]: [(k - 1) * Tsf + Tsf / 2.0 + Teb], in
    nanoseconds. *)
Definition step_time (k : Z) : Q :=
  (inject_Z ((k - 1) * Tsf) + inject_Z Tsf / 2 + inject_Z Teb)%Q.

(** The loop of [sumOfExpectedValueInCases1and2]; it returns the sum and
    [max_step]. *)
Fixpoint sum_loop (Psync : Z -> outcome Q) (fuel : nat) (sum : Q) (k : Z)
    (cumulativeProb : Q) : outcome (Q * Z) :=
  if Qltb cumulativeProb threshold then
    match fuel with
    | O => OutOfFuel
    | S fuel' =>
        let* p := Psync k in
        let* p' := Psync k in
        sum_loop Psync fuel' (sum + seconds (p' * step_time k))%Q (k + 1)
          (cumulativeProb + p)%Q
    end
  else Ret (sum, k - 1).

Definition sumOfExpectedValueInCases1and2 (Psync : Z -> outcome Q)
    (fuel : nat) : outcome (Q * Z) :=
  sum_loop Psync fuel 0%Q 1 0%Q.

(** The vector [W], filled by the loop over [i = 1 .. C]. *)
Definition W : outcome (list Z) :=
  for_range 1 C
    (fun i w =>
       let* idx := imod ((i - 1) * SyncParameters.getS syncParams) C in
       let* ch := vector_get chs idx in
       Ret (w ++ [ch]))
    [].

Section WithW.

Variable w : list Z.

Definition X (k y : Z) : outcome Z :=
  let* idx := imod (y + k - 1) C in vector_get w idx.

Definition Pstep (k y : Z) : outcome Q :=
  let* c1 := fdiv 1 (inject_Z C) in
  let* ch := X k y in
  let* psr := map_at Psr ch in
  Ret (c1 * Peb * psr)%Q.

(** [Psync], the same lambda in Case 1 and in Case 2, over its
    [Psync_cond]. *)
Definition Psync_of (Psync_cond : Z -> Z -> outcome Q) (k : Z) : outcome Q :=
  for_range 0 (C - 1)
    (fun y sum =>
       let* c1 := fdiv 1 (inject_Z C) in
       let* pc := Psync_cond k y in
       Ret (sum + c1 * pc)%Q)
    0%Q.

(** *** Case 1 *)

Definition Psync_cond1 (k y : Z) : outcome Q :=
  let* prod :=
    for_range 1 (k - 1)
      (fun i prod => let* ps := Pstep i y in Ret (prod * (1 - ps))%Q) 1%Q in
  let* ps := Pstep k y in
  Ret (prod * ps)%Q.

Definition Psync1 : Z -> outcome Q := Psync_of Psync_cond1.

(** *** Case 2 *)

Section Case2.

Variable n : Z.

Definition Pstep_sp (k y : Z) : outcome Q :=
  let* q := idiv (k - 1) n in
  let k_f := q * n + 1 in
  let* Nchp := idiv (k - k_f) C in
  let* ch := X k y in
  let* psr := map_at Psr ch in
  let* ps := Pstep k y in
  Ret (pow (1 - Peb * psr) Nchp * ps)%Q.

Definition Qsp (i y : Z) : outcome Q :=
  let* sum :=
    for_range ((i - 1) * n + 1) (i * n)
      (fun k sum => let* ps := Pstep_sp k y in Ret (sum + ps)%Q) 0%Q in
  Ret (1 - sum)%Q.

Definition Psync_cond2 (k y : Z) : outcome Q :=
  let* hi := idiv (k - 1) n in
  let* prod :=
    for_range 1 hi
      (fun i prod => let* qs := Qsp i y in Ret (prod * qs)%Q) 1%Q in
  let* ps := Pstep_sp k y in
  Ret (prod * ps)%Q.

Definition Psync2 : Z -> outcome Q := Psync_of Psync_cond2.

End Case2.

(** *** Case 3 *)

Section Case3.

Variable n : Q.

Definition updatePSync (k : Z) (p : Q) (pSyncArray : list Q) : list Q :=
  if Z.of_nat (length pSyncArray) <=? k then pSyncArray ++ [p]
  else alter (fun x => x + p)%Q (Z.to_nat k) pSyncArray.

Definition B (i : Z) : bool :=
  let x := (inject_Z (i - 1) * n)%Q in
  negb (Qeq_bool x (inject_Z (Qfloor x))).

(** The time charged to a reception at step [k] when the live part of the
    slotframe starts at [start] and has length [len]. *)
Definition step_time3 (k start len : Z) : Q :=
  (inject_Z ((k - 1) * Tsf + start) + inject_Z len / 2 + inject_Z Teb)%Q.

(** The lambdas of the inner scope of [recursiveCalc]; their first arguments
    are the variables they capture. *)
Definition M (covers : bool) (k_f k : Z) : Z :=
  if covers then k - k_f + 1 else k - k_f.

Definition Pstep_inter (covers : bool) (k_f y k : Z) : outcome Q :=
  let* ch := X k y in
  let* psr := map_at Psr ch in
  let* e := idiv (M covers k_f k - 1) C in
  let* ps := Pstep k y in
  Ret (pow (1 - Peb * psr) e * ps)%Q.

Definition Psync_inter (q : Q) (covers : bool) (k_f y k : Z) : outcome Q :=
  let* pi := Pstep_inter covers k_f y k in Ret (q * pi)%Q.

Definition Einter (q : Q) (covers : bool) (k_f y start len k : Z)
    : outcome Q :=
  let* ps := Psync_inter q covers k_f y k in
  Ret (seconds (ps * step_time3 k start len)).

(** The inner scope of [recursiveCalc], with the declarations before it:
    it gives [Rl], [Z], [Q_C], [Q_NC], [res] and the updated [pSyncArray]. *)
Definition frame (q : Q) (i : Z) (I : TimeInterval.t) (y : Z)
    (pSyncArray : list Q)
    : outcome (TimeInterval.t * TimeInterval.t * Q * Q * Q * list Q) :=
  let* r := imod (i * Tscan) Tsf in
  let* Rl := TimeInterval.make r Tsf in
  let* Ll := TimeInterval.make 0 r in
  let* Z :=
    if B (i + 1) then TimeInterval.intersection I Ll else Ret I in
  let k_f :=
    if B i then Qceiling (inject_Z (i - 1) * n)
    else Qfloor (inject_Z (i - 1) * n + 1) in
  let k_l := Qceiling (inject_Z i * n) in
  let* doesTheFirstStepOfScanPeriodCoverEBPoint :=
    if negb (B i) then Ret true
    else
      let* r' := imod ((i - 1) * Tscan) Tsf in
      let* Rf := TimeInterval.make r' Tsf in
      TimeInterval.isSubsetOf I Rf in
  let covers : bool := doesTheFirstStepOfScanPeriodCoverEBPoint in
  let* Pstep_first := if covers then Pstep k_f y else Ret 0%Q in
  let Psync_first := (q * Pstep_first)%Q in
  let* start := value (TimeInterval.getStart I) in
  let* len := TimeInterval.length I in
  let E_first := seconds (Psync_first * step_time3 k_f start len) in
  let* Plsc :=
    if B (i + 1) then
      let* IL := TimeInterval.intersection I Ll in
      let* l := TimeInterval.length IL in
      fdiv (inject_Z l) (inject_Z len)
    else Ret 1%Q in
  let* Pstep_last :=
    let* ch := X k_l y in
    let* psr := map_at Psr ch in
    let* e := idiv (M covers k_f (k_l - 1)) C in
    let* ps := Pstep k_l y in
    Ret (pow (1 - Peb * psr) e * ps)%Q in
  let Psync_last := (q * Plsc * Pstep_last)%Q in
  let* Elast :=
    if negb (TimeInterval.isEmpty Z) then
      let* zs := value (TimeInterval.getStart Z) in
      let* zl := TimeInterval.length Z in
      Ret (seconds (Psync_last * step_time3 k_l zs zl))
    else Ret 0%Q in
  let* sum_p_inter_step :=
    for_range (k_f + 1) (k_l - 1)
      (fun k sum =>
         let* pi := Pstep_inter covers k_f y k in Ret (sum + pi)%Q)
      0%Q in
  let Q_C :=
    (q * Plsc * (1 - (Pstep_first + Pstep_last + sum_p_inter_step)))%Q in
  let* IR := TimeInterval.intersection I Rl in
  let* lr := TimeInterval.length IR in
  let* fr := fdiv (inject_Z lr) (inject_Z len) in
  let Q_NC := (q * fr * (1 - (Pstep_first + sum_p_inter_step)))%Q in
  let* c1 := fdiv 1 (inject_Z C) in
  let res := E_first in
  let pSyncArray := updatePSync k_f (c1 * Psync_first)%Q pSyncArray in
  let* (res, pSyncArray) :=
    for_range (k_f + 1) (k_l - 1)
      (fun k '(res, arr) =>
         let* e := Einter q covers k_f y start len k in
         let* ps := Psync_inter q covers k_f y k in
         Ret ((res + e)%Q, updatePSync k (c1 * ps)%Q arr))
      (res, pSyncArray) in
  let res := (res + Elast)%Q in
  let pSyncArray := updatePSync k_l (c1 * Psync_last)%Q pSyncArray in
  Ret (Rl, Z, Q_C, Q_NC, res, pSyncArray).

Fixpoint recursiveCalc (fuel : nat) (q : Q) (i : Z) (I : TimeInterval.t)
    (y : Z) (pSyncArray : list Q) : outcome (Q * list Q) :=
  if TimeInterval.isEmpty I || Qltb q (pow 10 (-9)) then Ret (0%Q, pSyncArray)
  else
    match fuel with
    | O => OutOfFuel
    | S fuel' =>
        let* (Rl, Z, Q_C, Q_NC, res, pSyncArray) := frame q i I y pSyncArray in
        let* (r1, pSyncArray) :=
          recursiveCalc fuel' Q_C (i + 1) Z y pSyncArray in
        let res := (res + r1)%Q in
        if B (i + 1) then
          let* IR := TimeInterval.intersection I Rl in
          let* (r2, pSyncArray) :=
            recursiveCalc fuel' Q_NC (i + 1) IR y pSyncArray in
          Ret ((res + r2)%Q, pSyncArray)
        else Ret (res, pSyncArray)
    end.

(** The loop over the initial offsets [y] of Case 3. *)
Definition case3_loop (fuel : nat) : outcome (Q * list Q) :=
  for_range 0 (C - 1)
    (fun y '(Tavg_sync, pSyncArray) =>
       let* c1 := fdiv 1 (inject_Z C) in
       let* I0 := TimeInterval.make 0 Tsf in
       let* (r, pSyncArray) := recursiveCalc fuel 1 1 I0 y pSyncArray in
       Ret ((Tavg_sync + c1 * r)%Q, pSyncArray))
    (0%Q, [0%Q]).

End Case3.

End WithW.

(** The three cases: the average time, [max_step] and [Psync]. *)
Definition cases (fuel : nat) : outcome (Q * Z * (Z -> outcome Q)) :=
  let* w := W in
  if Tscan <? Tsf then
    let* (sum, max_step) :=
      sumOfExpectedValueInCases1and2 (Psync1 w) fuel in
    Ret (sum, max_step, Psync1 w)
  else
    let* r := imod Tscan Tsf in
    if r =? 0 then
      let* n := idiv Tscan Tsf in
      let* (sum, max_step) :=
        sumOfExpectedValueInCases1and2 (Psync2 w n) fuel in
      Ret (sum, max_step, Psync2 w n)
    else
      let* n := fdiv (inject_Z Tscan) (inject_Z Tsf) in
      let* (Tavg_sync, pSyncArray) := case3_loop w n fuel in
      Ret (Tavg_sync, Z.of_nat (length pSyncArray) - 1,
           fun k => vector_at pSyncArray k).

(** The [do ... while (k <= max_step)] loop that fills [cdf_]. *)
Definition cdf_loop (Psync : Z -> outcome Q) (max_step : Z) (cdf0 : list Q)
    : outcome (list Q) :=
  for_loop (Z.to_nat (Z.max 1 max_step)) 1
    (fun k cdf =>
       let* prev := vector_get cdf (k - 1) in
       let* p := Psync k in
       Ret (cdf ++ [(prev + p)%Q]))
    cdf0.

(** [Model::calculate]; [results] is the object passed by reference, the
    outcome is its state when the call returns. *)
Definition calculate (fuel : nat) (results : Results) : outcome Results :=
  let* (Tavg_sync, max_step, Psync) := cases fuel in
  let* cdf' := cdf_loop Psync max_step (cdf_ results ++ [0%Q]) in
  Ret (mkResults Tavg_sync cdf').

End Calculate.

(** A default-constructed [Results]: no entry in [cdf_]. *)
Definition fresh (r : Results) : Prop := cdf_ r = [].

End Model.

(** ** simulator.cpp *)

Module Simulator.

Record Results : Type := mkResults { avgSyncTime_ : Q; cdf_ : list Q }.

Definition avgSyncTime (r : Results) : Q := avgSyncTime_ r.

(** [Simulator::Results::cdf]; [steps] is a [size_t]. *)
Definition cdf (r : Results) (steps : nat) : outcome Q :=
  if (steps <? 1)%nat then
    Throw (invalid_argument "steps must be greater than zero.")
  else if (length (cdf_ r) <=? steps)%nat then Ret 1%Q
  else vector_get (cdf_ r) (Z.of_nat steps).

(** The three thread-local generators, each seen through its distribution:
    the [n]-th value that [uniformIntDistributionRC],
    [uniformRealDistribution0_1] and [startTimeDistribution] draw. *)
Record rng : Type := mkRng {
  randomGenerator1 : nat -> Z;
  randomGenerator2 : nat -> Q;
  randomGenerator3 : nat -> Z
}.

(** How many values a run has drawn from each generator. *)
Record drawn : Type := mkDrawn { n1 : nat; n2 : nat; n3 : nat }.

Section Run.

Variable syncParams : SyncParameters.t.
Variable g : rng.

Definition chs : list Z := SyncParameters.getCHS syncParams.
Definition availableChannels : list Z := SyncParameters.getCHS syncParams.
Definition C : Z := Z.of_nat (length chs).
Definition S_ : Z := SyncParameters.getS syncParams.
Definition slotframeDuration : Z := SyncParameters.DEFAULT_SLOT_DURATION * S_.
Definition channelRotationCycle : Z := C * slotframeDuration.
Definition TSwitch : Z := SyncParameters.getTSwitch syncParams.
Definition TScan : Z := SyncParameters.getTScan syncParams.

(** The values the distributions can draw. *)
Definition rng_ok : Prop :=
  (forall n, 0 <= randomGenerator1 g n <= Z.of_nat (length availableChannels) - 1) /\
  (forall n, (0 <= randomGenerator2 g n /\ randomGenerator2 g n < 1)%Q) /\
  (forall n, 0 <= randomGenerator3 g n <= channelRotationCycle).

Definition randomChannel (d : drawn) : outcome (Z * drawn) :=
  let* ch := vector_get availableChannels (randomGenerator1 g (n1 d)) in
  Ret (ch, mkDrawn (S (n1 d)) (n2 d) (n3 d)).

Definition random (d : drawn) : Q * drawn :=
  (randomGenerator2 g (n2 d), mkDrawn (n1 d) (S (n2 d)) (n3 d)).

Definition randomScanStartTime (d : drawn) : Z * drawn :=
  (randomGenerator3 g (n3 d), mkDrawn (n1 d) (n2 d) (S (n3 d))).

(** What a trial carries from one minimal cell to the next. *)
Record listening : Type := mkListening {
  lastSelectedChannel : Z;
  lastSelectionTime : Z;
  nextSelectionTime : Z;
  channel_switch_flag : bool
}.

(** The [do ... while (nextSelectionTime <= txTime)] loop; it returns
    [scannedChannel] with the updated selection. *)
Fixpoint select_loop (fuel : nat) (txTime : Z) (l : listening) (d : drawn)
    : outcome (Z * listening * drawn) :=
  match fuel with
  | O => OutOfFuel
  | S fuel' =>
      let* (scannedChannel, d) := randomChannel d in
      let flag := negb (scannedChannel =? lastSelectedChannel l) in
      let next :=
        if flag then nextSelectionTime l + TSwitch + TScan
        else nextSelectionTime l + TScan in
      let l' := mkListening scannedChannel (nextSelectionTime l) next flag in
      if next <=? txTime then select_loop fuel' txTime l' d
      else Ret (scannedChannel, l', d)
  end.

(** The [while (true)] loop over the minimal cells after the scan start; it
    returns [txTime] of the cell in which the EB is received. *)
Fixpoint cell_loop (fuel : nat) (asn : Z) (l : listening) (d : drawn)
    : outcome (Z * drawn) :=
  match fuel with
  | O => OutOfFuel
  | S fuel' =>
      let txTime :=
        asn * SyncParameters.DEFAULT_SLOT_DURATION
        + SyncParameters.DEFAULT_TX_OFFSET in
      let* idx := imod asn C in
      let* minimalCellChannel := vector_get chs idx in
      let* (scannedChannel, l, d) :=
        if (1 <? Z.of_nat (length availableChannels))
           && (txTime >=? nextSelectionTime l)
        then select_loop fuel txTime l d
        else Ret (lastSelectedChannel l, l, d) in
      let next := cell_loop fuel' (asn + S_) l in
      if negb (channel_switch_flag l)
         || (txTime >=? lastSelectionTime l + TSwitch) then
        if minimalCellChannel =? scannedChannel then
          let (u, d) := random d in
          let* psr := map_at (SyncParameters.getPsr syncParams) scannedChannel in
          if Qltb u (SyncParameters.getPeb syncParams * psr)%Q
          then Ret (txTime, d)
          else next d
        else next d
      else next d
  end.

(** [counter[current_step] += 1], or [= 1] for a new key. *)
Definition count (current_step : Z) (counter : gmap Z Z) : gmap Z Z :=
  match counter !! current_step with
  | None => <[current_step := 1]> counter
  | Some c => <[current_step := c + 1]> counter
  end.

(** One round of the loop over [run]. *)
Definition trial (fuel : nat) (numRuns : Z)
    (st : Q * gmap Z Z * drawn) : outcome (Q * gmap Z Z * drawn) :=
  let '(avg_st, counter, d) := st in
  let (scanStartTime, d) := randomScanStartTime d in
  let* scanStartASN := idiv scanStartTime SyncParameters.DEFAULT_SLOT_DURATION in
  let* r := imod scanStartASN S_ in
  let asn :=
    if (r =? 0) && (scanStartTime <=?
                      scanStartASN * SyncParameters.DEFAULT_SLOT_DURATION
                      + SyncParameters.DEFAULT_TX_OFFSET)
    then scanStartASN else scanStartASN + S_ - r in
  let* (lastSelectedChannel, d) := randomChannel d in
  let l := mkListening lastSelectedChannel scanStartTime
             (scanStartTime + TSwitch + TScan) true in
  let* (txTime, d) := cell_loop fuel asn l d in
  let* share :=
    fdiv (inject_Z (txTime - scanStartTime + SyncParameters.getTeb syncParams))
         (inject_Z numRuns) in
  let* ratio :=
    fdiv (inject_Z (txTime - scanStartTime)) (inject_Z slotframeDuration) in
  let current_step := Qceiling ratio in
  Ret ((avg_st + seconds share)%Q, count current_step counter, d).

(** [counter.rbegin()->first], the largest key. *)
Definition last_key (counter : gmap Z Z) : outcome Z :=
  match map_to_list counter with
  | [] => Throw undefined_behaviour
  | (k, _) :: rest => Ret (foldr Z.max k (fst <$> rest))
  end.

(** The loop that fills [cdf_] from the counters. *)
Definition cdf_loop (numRuns : Z) (counter : gmap Z Z) (cdf0 : list Q)
    : outcome (Z * list Q) :=
  for_range 1 (Z.of_nat (length cdf0) - 1)
    (fun i '(sumCounters, cdf) =>
       let sumCounters :=
         match counter !! i with
         | Some c => sumCounters + c
         | None => sumCounters
         end in
       let* v := fdiv (inject_Z sumCounters) (inject_Z numRuns) in
       Ret (sumCounters, <[Z.to_nat i := v]> cdf))
    (0, cdf0).

(** The loop over [run]. *)
Definition trials (fuel : nat) (numRuns : Z) : outcome (Q * gmap Z Z * drawn) :=
  for_range 0 (numRuns - 1) (fun _ st => trial fuel numRuns st)
    (0%Q, ∅, mkDrawn 0 0 0).

(** [cdf_.assign(n, 0)]; a negative [n] is a huge [size_t]. *)
Definition assign (n : Z) : outcome (list Q) :=
  if n <? 0 then Throw length_error else Ret (replicate (Z.to_nat n) 0%Q).

(** The construction of the CDF. *)
Definition create_cdf (numRuns : Z) (counter : gmap Z Z) : outcome (list Q) :=
  let* top := last_key counter in
  let* cdf0 := assign (top + 1) in
  let* (_, cdf) := cdf_loop numRuns counter cdf0 in
  Ret cdf.

(** [Simulator::run]: the state of [results] when the call ends, and how
    it ends. *)
Definition run (fuel : nat) (numRuns : Z) (results : Results)
    : Results * outcome unit :=
  if numRuns <=? 0 then
    (results,
     Throw (invalid_argument "The parameter numRuns must be greater than 0"))
  else
    match trials fuel numRuns with
    | Ret (avg_st, counter, _) =>
        let results := mkResults avg_st (cdf_ results) in
        match create_cdf numRuns counter with
        | Ret cdf => (mkResults (avgSyncTime_ results) cdf, Ret tt)
        | Throw e => (results, Throw e)
        | OutOfFuel => (results, OutOfFuel)
        end
    | Throw e => (results, Throw e)
    | OutOfFuel => (results, OutOfFuel)
    end.

End Run.

End Simulator.

(** ** Conversions of [double] values *)

(** The integer part of a double, towards zero. *)
Definition truncate (x : Q) : Z := Z.quot (Qnum x) (Z.pos (Qden x)).

(** [(int) x]; the conversion is undefined when the integer part does not
    fit. *)
Definition to_int (x : Q) : outcome Z :=
  let z := truncate x in
  if (-2147483648 <=? z) && (z <=? 2147483647) then Ret z
  else Throw undefined_behaviour.


(** [std::chrono::round<nanoseconds>] of a duration counted in nanoseconds:
    the nearest integer, the even one of the two when both are as near. *)
Definition chrono_round (x : Q) : Z :=
  let f := Qfloor x in
  let d := (x - inject_Z f)%Q in
  if Qltb d (1 # 2) then f
  else if Qltb (1 # 2) d then f + 1
  else if Z.even f then f else f + 1.

(** ** modelvalidation.cpp *)

Module ModelValidator.

Definition NUM_RANDOM_CASES : Z := 100000.
Definition MAX_ALLOWED_ERROR : Q := 1 # 100.

(** The test [makeValidation] starts with. *)
Definition check_numThreads (numThreads : Z) : outcome unit :=
  if numThreads <? 1 then
    Throw (invalid_argument "numThreads must be greater than zero.")
  else Ret tt.

(** The argument [numCases] of each worker that [comparisonWithSimulator]
    starts, in the order of the calls: one call when [numThreads == 1], and
    otherwise one thread for each [i = 1 .. numThreads]. *)
Definition worker_numCases (numThreads : Z) : outcome (list Z) :=
  if numThreads =? 1 then Ret [NUM_RANDOM_CASES]
  else
    for_range 1 numThreads
      (fun i threads =>
         let* r := imod NUM_RANDOM_CASES numThreads in
         if r >=? i then
           let* q := idiv NUM_RANDOM_CASES numThreads in
           Ret (threads ++ [q + 1])
         else
           let* q := idiv NUM_RANDOM_CASES numThreads in
           Ret (threads ++ [q]))
      [].

(** [relativeErrorInAVG]: a duration divided by a duration. *)
Definition relativeErrorInAVG (model_results : Model.Results)
    (sim_results : Simulator.Results) : outcome Q :=
  fdiv (Qabs (Model.avgSyncTime model_results
              - Simulator.avgSyncTime sim_results))
       (Simulator.avgSyncTime sim_results).

(** The loop
    [for (k = 1; model_results.cdf(k) < 1 or sim_results.cdf(k) < 1; k++)]
    that computes [maxAbsoluteErrorInCDF]. *)
Fixpoint cdf_error_loop (fuel : nat) (k : nat) (model_results : Model.Results)
    (sim_results : Simulator.Results) (maxAbsoluteErrorInCDF : Q)
    : outcome Q :=
  match fuel with
  | O => OutOfFuel
  | S fuel' =>
      let* m := Model.cdf model_results k in
      let* continue :=
        if Qltb m 1 then Ret true
        else let* s := Simulator.cdf sim_results k in Ret (Qltb s 1) in
      if continue : bool then
        let* m := Model.cdf model_results k in
        let* s := Simulator.cdf sim_results k in
        let absoluteErrorInCDF := Qabs (m - s) in
        let maxAbsoluteErrorInCDF :=
          if Qltb maxAbsoluteErrorInCDF absoluteErrorInCDF
          then absoluteErrorInCDF else maxAbsoluteErrorInCDF in
        cdf_error_loop fuel' (S k) model_results sim_results
          maxAbsoluteErrorInCDF
      else Ret maxAbsoluteErrorInCDF
  end.

Definition maxAbsoluteErrorInCDF (fuel : nat) (model_results : Model.Results)
    (sim_results : Simulator.Results) : outcome Q :=
  cdf_error_loop fuel 1 model_results sim_results (-1).

(** The test that makes a worker set [validationFailed]. *)
Definition exceeds (relativeErrorInAVG maxAbsoluteErrorInCDF : Q) : bool :=
  Qltb MAX_ALLOWED_ERROR relativeErrorInAVG
  || Qltb MAX_ALLOWED_ERROR maxAbsoluteErrorInCDF.


(** [custom_real_n_distribution::operator()], from the values its four
    distributions draw: [coin] from the Bernoulli distribution, [m] from the
    integers between [ceil(a_)] and [floor(b_)], [e] from the integers 1 to
    4, and [u] from the reals between [a_] and [b_]. *)
Definition custom_real_n_distribution (coin : bool) (m e : Z) (u : Q) : Q :=
  if coin then (inject_Z m + pow 2 (- e))%Q else u.

(** [tScan], rounded from [n * s * DEFAULT_SLOT_DURATION]. *)
Definition tScan (n : Q) (s : Z) : Z :=
  chrono_round
    (n * inject_Z s * inject_Z SyncParameters.DEFAULT_SLOT_DURATION)%Q.

(** [optimalTscan] *)
Definition optimalTscan (c s : Z) : Z :=
  c * s * SyncParameters.DEFAULT_SLOT_DURATION.

End ModelValidator.

(** ** main.cpp *)

(** [a <= b] on doubles, decided; [std::sort] compares with it. *)
#[global] Instance Qle_dec (x y : Q) : Decision (x <= y)%Q :=
  match Qlt_le_dec y x with
  | left H => right (Qlt_not_le y x H)
  | right H => left H
  end.

Module Main.

(** The lambda [calculateCI] of [generateSimStatsFig8].  It sorts the vector
    it is given, which the caller sees, and returns the two values at the
    indices [idxL] and [idxU]. *)
Definition calculateCI (values : list Q) (confLevel : Q)
    : list Q * outcome (Q * Q) :=
  let values := merge_sort Qle values in
  let pl := ((1 - confLevel) / 2)%Q in
  let pu := (1 - pl)%Q in
  let idxL := Qfloor (inject_Z (Z.of_nat (length values)) * pl) in
  let idxU := Qfloor (inject_Z (Z.of_nat (length values)) * pu) in
  (values,
   let* lo := vector_get values idxL in
   let* hi := vector_get values idxU in
   Ret (lo, hi)).

Inductive AveragePsrType : Type := ZeroStdDev | MaxStdDev.

(** [while (temp.size() < size) temp.push_back(0)] *)
Fixpoint pad (fuel : nat) (size : nat) (temp : list Q) : outcome (list Q) :=
  match fuel with
  | O => OutOfFuel
  | S fuel' =>
      if (length temp <? size)%nat then pad fuel' size (temp ++ [0%Q])
      else Ret temp
  end.

(** The lambda [generatePsr] of [generateSimStatsFig8]. *)
Definition generatePsr (fuel : nat) (chs : list Z) (averagePsr : Q)
    (averagePsrType : AveragePsrType) : outcome (gmap Z Q) :=
  match averagePsrType with
  | ZeroStdDev => Ret (foldl (fun pSR ch => <[ch := averagePsr]> pSR) ∅ chs)
  | MaxStdDev =>
      let targetSum := (averagePsr * inject_Z (Z.of_nat (length chs)))%Q in
      let* numOf1 := to_int targetSum in
      let rem := (targetSum - inject_Z numOf1)%Q in
      let* temp :=
        for_range 0 (numOf1 - 1) (fun _ temp => Ret (temp ++ [1%Q])) [] in
      let temp :=
        if (length temp <? length chs)%nat then temp ++ [rem] else temp in
      let* temp := pad fuel (length chs) temp in
      for_range 0 (Z.of_nat (length chs) - 1)
        (fun i pSR =>
           let* ch := vector_get chs i in
           let* v := vector_get temp i in
           Ret (<[ch := v]> pSR))
        ∅
  end.

End Main.

(** ** The formulas of the model, as the documentation states them

    These definitions follow the text of the specification, not the code:
    sums and products are the usual finite sums and products, the
    probabilities are total functions, and nothing is computed by a loop. *)

Module Spec.

(** [sumQ f lo n] is the sum of [f lo], ..., [f (lo + n - 1)]. *)
Fixpoint sumQ (f : Z -> Q) (lo : Z) (n : nat) : Q :=
  match n with
  | O => 0%Q
  | S n' => (f lo + sumQ f (lo + 1) n')%Q
  end.

(** [prodQ f lo n] is the product of [f lo], ..., [f (lo + n - 1)]. *)
Fixpoint prodQ (f : Z -> Q) (lo : Z) (n : nat) : Q :=
  match n with
  | O => 1%Q
  | S n' => (f lo * prodQ f (lo + 1) n')%Q
  end.

(** The sum and the product of [f] over [lo .. hi]. *)
Definition sum_range (f : Z -> Q) (lo hi : Z) : Q :=
  sumQ f lo (Z.to_nat (hi - lo + 1)).
Definition prod_range (f : Z -> Q) (lo hi : Z) : Q :=
  prodQ f lo (Z.to_nat (hi - lo + 1)).

Section Formulas.

Variable p : SyncParameters.t.

Definition C : Z := Z.of_nat (length (SyncParameters.getCHS p)).
Definition Tsf : Z :=
  SyncParameters.DEFAULT_SLOT_DURATION * SyncParameters.getS p.
Definition pEB : Q := SyncParameters.getPeb p.
Definition tEB : Z := SyncParameters.getTeb p.

(** [pSR[ch]] *)
Definition pSR (ch : Z) : Q := default 0%Q (SyncParameters.getPsr p !! ch).

(** [W[i] = chs[((i - 1) * slotsPerFrame) mod C]], for [i = 1 .. C]. *)
Definition W (i : Z) : Z :=
  nth (Z.to_nat (((i - 1) * SyncParameters.getS p) mod C))
    (SyncParameters.getCHS p) 0.

(** The channel scheduled at step [k] for the offset [y]: the entry of the
    vector [W[1], ..., W[C]] at the position [(y + k - 1) mod C], counted
    from 0. *)
Definition channel (k y : Z) : Z := W ((y + k - 1) mod C + 1).

(** [Pstep(k, y) = (1 / C) * pEB * pSR[W[(y + k - 1) mod C]]] *)
Definition Pstep (k y : Z) : Q :=
  (1 / inject_Z C * pEB * pSR (channel k y))%Q.

(** The probability that the EB of step [k] is sent and received by a node
    that listens on the channel of that step. *)
Definition pe (k y : Z) : Q := (pEB * pSR (channel k y))%Q.

(** The probability of a reception at step [k] in a scan period whose first
    counted step is [a]: the node listens on the channel of step [k], and
    the earlier visits of the period to that channel, one every [C] steps,
    all failed. *)
Definition hit (a k y : Z) : Q :=
  (Pstep k y * Qpower (1 - pe k y) ((k - a) / C))%Q.

(** The probability that a scan period whose first counted step is [a]
    reaches its step [a + m] without a reception, channel by channel. *)
Definition residual (a m y : Z) : Q :=
  sum_range
    (fun j => (1 / inject_Z C * Qpower (1 - pe (a + j) y) ((m - j + C - 1) / C))%Q)
    0 (C - 1).

(** *** Case 1 *)

(** [Psync(k)], the sum over [y = 0 .. C - 1] of
    [(1 / C) * (prod over i = 1 .. k - 1 of (1 - Pstep(i, y))) * Pstep(k, y)]. *)
Definition Psync1 (k : Z) : Q :=
  sum_range
    (fun y => (1 / inject_Z C
               * prod_range (fun i => 1 - Pstep i y) 1 (k - 1)
               * Pstep k y)%Q)
    0 (C - 1).

(** *** Case 2 *)

Section Case2.

Variable n : Z.

(** The first step of the scan window of step [k], and the number of
    earlier visits in that window to the channel of step [k]. *)
Definition k_f (k : Z) : Z := ((k - 1) / n) * n + 1.
Definition Nchp (k : Z) : Z := (k - k_f k) / C.


(** The base hit probability times the survival factor. *)
Definition Pstep_sp (k y : Z) : Q :=
  (Pstep k y * Qpower (1 - pEB * pSR (channel k y)) (Nchp k))%Q.

(** The probability that the scan window [i] ends without a reception. *)
Definition Qsp (i y : Z) : Q :=
  (1 - sum_range (fun k => Pstep_sp k y) ((i - 1) * n + 1) (i * n))%Q.

(** The probability that no EB is received in the steps [1 .. k]. *)
Definition survival (k y : Z) : Q :=
  (prod_range (fun i => Qsp i y) 1 ((k - 1) / n)
   * (1 - sum_range (fun k' => Pstep_sp k' y) (k_f k) k))%Q.

Definition Psync2 (k : Z) : Q :=
  sum_range
    (fun y => (1 / inject_Z C
               * (prod_range (fun i => Qsp i y) 1 ((k - 1) / n)
                  * Pstep_sp k y))%Q)
    0 (C - 1).

End Case2.

(** Some channel can deliver an EB. *)
Definition can_deliver : Prop :=
  (0 < pEB)%Q /\
  exists c, c ∈ SyncParameters.getCHS p /\ (0 < pSR c)%Q.

(** *** Case 3 *)

Section Case3.

Variable n : Q.

(** The offset in the slotframe at which the scan period [i] ends. *)
Definition rem3 (i : Z) : Z := (i * SyncParameters.getTScan p) mod Tsf.

(** The first and the last step of the scan period [i]. *)
Definition k_f3 (i : Z) : Z :=
  if Model.B n i then Qceiling (inject_Z (i - 1) * n)
  else Qfloor (inject_Z (i - 1) * n + 1).
Definition k_l3 (i : Z) : Z := Qceiling (inject_Z i * n).

(** Whether the first step of the scan period [i] covers the EB, when the
    scan started in the part [a, b] of the slotframe. *)
Definition covers3 (i a b : Z) : bool :=
  negb (Model.B n i) || ((rem3 (i - 1) <=? a) && (Tsf >=? b)).

(** The first step of the scan period [i] that counts. *)
Definition first3 (i a b : Z) : Z :=
  if covers3 i a b then k_f3 i else k_f3 i + 1.

(** The probability of a reception in the scan period [i], its last step
    left out, and with its last step. *)
Definition head3 (i a b y : Z) : Q :=
  sum_range (fun k => hit (first3 i a b) k y) (first3 i a b) (k_l3 i - 1).
Definition all3 (i a b y : Z) : Q :=
  sum_range (fun k => hit (first3 i a b) k y) (first3 i a b) (k_l3 i).

(** The lengths of the parts of [a, b] before and after the offset [r]. *)
Definition lenL (a b r : Z) : Z := if a >? r then 0 else Z.min b r - a.
Definition lenR (a b r : Z) : Z := if b <? r then 0 else b - Z.max a r.

(** The part of the scan period [i] that ends before the slotframe does,
    and the part after the end of the scan period, as fractions of the live
    part [a, b] of the slotframe. *)
Definition Plsc3 (i a b : Z) : Q :=
  if Model.B n (i + 1)
  then (inject_Z (lenL a b (rem3 i)) / inject_Z (b - a))%Q else 1%Q.
Definition fracR3 (i a b : Z) : Q :=
  (inject_Z (lenR a b (rem3 i)) / inject_Z (b - a))%Q.

End Case3.

(** A branch of the recursion of Case 3 carries its probability [q] and the
    part [I] of the slotframe in which the scan can have started: the part
    is empty, or an interval of the slotframe, of positive length when [q]
    is positive. *)
Definition branch (q : Q) (I : TimeInterval.t) : Prop :=
  (0 <= q)%Q /\
  (I = TimeInterval.empty \/
   exists a b, I = TimeInterval.set a b /\ 0 <= a <= b /\ b <= Tsf /\
               (a = b -> (q == 0)%Q)).

(** *** The truncated series *)

(** The cumulative probability of the steps [1 .. k]. *)
Definition cumulative (Psync : Z -> Q) (k : Z) : Q := sum_range Psync 1 k.

(** [K] is the first step at which the cumulative probability reaches
    [1 - 1e-9]. *)
Definition truncation (Psync : Z -> Q) (K : Z) : Prop :=
  1 <= K /\
  (1 - (1 # 1000000000) <= cumulative Psync K)%Q /\
  forall k, 1 <= k < K -> (cumulative Psync k < 1 - (1 # 1000000000))%Q.

(** The expected time, in seconds: the sum over [k = 1 .. K] of
    [Psync(k) * ((k - 1) * Tsf + Tsf / 2 + tEB)], the durations counted in
    nanoseconds. *)
Definition expected_time (Psync : Z -> Q) (K : Z) : Q :=
  (sum_range
     (fun k => Psync k * (inject_Z (k - 1) * inject_Z Tsf + inject_Z Tsf / 2
                          + inject_Z tEB))
     1 K
   / 1000000000)%Q.

(** The cumulative distribution recorded for the steps [0 .. K]. *)
Definition recorded_cdf (Psync : Z -> Q) (K : Z) : list Q :=
  map (fun k => cumulative Psync (Z.of_nat k)) (seq 0 (S (Z.to_nat K))).

End Formulas.

(** The bound on the probability [q] of a branch of the recursion of Case 3
    whose next counted step is [k0]: the steps [kappa], [kappa + D],
    [kappa + 2 D], ... visit a channel on which a beacon can be received,
    each of them that a scan period has counted has taken the part [delta]
    of the probability, and [c] of them have been counted. *)
Definition decayed (delta : Q) (kappa D : Z) (q : Q) (k0 : Z) : Prop :=
  exists c : nat,
    (q <= Qpower (1 - delta) (Z.of_nat c))%Q /\ k0 <= kappa + D * Z.of_nat c.

End Spec.

(** ** Sample parameter objects *)

Module Samples.

Definition pSR_a : gmap Z Q := <[11 := (1 # 2)%Q]> (<[12 := 1%Q]> ∅).

(** Two channels, one slot per slotframe (10 ms), a scan period of 5 ms. *)
Definition case1 : SyncParameters.t :=
  SyncParameters.mk [11; 12] 1 1%Q pSR_a 5000000 0 0.

(** The same with a switch delay of 3 ms. *)
Definition case1_switch : SyncParameters.t :=
  SyncParameters.mk [11; 12] 1 1%Q pSR_a 5000000 3000000 0.

(** A scan period of two slotframes. *)
Definition case2 : SyncParameters.t :=
  SyncParameters.mk [11; 12] 1 1%Q pSR_a 20000000 0 0.

(** No beacon is ever sent. *)
Definition silent : SyncParameters.t :=
  SyncParameters.mk [11; 12] 1 0%Q pSR_a 5000000 0 0.

(** One channel, a scan period of one slotframe and a half. *)
Definition case3 : SyncParameters.t :=
  SyncParameters.mk [11] 1 1%Q (<[11 := (1 # 2)%Q]> ∅) 15000000 0 0.

(** Two channels, a scan period of exactly one slotframe. *)
Definition one_slotframe : SyncParameters.t :=
  SyncParameters.mk [11; 12] 1 1%Q pSR_a 10000000 0 0.

(** No channel at all; the constructor accepts it. *)
Definition no_channel : SyncParameters.t :=
  SyncParameters.mk [] 1 1%Q ∅ 5000000 0 0.
Definition no_channel3 : SyncParameters.t :=
  SyncParameters.mk [] 1 1%Q ∅ 15000000 0 0.

Definition fresh : Model.Results := Model.mkResults 0%Q [].

(** Generators that always draw the first channel and the probability 0,
    and scan start times 3 ms apart. *)
Definition generators : Simulator.rng :=
  Simulator.mkRng (fun _ => 0) (fun _ => 0%Q)
    (fun n => Z.of_nat n * 3000000 + 1).

(** Two channels, a scan period of 5 ms and an EB of 4256 us. *)
Definition long_beacon : SyncParameters.t :=
  SyncParameters.mk [11; 12] 1 1%Q pSR_a 5000000 0 4256000.

(** One channel on which 999 EBs in 1000 are received; a scan period of
    half a slotframe. *)
Definition reliable : SyncParameters.t :=
  SyncParameters.mk [11] 1 1%Q (<[11 := (999 # 1000)%Q]> ∅) 5000000 0 0.

(** The same with a scan period of one slotframe. *)
Definition reliable_frame : SyncParameters.t :=
  SyncParameters.mk [11] 1 1%Q (<[11 := (999 # 1000)%Q]> ∅) 10000000 0 0.

(** Generators that repeat: the channel index alternates, the probability
    drawn is always 0, and the scan starts 0, 5, 10 and 15 ms after the
    origin in turn. *)
Definition steady : Simulator.rng :=
  Simulator.mkRng (fun n => Z.of_nat n mod 2) (fun _ => 0%Q)
    (fun n => (Z.of_nat n mod 4) * 5000000).

(** Generators whose first scan starts at the instant at which the first
    minimal cell transmits, 2120 us after the origin, and whose later scans
    start after 5 ms; the first channel and the probability 0 every time. *)
Definition on_the_beacon : Simulator.rng :=
  Simulator.mkRng (fun _ => 0) (fun _ => 0%Q)
    (fun n => match n with O => 2120000 | S _ => 5000000 end).

End Samples.

(** ** Properties of a cumulative distribution *)

Module Distribution.

(** What [cdf(steps)] must satisfy, for a [cdf] function of either
    [Results] type: every value is a probability, the values do not
    decrease with the step, and they are 1 from some step on. *)
Definition is_cdf (cdf : nat -> outcome Q) : Prop :=
  (forall steps, (1 <= steps)%nat ->
     exists v, cdf steps = Ret v /\ (0 <= v /\ v <= 1)%Q) /\
  (forall a b va vb, (1 <= a <= b)%nat ->
     cdf a = Ret va -> cdf b = Ret vb -> (va <= vb)%Q) /\
  (exists N, forall steps, (N <= steps)%nat -> cdf steps = Ret 1%Q).

(** The same on the recorded vector. *)
Definition recorded_ok (l : list Q) : Prop :=
  (forall i v, l !! i = Some v -> (0 <= v /\ v <= 1)%Q) /\
  (forall i j vi vj, (i <= j)%nat ->
     l !! i = Some vi -> l !! j = Some vj -> (vi <= vj)%Q).

(** The number of trials a map of counters has counted. *)
Definition counted (counter : gmap Z Z) : Z :=
  map_fold (fun _ c acc => c + acc) 0 counter.

(** Every counter of the map is a count of at least one trial. *)
Definition positive_counters (m : gmap Z Z) : Prop :=
  forall k c, m !! k = Some c -> 1 <= c.

(** The counter of a step, 0 when the step has no entry. *)
Definition counter_at (counter : gmap Z Z) (i : Z) : Z :=
  default 0 (counter !! i).

(** [sumZ f lo n] is the sum of [f lo], ..., [f (lo + n - 1)]. *)
Fixpoint sumZ (f : Z -> Z) (lo : Z) (n : nat) : Z :=
  match n with
  | O => 0
  | S n' => f lo + sumZ f (lo + 1) n'
  end.

(** Every entry of the vector is a non-negative probability. *)
Definition nonneg (l : list Q) : Prop := Forall (fun v => (0 <= v)%Q) l.

(** The total of a vector of probabilities. *)
Definition total (l : list Q) : Q := foldr Qplus 0%Q l.

End Distribution.

(** ** Notions the statements use *)

(** An outcome that is not an [invalid_argument] exception. *)
Definition quiet {A} (o : outcome A) : Prop :=
  forall what, o <> Throw (invalid_argument what).

(** The call throws no exception and has no undefined behaviour: it returns
    or it is still running when the fuel is used up. *)
Definition no_throw {A} (o : outcome A) : Prop :=
  match o with
  | Throw _ => False
  | _ => True
  end.

(** The call throws no exception and has no undefined behaviour, and a value
    it returns satisfies [P]. *)
Definition ensures {A} (o : outcome A) (P : A -> Prop) : Prop :=
  match o with
  | Ret a => P a
  | Throw _ => False
  | OutOfFuel => True
  end.

(** The call returns a double that is the rational [x]. *)
Definition computes (o : outcome Q) (x : Q) : Prop :=
  exists v, o = Ret v /\ (v == x)%Q.

(** The ranges from which the workers of [ModelValidator::makeValidation]
    draw their cases: 1 to 16 channels, 1 to 10000 slots in a slotframe,
    [pEB] and the [pSR] of every channel at least 0.1, and a scan period of
    at most 100.5 slotframes. *)
Definition validated_range (p : SyncParameters.t) : Prop :=
  (1 <= length (SyncParameters.getCHS p) <= 16)%nat /\
  1 <= SyncParameters.getS p <= 10000 /\
  (1 # 10 <= Spec.pEB p)%Q /\
  (forall c, c ∈ SyncParameters.getCHS p -> (1 # 10 <= Spec.pSR p c)%Q) /\
  2 * SyncParameters.getTScan p <= 201 * Spec.Tsf p.

(** The vector [W] that the loop of [Model::calculate] builds. *)
Definition Wvec (p : SyncParameters.t) : list Z :=
  map (fun j => Spec.W p (Z.of_nat j + 1))
    (seq 0 (length (SyncParameters.getCHS p))).

(** The term of the sum of [sumOfExpectedValueInCases1and2] at step [k],
    for the probabilities [P]. *)
Definition time_term (p : SyncParameters.t) (P : Z -> Q) (k : Z) : Q :=
  seconds (P k * Model.step_time p k).

(** * Theorems *)

(** ** TimeInterval *)

Lemma TimeInterval_intersection_self (I : TimeInterval.t) :
  TimeInterval.wf I -> TimeInterval.intersection I I = Ret I.
Proof.
  destruct I as [[s|] [e|]]; cbn; try tauto; intros H.
  unfold TimeInterval.intersection, TimeInterval.orelse; cbn.
  destruct (s >? e) eqn:E1; [lia|].
  destruct (e <? s) eqn:E2; [lia|]. cbn.
  unfold TimeInterval.make.
  rewrite Z.max_id, Z.min_id, E1. reflexivity.
Qed.

Lemma TimeInterval_intersection_disjoint (I J : TimeInterval.t) :
  TimeInterval.disjoint I J ->
  TimeInterval.intersection I J = Ret TimeInterval.empty.
Proof.
  destruct I as [[s1|] [e1|]], J as [[s2|] [e2|]]; cbn; try tauto; intros H.
  unfold TimeInterval.intersection, TimeInterval.orelse; cbn.
  destruct (s1 >? e2) eqn:E1; [reflexivity|].
  destruct (e1 <? s2) eqn:E2; [reflexivity|]. lia.
Qed.

Lemma TimeInterval_isSubsetOf_empty (I J : TimeInterval.t) :
  TimeInterval.isEmpty I = true \/ TimeInterval.isEmpty J = true ->
  TimeInterval.isSubsetOf I J = Ret false.
Proof.
  unfold TimeInterval.isSubsetOf. intros [-> | ->]; [reflexivity|].
  rewrite orb_true_r. reflexivity.
Qed.

(** C8. For every interval [I] (a value of the two constructors),
    [intersection(I, I)] is [I]; the intersection of two disjoint non-empty
    intervals is the empty interval; the empty interval has length 0; and
    [isSubsetOf] is false as soon as the receiver or the argument is empty. *)
Theorem C8_timeinterval_laws :
  (forall I, TimeInterval.wf I -> TimeInterval.intersection I I = Ret I) /\
  (forall I J, TimeInterval.wf I -> TimeInterval.wf J ->
     TimeInterval.isEmpty I = false -> TimeInterval.isEmpty J = false ->
     TimeInterval.disjoint I J ->
     TimeInterval.intersection I J = Ret TimeInterval.empty) /\
  (forall I, TimeInterval.isEmpty I = true -> TimeInterval.length I = Ret 0) /\
  (forall I J, TimeInterval.isEmpty I = true \/ TimeInterval.isEmpty J = true ->
     TimeInterval.isSubsetOf I J = Ret false).
Proof.
  repeat split.
  - apply TimeInterval_intersection_self.
  - intros I J _ _ _ _. apply TimeInterval_intersection_disjoint.
  - intros I H. unfold TimeInterval.length. rewrite H. reflexivity.
  - apply TimeInterval_isSubsetOf_empty.
Qed.

(** ** SyncParameters *)

Section Constructor.
Import SyncParameters.

Lemma Qltb_true (a b : Q) : Qltb a b = true <-> (a < b)%Q.
Proof.
  unfold Qltb. rewrite negb_true_iff.
  destruct (Qle_bool b a) eqn:E.
  - apply Qle_bool_iff in E. split; [discriminate | intros; lra].
  - split; [intros _ | reflexivity].
    apply Qnot_le_lt. intros H. apply Qle_bool_iff in H. congruence.
Qed.

Lemma Qltb_false (a b : Q) : Qltb a b = false <-> (b <= a)%Q.
Proof.
  destruct (Qltb a b) eqn:E.
  - apply Qltb_true in E. split; [discriminate | intros; lra].
  - split; [intros _ | reflexivity].
    apply Qnot_lt_le. intros H. apply Qltb_true in H. congruence.
Qed.

Lemma probability_check (p : Q) :
  Qltb p 0 || Qltb 1 p = false <-> (0 <= p /\ p <= 1)%Q.
Proof. rewrite orb_false_iff, !Qltb_false. tauto. Qed.

Lemma check_range_spec (chs : list Z) :
  (check_range chs = Ret tt /\ cond1 chs) \/
  (check_range chs = Throw (invalid_argument msg_range) /\ ~ cond1 chs).
Proof.
  unfold cond1. induction chs as [|c rest IH]; cbn.
  - left. split; [reflexivity | constructor].
  - destruct ((c <? 11) || (c >? 26)) eqn:E.
    + right. split; [reflexivity|]. intros H. inversion H; subst. lia.
    + destruct IH as [[-> H] | [-> H]].
      * left. split; [reflexivity|]. constructor; [lia | assumption].
      * right. split; [reflexivity|]. intros H'. inversion H'; auto.
Qed.

Lemma check_unique_inner_spec (x : Z) (rest : list Z) :
  (check_unique_inner x rest = Ret tt /\ x ∉ rest) \/
  (check_unique_inner x rest = Throw (invalid_argument msg_unique) /\ x ∈ rest).
Proof.
  induction rest as [|y rest IH]; cbn.
  - left. split; [reflexivity|]. apply not_elem_of_nil.
  - destruct (x =? y) eqn:E.
    + right. split; [reflexivity|]. apply Z.eqb_eq in E. subst. left.
    + apply Z.eqb_neq in E. destruct IH as [[-> H] | [-> H]].
      * left. split; [reflexivity|]. rewrite not_elem_of_cons. auto.
      * right. split; [reflexivity|]. right. assumption.
Qed.

Lemma check_unique_spec (chs : list Z) :
  (check_unique chs = Ret tt /\ cond2 chs) \/
  (check_unique chs = Throw (invalid_argument msg_unique) /\ ~ cond2 chs).
Proof.
  unfold cond2. induction chs as [|x rest IH]; cbn.
  - left. split; [reflexivity | constructor].
  - destruct (check_unique_inner_spec x rest) as [[-> H] | [-> H]]; cbn.
    + destruct IH as [[-> H'] | [-> H']].
      * left. split; [reflexivity|]. constructor; assumption.
      * right. split; [reflexivity|]. rewrite NoDup_cons. tauto.
    + right. split; [reflexivity|]. rewrite NoDup_cons. tauto.
Qed.

(** The loop over [chs] succeeds exactly when every channel has an entry
    that is a probability. *)
Lemma check_pSR_spec (chs : list Z) (pSR : gmap Z Q) :
  (check_pSR chs pSR = Ret tt /\
   forall c, c ∈ chs -> exists p, pSR !! c = Some p /\ (0 <= p /\ p <= 1)%Q) \/
  (check_pSR chs pSR = Throw (invalid_argument msg_pSR_missing) /\
   exists c, c ∈ chs /\ pSR !! c = None) \/
  (check_pSR chs pSR = Throw (invalid_argument msg_pSR_invalid) /\
   exists c p, c ∈ chs /\ pSR !! c = Some p /\ ~ (0 <= p /\ p <= 1)%Q).
Proof.
  induction chs as [|c rest IH]; cbn.
  - left. split; [reflexivity|]. intros c H. apply elem_of_nil in H. tauto.
  - destruct (pSR !! c) as [p|] eqn:Ec.
    + destruct (Qltb p 0 || Qltb 1 p) eqn:Ep.
      * right. right. split; [reflexivity|]. exists c, p.
        split; [left|]. split; [assumption|].
        rewrite <- probability_check. congruence.
      * apply probability_check in Ep.
        destruct IH as [[-> H] | [[-> H] | [-> H]]].
        -- left. split; [reflexivity|]. intros c' Hc'.
           apply elem_of_cons in Hc' as [-> | Hc']; eauto.
        -- right. left. split; [reflexivity|].
           destruct H as (c' & Hc' & Hn). exists c'. split; [right|]; assumption.
        -- right. right. split; [reflexivity|].
           destruct H as (c' & p' & Hc' & Hn). exists c', p'.
           split; [right|]; assumption.
    + right. left. split; [reflexivity|]. exists c. split; [left | assumption].
Qed.

(** With pairwise distinct channels that all have an entry, the size test
    of the constructor decides whether [pSR] has further entries. *)
Lemma no_extra_entries (chs : list Z) (pSR : gmap Z Q) :
  NoDup chs ->
  (forall c, c ∈ chs -> is_Some (pSR !! c)) ->
  ((Z.of_nat (size pSR) >? Z.of_nat (length chs)) = false <->
   forall c, is_Some (pSR !! c) -> c ∈ chs).
Proof.
  intros Hnd Hall.
  assert (Hsub : list_to_set chs ⊆ (dom pSR : gset Z)).
  { intros c Hc. apply elem_of_list_to_set in Hc. apply elem_of_dom. auto. }
  assert (Hlen : size (list_to_set chs : gset Z) = length chs)
    by (apply size_list_to_set; assumption).
  split.
  - intros Hsz c Hc.
    assert (Heq : list_to_set chs = (dom pSR : gset Z)).
    { apply set_subseteq_size_eq; [assumption|].
      rewrite size_dom, Hlen. lia. }
    apply elem_of_dom in Hc. rewrite <- Heq in Hc.
    apply elem_of_list_to_set in Hc. assumption.
  - intros Hex.
    assert (Hsup : (dom pSR : gset Z) ⊆ list_to_set chs).
    { intros c Hc. apply elem_of_list_to_set. apply Hex. apply elem_of_dom. assumption. }
    apply subseteq_size in Hsup. rewrite size_dom, Hlen in Hsup. lia.
Qed.

Lemma guard_spec (b : bool) (msg : string) :
  (b = false /\ guard b msg = Ret tt) \/
  (b = true /\ guard b msg = Throw (invalid_argument msg)).
Proof. destruct b; cbn; auto. Qed.

Lemma cond6_of_checks (chs : list Z) (pSR : gmap Z Q) :
  NoDup chs ->
  (forall c, c ∈ chs -> exists p, pSR !! c = Some p /\ (0 <= p /\ p <= 1)%Q) ->
  ((Z.of_nat (size pSR) >? Z.of_nat (length chs)) = false <-> cond6 chs pSR).
Proof.
  intros Hnd Hall.
  assert (Hsome : forall c, c ∈ chs -> is_Some (pSR !! c)).
  { intros c Hc. destruct (Hall c Hc) as (p & -> & _). eauto. }
  rewrite (no_extra_entries chs pSR Hnd Hsome). unfold cond6. split.
  - intros Hex. split; [assumption|]. split; [|assumption].
    intros c p Hp. destruct (Hall c (Hex c (mk_is_Some _ _ Hp))) as (p' & Hp' & Hr).
    congruence.
  - tauto.
Qed.

Ltac failing_guard i :=
  right; eexists; split; [reflexivity|]; change (condition_of _) with i;
  split; [lia|]; split;
  [| intros j Hj;
     do 9 (destruct j as [|j]; [try lia; try assumption|]); lia ].

(** The constructor, against the nine conditions: it builds the object
    from its arguments when all nine hold, and otherwise throws
    [invalid_argument] with the message of the first condition that
    fails. *)
Lemma make_spec (chs : list Z) (s : Z) (pEB : Q) (pSR : gmap Z Q)
    (tScan tSwitch tEB : Z) :
  (make chs s pEB pSR tScan tSwitch tEB
     = Ret (mk chs s pEB pSR tScan tSwitch tEB) /\
   forall i, cond i chs s pEB pSR tScan tSwitch tEB) \/
  (exists msg,
     make chs s pEB pSR tScan tSwitch tEB = Throw (invalid_argument msg) /\
     (1 <= condition_of msg <= 9)%nat /\
     ~ cond (condition_of msg) chs s pEB pSR tScan tSwitch tEB /\
     forall j, (1 <= j < condition_of msg)%nat ->
       cond j chs s pEB pSR tScan tSwitch tEB).
Proof.
  unfold make.
  destruct (check_range_spec chs) as [[-> H1] | [-> H1]]; cbn [bind];
    [| failing_guard 1%nat; assumption].
  destruct (check_unique_spec chs) as [[-> H2] | [-> H2]]; cbn [bind];
    [| failing_guard 2%nat; assumption].
  destruct (guard_spec (s <=? 0) msg_s) as [[E3 ->] | [E3 ->]]; cbn [bind];
    [| failing_guard 3%nat; unfold cond, cond3; lia].
  assert (H3 : cond3 s) by (unfold cond3; lia).
  destruct (guard_spec (negb (Z.gcd (Z.of_nat (length chs)) s =? 1)) msg_coprime)
    as [[E4 ->] | [E4 ->]]; cbn [bind];
    [| failing_guard 4%nat; unfold cond, cond4;
       apply negb_true_iff in E4; lia].
  assert (H4 : cond4 chs s)
    by (unfold cond4; apply negb_false_iff in E4; lia).
  destruct (guard_spec (Qltb pEB 0 || Qltb 1 pEB) msg_pEB)
    as [[E5 ->] | [E5 ->]]; cbn [bind];
    [| failing_guard 5%nat; unfold cond, cond5;
       rewrite <- probability_check; congruence].
  assert (H5 : cond5 pEB) by (apply probability_check; assumption).
  destruct (check_pSR_spec chs pSR) as [[-> H6] | [[-> H6] | [-> H6]]];
    cbn [bind].
  2: { failing_guard 6%nat. unfold cond, cond6.
       destruct H6 as (c & Hc & Hn). intros (Ha & _).
       apply Ha in Hc. rewrite Hn in Hc. destruct Hc; discriminate. }
  2: { failing_guard 6%nat. unfold cond, cond6.
       destruct H6 as (c & p & Hc & Hp & Hn). intros (_ & Ha & _).
       apply Hn. eapply Ha. eassumption. }
  pose proof (cond6_of_checks chs pSR H2 H6) as H6'.
  destruct (guard_spec (Z.of_nat (size pSR) >? Z.of_nat (length chs)) msg_pSR_extra)
    as [[E6 ->] | [E6 ->]]; cbn [bind];
    [| failing_guard 6%nat; unfold cond; rewrite <- H6'; congruence].
  apply H6' in E6.
  destruct (guard_spec (tScan <=? 0) msg_tScan) as [[E7 ->] | [E7 ->]];
    cbn [bind]; [| failing_guard 7%nat; unfold cond, cond7; lia].
  assert (H7 : cond7 tScan) by (unfold cond7; lia).
  destruct (guard_spec (tSwitch <? 0) msg_tSwitch) as [[E8 ->] | [E8 ->]];
    cbn [bind]; [| failing_guard 8%nat; unfold cond, cond8; lia].
  assert (H8 : cond8 tSwitch) by (unfold cond8; lia).
  destruct (guard_spec (tEB <? 0) msg_tEB) as [[E9 ->] | [E9 ->]];
    cbn [bind]; [| failing_guard 9%nat; unfold cond, cond9; lia].
  assert (H9 : cond9 tEB) by (unfold cond9; lia).
  left. split; [reflexivity|]. intros i.
  do 10 (destruct i as [|i]; [first [exact I | assumption]|]). exact I.
Qed.

End Constructor.


(** C10. The constructor accepts an empty channel sequence: with no
    channel, one slot, an empty [pSR] and otherwise valid values, no check
    fails and an object with zero channels is built. *)
Theorem C10_empty_channels_accepted (pEB : Q) (tScan tSwitch tEB : Z) :
  (0 <= pEB /\ pEB <= 1)%Q -> 0 < tScan -> 0 <= tSwitch -> 0 <= tEB ->
  exists p,
    SyncParameters.make [] 1 pEB ∅ tScan tSwitch tEB = Ret p /\
    SyncParameters.getCHS p = [] /\
    length (SyncParameters.getCHS p) = 0%nat.
Proof.
  intros HpEB HtScan HtSwitch HtEB.
  exists (SyncParameters.mk [] 1 pEB ∅ tScan tSwitch tEB).
  split; [|split; reflexivity].
  unfold SyncParameters.make. cbn.
  apply probability_check in HpEB. rewrite HpEB. cbn.
  rewrite map_size_empty. cbn.
  destruct (tScan <=? 0) eqn:E7; [lia|].
  destruct (tSwitch <? 0) eqn:E8; [lia|].
  destruct (tEB <? 0) eqn:E9; [lia|]. reflexivity.
Qed.

Lemma C10_empty_channels_accepted_witness :
  exists p,
    SyncParameters.make [] 1 (1 # 2) ∅ 5 0 0 = Ret p /\
    SyncParameters.getCHS p = [] /\
    length (SyncParameters.getCHS p) = 0%nat.
Proof.
  apply (C10_empty_channels_accepted (1 # 2) 5 0 0).
  - split; [apply Qle_bool_iff | apply Qle_bool_iff]; reflexivity.
  - lia.
  - lia.
  - lia.
Defined.

Lemma C8_timeinterval_laws_witness :
  TimeInterval.intersection (TimeInterval.set 2 7) (TimeInterval.set 2 7)
    = Ret (TimeInterval.set 2 7) /\
  TimeInterval.intersection (TimeInterval.set 0 3) (TimeInterval.set 4 9)
    = Ret TimeInterval.empty /\
  TimeInterval.length TimeInterval.empty = Ret 0 /\
  TimeInterval.isSubsetOf TimeInterval.empty (TimeInterval.set 0 3) = Ret false.
Proof.
  destruct C8_timeinterval_laws as (Hself & Hdisj & Hlen & Hsub).
  split; [|split; [|split]].
  - apply Hself. cbn. lia.
  - apply Hdisj; cbn; try reflexivity; lia.
  - apply Hlen. reflexivity.
  - apply Hsub. left. reflexivity.
Defined.

(** ** The two [Results] types *)

Lemma vector_get_lookup {A} (v : list A) (k : nat) (a : A) :
  v !! k = Some a -> vector_get v (Z.of_nat k) = Ret a.
Proof.
  intros H. unfold vector_get.
  destruct (Z.ltb_spec (Z.of_nat k) 0) as [E|E]; [lia|].
  rewrite Nat2Z.id, H. reflexivity.
Qed.

Lemma Model_cdf_spec (r : Model.Results) (steps : nat) :
  (steps = 0%nat ->
   Model.cdf r steps = Throw (invalid_argument "steps must be greater than zero.")) /\
  ((1 <= steps)%nat -> (length (Model.cdf_ r) <= steps)%nat ->
   Model.cdf r steps = Ret 1%Q) /\
  (forall x, (1 <= steps)%nat -> Model.cdf_ r !! steps = Some x ->
   Model.cdf r steps = Ret x).
Proof.
  unfold Model.cdf. repeat split.
  - intros ->. reflexivity.
  - intros H1 H2. destruct (steps <? 1)%nat eqn:E1; [apply Nat.ltb_lt in E1; lia|].
    destruct (length (Model.cdf_ r) <=? steps)%nat eqn:E2; [reflexivity|].
    apply Nat.leb_gt in E2. lia.
  - intros x H1 H2. destruct (steps <? 1)%nat eqn:E1; [apply Nat.ltb_lt in E1; lia|].
    apply lookup_lt_Some in H2 as Hlt.
    destruct (length (Model.cdf_ r) <=? steps)%nat eqn:E2;
      [apply Nat.leb_le in E2; lia|].
    apply vector_get_lookup. assumption.
Qed.

Lemma Simulator_cdf_spec (r : Simulator.Results) (steps : nat) :
  (steps = 0%nat ->
   Simulator.cdf r steps = Throw (invalid_argument "steps must be greater than zero.")) /\
  ((1 <= steps)%nat -> (length (Simulator.cdf_ r) <= steps)%nat ->
   Simulator.cdf r steps = Ret 1%Q) /\
  (forall x, (1 <= steps)%nat -> Simulator.cdf_ r !! steps = Some x ->
   Simulator.cdf r steps = Ret x).
Proof.
  unfold Simulator.cdf. repeat split.
  - intros ->. reflexivity.
  - intros H1 H2. destruct (steps <? 1)%nat eqn:E1; [apply Nat.ltb_lt in E1; lia|].
    destruct (length (Simulator.cdf_ r) <=? steps)%nat eqn:E2; [reflexivity|].
    apply Nat.leb_gt in E2. lia.
  - intros x H1 H2. destruct (steps <? 1)%nat eqn:E1; [apply Nat.ltb_lt in E1; lia|].
    apply lookup_lt_Some in H2 as Hlt.
    destruct (length (Simulator.cdf_ r) <=? steps)%nat eqn:E2;
      [apply Nat.leb_le in E2; lia|].
    apply vector_get_lookup. assumption.
Qed.

(** C6. For both [Results] types, [cdf(steps)] throws [invalid_argument]
    when [steps < 1], that is for [steps = 0]; it returns exactly 1 for
    every [steps] beyond the last recorded index; and it returns the stored
    cumulative probability for a recorded step. *)
Theorem C6_cdf_query (m : Model.Results) (s : Simulator.Results) (steps : nat) :
  ((steps < 1)%nat ->
   (exists what, Model.cdf m steps = Throw (invalid_argument what)) /\
   (exists what, Simulator.cdf s steps = Throw (invalid_argument what))) /\
  ((1 <= steps)%nat ->
   ((length (Model.cdf_ m) <= steps)%nat -> Model.cdf m steps = Ret 1%Q) /\
   ((length (Simulator.cdf_ s) <= steps)%nat -> Simulator.cdf s steps = Ret 1%Q) /\
   (forall x, Model.cdf_ m !! steps = Some x -> Model.cdf m steps = Ret x) /\
   (forall x, Simulator.cdf_ s !! steps = Some x -> Simulator.cdf s steps = Ret x)).
Proof.
  destruct (Model_cdf_spec m steps) as (M0 & M1 & M2).
  destruct (Simulator_cdf_spec s steps) as (S0 & S1 & S2).
  split.
  - intros H. assert (steps = 0%nat) as E by lia.
    split; eexists; [apply M0 | apply S0]; assumption.
  - intros H. repeat split; auto.
Qed.

Lemma C6_cdf_query_witness :
  (exists what, Model.cdf (Model.mkResults 0 [0; 1 # 2; 1]%Q) 0
                = Throw (invalid_argument what)) /\
  Simulator.cdf (Simulator.mkResults 0 [0; 1 # 2; 1]%Q) 3 = Ret 1%Q /\
  Model.cdf (Model.mkResults 0 [0; 1 # 2; 1]%Q) 1 = Ret (1 # 2)%Q.
Proof.
  pose (m := Model.mkResults 0 [0; 1 # 2; 1]%Q).
  pose (s := Simulator.mkResults 0 [0; 1 # 2; 1]%Q).
  split; [|split].
  - destruct (C6_cdf_query m s 0) as [H _]. apply H. lia.
  - destruct (C6_cdf_query m s 3) as [_ H].
    destruct H as (_ & H & _); [lia|]. apply H. simpl. lia.
  - destruct (C6_cdf_query m s 1) as [_ H].
    destruct H as (_ & _ & H & _); [lia|]. apply H. reflexivity.
Defined.

(** ** The guard of [Simulator::run] *)

Lemma quiet_Ret {A} (a : A) : quiet (Ret a).
Proof. intros what H. discriminate. Qed.

Lemma quiet_OutOfFuel {A} : quiet (@OutOfFuel A).
Proof. intros what H. discriminate. Qed.

Lemma quiet_bind {A B} (m : outcome A) (k : A -> outcome B) :
  quiet m -> (forall a, quiet (k a)) -> quiet (bind m k).
Proof.
  intros Hm Hk what. destruct m as [a|e|]; cbn.
  - apply Hk.
  - intros H. apply (Hm what). congruence.
  - discriminate.
Qed.

Lemma quiet_vector_get {A} (v : list A) (k : Z) : quiet (vector_get v k).
Proof.
  intros what. unfold vector_get.
  destruct (k <? 0); [discriminate|]. destruct (v !! Z.to_nat k); discriminate.
Qed.

Lemma quiet_map_at {A} (m : gmap Z A) (k : Z) : quiet (map_at m k).
Proof. intros what. unfold map_at. destruct (m !! k); discriminate. Qed.

Lemma quiet_idiv (a b : Z) : quiet (idiv a b).
Proof. intros what. unfold idiv. destruct (b =? 0); discriminate. Qed.

Lemma quiet_imod (a b : Z) : quiet (imod a b).
Proof. intros what. unfold imod. destruct (b =? 0); discriminate. Qed.

Lemma quiet_fdiv (a b : Q) : quiet (fdiv a b).
Proof. intros what. unfold fdiv. destruct (Qeq_bool b 0); discriminate. Qed.

Lemma quiet_for_loop {A} (n : nat) (body : Z -> A -> outcome A) :
  (forall i a, quiet (body i a)) -> forall i a, quiet (for_loop n i body a).
Proof.
  intros Hb. induction n as [|n IH]; intros i a; cbn.
  - apply quiet_Ret.
  - apply quiet_bind; [apply Hb | intros a'; apply IH].
Qed.

Create HintDb quiet.
#[local] Hint Resolve quiet_Ret quiet_OutOfFuel quiet_vector_get quiet_map_at
  quiet_idiv quiet_imod quiet_fdiv : quiet.

Ltac quiet_step :=
  repeat first
    [ apply quiet_bind; [solve [auto with quiet] | intros ?]
    | match goal with
      | |- quiet (match ?x with _ => _ end) => destruct x
      end
    | solve [auto with quiet] ].

Section RunIsQuiet.
Variable p : SyncParameters.t.
Variable g : Simulator.rng.

Lemma quiet_randomChannel d : quiet (Simulator.randomChannel p g d).
Proof. unfold Simulator.randomChannel. quiet_step. Qed.

Lemma quiet_select_loop fuel : forall txTime l d,
  quiet (Simulator.select_loop p g fuel txTime l d).
Proof.
  induction fuel as [|fuel IH]; intros txTime l d; cbn; [apply quiet_OutOfFuel|].
  apply quiet_bind; [apply quiet_randomChannel|]. intros [ch d'].
  match goal with |- quiet (if ?c then _ else _) => destruct c end;
    [apply IH | apply quiet_Ret].
Qed.

#[local] Arguments Simulator.select_loop : simpl never.

Lemma quiet_cell_loop fuel : forall asn l d,
  quiet (Simulator.cell_loop p g fuel asn l d).
Proof.
  induction fuel as [|fuel IH]; intros asn l d; cbn; [apply quiet_OutOfFuel|].
  apply quiet_bind; [apply quiet_imod|]. intros idx.
  apply quiet_bind; [apply quiet_vector_get|]. intros ch.
  apply quiet_bind.
  { match goal with |- quiet (if ?c then _ else _) => destruct c end;
      [apply quiet_select_loop | apply quiet_Ret]. }
  intros [[sc l'] d'].
  repeat match goal with
         | |- quiet (if ?c then _ else _) => destruct c
         | |- quiet (bind _ _) => apply quiet_bind; [apply quiet_map_at | intros ?]
         | |- quiet (Simulator.cell_loop _ _ _ _ _ _) => apply IH
         | |- quiet (Ret _) => apply quiet_Ret
         end.
Qed.

Lemma quiet_trial fuel numRuns st : quiet (Simulator.trial p g fuel numRuns st).
Proof.
  destruct st as [[avg counter] d].
  unfold Simulator.trial, Simulator.randomScanStartTime. cbv beta iota zeta.
  apply quiet_bind; [apply quiet_idiv|]. intros asn0.
  apply quiet_bind; [apply quiet_imod|]. intros r.
  apply quiet_bind; [apply quiet_randomChannel|]. intros [ch d'].
  apply quiet_bind; [apply quiet_cell_loop|]. intros [tx d''].
  quiet_step.
Qed.

Lemma quiet_trials fuel numRuns : quiet (Simulator.trials p g fuel numRuns).
Proof.
  unfold Simulator.trials, for_range. apply quiet_for_loop.
  intros i a. apply quiet_trial.
Qed.

Lemma quiet_create_cdf numRuns counter :
  quiet (Simulator.create_cdf numRuns counter).
Proof.
  unfold Simulator.create_cdf. apply quiet_bind.
  { unfold Simulator.last_key. destruct (map_to_list counter) as [|[k v] rest];
      [intros what; discriminate | apply quiet_Ret]. }
  intros top. apply quiet_bind.
  { unfold Simulator.assign. destruct (top + 1 <? 0);
      [intros what; discriminate | apply quiet_Ret]. }
  intros cdf0. apply quiet_bind.
  { unfold Simulator.cdf_loop, for_range. apply quiet_for_loop.
    intros i [sc cdf]. quiet_step. }
  intros [sc cdf]. apply quiet_Ret.
Qed.

End RunIsQuiet.

(** C7. [run] throws [invalid_argument] exactly when [numRuns <= 0]; the
    test comes first, and the [Results] object is left as it was. *)
Theorem C7_run_guard (p : SyncParameters.t) (g : Simulator.rng) (fuel : nat)
    (numRuns : Z) (results : Simulator.Results) :
  ((exists what,
      snd (Simulator.run p g fuel numRuns results) = Throw (invalid_argument what))
   <-> numRuns <= 0) /\
  (numRuns <= 0 ->
   Simulator.run p g fuel numRuns results =
     (results,
      Throw (invalid_argument "The parameter numRuns must be greater than 0"))).
Proof.
  unfold Simulator.run. destruct (Z.leb_spec numRuns 0) as [H|H].
  - split; [|reflexivity]. cbn [snd].
    split; [intros _; lia | intros _; eexists; reflexivity].
  - split; [|lia]. split; [|lia]. intros [what Hw]. exfalso.
    pose proof (quiet_trials p g fuel numRuns) as Ht.
    destruct (Simulator.trials p g fuel numRuns) as [[[avg counter] d]|e|];
      cbn in Hw.
    + pose proof (quiet_create_cdf numRuns counter) as Hc.
      destruct (Simulator.create_cdf numRuns counter) as [cdf|e|]; cbn in Hw;
        try discriminate.
      apply (Hc what). congruence.
    + apply (Ht what). congruence.
    + discriminate.
Qed.

Lemma C7_run_guard_witness :
  (0 <= 0)%Z /\
  Simulator.run Samples.case1 Samples.generators 10 0
    (Simulator.mkResults 1 [0%Q; 1%Q])
  = (Simulator.mkResults 1 [0%Q; 1%Q],
     Throw (invalid_argument "The parameter numRuns must be greater than 0")).
Proof.
  split; [lia|].
  apply (proj2 (C7_run_guard Samples.case1 Samples.generators 10 0
                  (Simulator.mkResults 1 [0%Q; 1%Q]))).
  lia.
Defined.

(** ** The model does not read the switch delay *)

(** C9. Two parameter sets that differ only in [tSwitch] give the same
    results: the same average time and the same [cdf_], hence the same
    [cdf] at every step. *)
Theorem C9_calculate_ignores_tSwitch (p1 p2 : SyncParameters.t) (fuel : nat)
    (results : Model.Results) :
  SyncParameters.valid p1 -> SyncParameters.valid p2 ->
  SyncParameters.getCHS p1 = SyncParameters.getCHS p2 ->
  SyncParameters.getS p1 = SyncParameters.getS p2 ->
  SyncParameters.getPeb p1 = SyncParameters.getPeb p2 ->
  SyncParameters.getPsr p1 = SyncParameters.getPsr p2 ->
  SyncParameters.getTScan p1 = SyncParameters.getTScan p2 ->
  SyncParameters.getTeb p1 = SyncParameters.getTeb p2 ->
  Model.calculate p1 fuel results = Model.calculate p2 fuel results /\
  forall r1 r2,
    Model.calculate p1 fuel results = Ret r1 ->
    Model.calculate p2 fuel results = Ret r2 ->
    Model.avgSyncTime r1 = Model.avgSyncTime r2 /\
    forall steps, Model.cdf r1 steps = Model.cdf r2 steps.
Proof.
  intros _ _ Hchs Hs Hpeb Hpsr Htscan Hteb.
  assert (E : Model.calculate p1 fuel results = Model.calculate p2 fuel results).
  { destruct p1, p2. cbn in Hchs, Hs, Hpeb, Hpsr, Htscan, Hteb. subst.
    reflexivity. }
  split; [exact E|]. intros r1 r2 H1 H2. rewrite E in H1.
  assert (r1 = r2) by congruence. subst. split; [reflexivity|]. reflexivity.
Qed.

(** ** Loops and finite sums *)

Lemma for_loop_inv {A} (P : Z -> A -> Prop) (n : nat) (lo : Z)
    (body : Z -> A -> outcome A) (acc : A) :
  P lo acc ->
  (forall i a, lo <= i < lo + Z.of_nat n -> P i a ->
     exists a', body i a = Ret a' /\ P (i + 1) a') ->
  exists a', for_loop n lo body acc = Ret a' /\ P (lo + Z.of_nat n) a'.
Proof.
  revert lo acc. induction n as [|n IH]; intros lo acc H0 Hstep.
  - exists acc. split; [reflexivity|]. replace (lo + Z.of_nat 0) with lo by lia.
    assumption.
  - destruct (Hstep lo acc) as (a1 & E1 & H1); [lia | assumption |].
    destruct (IH (lo + 1) a1) as (a' & E' & H'); [assumption | |].
    + intros i a Hi. apply Hstep. lia.
    + exists a'. split.
      * cbn. rewrite E1. cbn. assumption.
      * replace (lo + Z.of_nat (S n)) with (lo + 1 + Z.of_nat n) by lia.
        assumption.
Qed.

Lemma for_range_inv {A} (P : Z -> A -> Prop) (lo hi : Z)
    (body : Z -> A -> outcome A) (acc : A) :
  lo <= hi + 1 ->
  P lo acc ->
  (forall i a, lo <= i <= hi -> P i a ->
     exists a', body i a = Ret a' /\ P (i + 1) a') ->
  exists a', for_range lo hi body acc = Ret a' /\ P (hi + 1) a'.
Proof.
  intros Hle H0 Hstep. unfold for_range.
  destruct (for_loop_inv P (Z.to_nat (hi - lo + 1)) lo body acc) as (a' & E & H);
    [assumption | | ].
  - intros i a Hi. apply Hstep. lia.
  - exists a'. split; [assumption|].
    replace (hi + 1) with (lo + Z.of_nat (Z.to_nat (hi - lo + 1))) by lia.
    assumption.
Qed.

Lemma for_range_empty {A} (lo hi : Z) (body : Z -> A -> outcome A) (acc : A) :
  hi < lo -> for_range lo hi body acc = Ret acc.
Proof.
  intros H. unfold for_range.
  replace (Z.to_nat (hi - lo + 1)) with 0%nat by lia. reflexivity.
Qed.

Section Sums.
Import Spec.
Local Open Scope Q_scope.

Lemma sumQ_ext (f g : Z -> Q) (lo : Z) (n : nat) :
  (forall i, (lo <= i < lo + Z.of_nat n)%Z -> f i == g i) ->
  sumQ f lo n == sumQ g lo n.
Proof.
  revert lo. induction n as [|n IH]; intros lo H; cbn; [reflexivity|].
  rewrite (H lo) by lia. rewrite (IH (lo + 1)%Z); [reflexivity|].
  intros i Hi. apply H. lia.
Qed.

Lemma sumQ_snoc (f : Z -> Q) (lo : Z) (n : nat) :
  sumQ f lo (S n) == sumQ f lo n + f (lo + Z.of_nat n)%Z.
Proof.
  revert lo. induction n as [|n IH]; intros lo.
  - cbn. rewrite Z.add_0_r. ring.
  - change (sumQ f lo (S (S n))) with (f lo + sumQ f (lo + 1)%Z (S n)).
    rewrite IH. cbn [sumQ].
    replace (lo + 1 + Z.of_nat n)%Z with (lo + Z.of_nat (S n))%Z by lia. ring.
Qed.

Lemma sumQ_nonneg (f : Z -> Q) (lo : Z) (n : nat) :
  (forall i, (lo <= i < lo + Z.of_nat n)%Z -> 0 <= f i) ->
  0 <= sumQ f lo n.
Proof.
  revert lo. induction n as [|n IH]; intros lo H; cbn; [apply Qle_refl|].
  assert (0 <= f lo) by (apply H; lia).
  assert (0 <= sumQ f (lo + 1)%Z n) by (apply IH; intros i Hi; apply H; lia).
  lra.
Qed.

Lemma sumQ_le (f g : Z -> Q) (lo : Z) (n : nat) :
  (forall i, (lo <= i < lo + Z.of_nat n)%Z -> f i <= g i) ->
  sumQ f lo n <= sumQ g lo n.
Proof.
  revert lo. induction n as [|n IH]; intros lo H; cbn; [apply Qle_refl|].
  assert (f lo <= g lo) by (apply H; lia).
  assert (sumQ f (lo + 1)%Z n <= sumQ g (lo + 1)%Z n)
    by (apply IH; intros i Hi; apply H; lia).
  lra.
Qed.

Lemma sumQ_scale (c : Q) (f : Z -> Q) (lo : Z) (n : nat) :
  sumQ (fun i => c * f i) lo n == c * sumQ f lo n.
Proof.
  revert lo. induction n as [|n IH]; intros lo; cbn; [ring|].
  rewrite IH. ring.
Qed.

Lemma sumQ_plus (f g : Z -> Q) (lo : Z) (n : nat) :
  sumQ (fun i => f i + g i) lo n == sumQ f lo n + sumQ g lo n.
Proof.
  revert lo. induction n as [|n IH]; intros lo; cbn; [ring|].
  rewrite IH. ring.
Qed.

Lemma sumQ_const (c : Q) (lo : Z) (n : nat) :
  sumQ (fun _ => c) lo n == inject_Z (Z.of_nat n) * c.
Proof.
  revert lo. induction n as [|n IH]; intros lo.
  - cbn. ring.
  - cbn [sumQ]. rewrite IH, Nat2Z.inj_succ. unfold Z.succ.
    rewrite inject_Z_plus. ring.
Qed.

Lemma prodQ_ext (f g : Z -> Q) (lo : Z) (n : nat) :
  (forall i, (lo <= i < lo + Z.of_nat n)%Z -> f i == g i) ->
  prodQ f lo n == prodQ g lo n.
Proof.
  revert lo. induction n as [|n IH]; intros lo H; cbn; [reflexivity|].
  rewrite (H lo) by lia. rewrite (IH (lo + 1)%Z); [reflexivity|].
  intros i Hi. apply H. lia.
Qed.

Lemma prodQ_snoc (f : Z -> Q) (lo : Z) (n : nat) :
  prodQ f lo (S n) == prodQ f lo n * f (lo + Z.of_nat n)%Z.
Proof.
  revert lo. induction n as [|n IH]; intros lo.
  - cbn. rewrite Z.add_0_r. ring.
  - change (prodQ f lo (S (S n))) with (f lo * prodQ f (lo + 1)%Z (S n)).
    rewrite IH. cbn [prodQ].
    replace (lo + 1 + Z.of_nat n)%Z with (lo + Z.of_nat (S n))%Z by lia. ring.
Qed.

Lemma prodQ_bounds (f : Z -> Q) (lo : Z) (n : nat) :
  (forall i, (lo <= i < lo + Z.of_nat n)%Z -> 0 <= f i <= 1) ->
  0 <= prodQ f lo n <= 1.
Proof.
  revert lo. induction n as [|n IH]; intros lo H; cbn; [lra|].
  assert (0 <= f lo <= 1) by (apply H; lia).
  assert (0 <= prodQ f (lo + 1)%Z n <= 1)
    by (apply IH; intros i Hi; apply H; lia).
  nra.
Qed.

Lemma sum_range_snoc (f : Z -> Q) (lo hi : Z) :
  (lo <= hi)%Z ->
  sum_range f lo hi == sum_range f lo (hi - 1) + f hi.
Proof.
  intros H. unfold sum_range.
  replace (Z.to_nat (hi - lo + 1)) with (S (Z.to_nat (hi - 1 - lo + 1))) by lia.
  rewrite sumQ_snoc.
  replace (lo + Z.of_nat (Z.to_nat (hi - 1 - lo + 1)))%Z with hi by lia.
  reflexivity.
Qed.

Lemma sum_range_empty (f : Z -> Q) (lo hi : Z) :
  (hi < lo)%Z -> sum_range f lo hi = 0.
Proof.
  intros H. unfold sum_range.
  replace (Z.to_nat (hi - lo + 1)) with 0%nat by lia. reflexivity.
Qed.

Lemma prod_range_snoc (f : Z -> Q) (lo hi : Z) :
  (lo <= hi)%Z ->
  prod_range f lo hi == prod_range f lo (hi - 1) * f hi.
Proof.
  intros H. unfold prod_range.
  replace (Z.to_nat (hi - lo + 1)) with (S (Z.to_nat (hi - 1 - lo + 1))) by lia.
  rewrite prodQ_snoc.
  replace (lo + Z.of_nat (Z.to_nat (hi - 1 - lo + 1)))%Z with hi by lia.
  reflexivity.
Qed.

Lemma prod_range_empty (f : Z -> Q) (lo hi : Z) :
  (hi < lo)%Z -> prod_range f lo hi = 1.
Proof.
  intros H. unfold prod_range.
  replace (Z.to_nat (hi - lo + 1)) with 0%nat by lia. reflexivity.
Qed.

Lemma Spec_sum_range_empty_eq (f : Z -> Q) (lo hi : Z) :
  (hi < lo)%Z -> sum_range f lo hi == 0.
Proof. intros H. rewrite sum_range_empty by assumption. reflexivity. Qed.

Lemma Spec_prod_range_empty_eq (f : Z -> Q) (lo hi : Z) :
  (hi < lo)%Z -> prod_range f lo hi == 1.
Proof. intros H. rewrite prod_range_empty by assumption. reflexivity. Qed.

Lemma sum_range_ext (f g : Z -> Q) (lo hi : Z) :
  (forall i, (lo <= i <= hi)%Z -> f i == g i) ->
  sum_range f lo hi == sum_range g lo hi.
Proof. intros H. apply sumQ_ext. intros i Hi. apply H. lia. Qed.

Lemma prod_range_ext (f g : Z -> Q) (lo hi : Z) :
  (forall i, (lo <= i <= hi)%Z -> f i == g i) ->
  prod_range f lo hi == prod_range g lo hi.
Proof. intros H. apply prodQ_ext. intros i Hi. apply H. lia. Qed.

End Sums.

(** ** The model on a valid parameter object *)

Lemma valid_conditions (p : SyncParameters.t) :
  SyncParameters.valid p ->
  forall i, SyncParameters.cond i (SyncParameters.chs_ p) (SyncParameters.s_ p)
              (SyncParameters.pEB_ p) (SyncParameters.pSR_ p)
              (SyncParameters.tScan_ p) (SyncParameters.tSwitch_ p)
              (SyncParameters.tEB_ p).
Proof.
  unfold SyncParameters.valid. intros H.
  destruct (make_spec (SyncParameters.chs_ p) (SyncParameters.s_ p)
              (SyncParameters.pEB_ p) (SyncParameters.pSR_ p)
              (SyncParameters.tScan_ p) (SyncParameters.tSwitch_ p)
              (SyncParameters.tEB_ p)) as [[_ Hall] | (msg & Hr & _)].
  - assumption.
  - rewrite H in Hr. discriminate.
Qed.

Lemma fdiv_Ret (a b : Q) : ~ (b == 0)%Q -> fdiv a b = Ret (a / b)%Q.
Proof.
  intros H. unfold fdiv. destruct (Qeq_bool b 0) eqn:E; [|reflexivity].
  apply Qeq_bool_iff in E. contradiction.
Qed.

Lemma imod_Ret (a b : Z) : 0 <= a -> 0 < b -> imod a b = Ret (a mod b).
Proof.
  intros Ha Hb. unfold imod. destruct (Z.eqb_spec b 0) as [E|E]; [lia|].
  rewrite Z.rem_mod_nonneg by lia. reflexivity.
Qed.

Lemma idiv_Ret (a b : Z) : 0 <= a -> 0 < b -> idiv a b = Ret (a / b).
Proof.
  intros Ha Hb. unfold idiv. destruct (Z.eqb_spec b 0) as [E|E]; [lia|].
  rewrite Z.quot_div_nonneg by lia. reflexivity.
Qed.

Lemma vector_get_nth (v : list Z) (k : Z) :
  0 <= k < Z.of_nat (length v) -> vector_get v k = Ret (nth (Z.to_nat k) v 0).
Proof.
  intros H. unfold vector_get. destruct (Z.ltb_spec k 0) as [E|E]; [lia|].
  destruct (v !! Z.to_nat k) as [a|] eqn:El.
  - apply nth_lookup_Some with (d := 0) in El. rewrite El. reflexivity.
  - apply lookup_ge_None in El. lia.
Qed.


Lemma inject_Z_nonzero (z : Z) : z <> 0 -> ~ (inject_Z z == 0)%Q.
Proof.
  intros H E. apply H. unfold Qeq in E. cbn in E. lia.
Qed.

Section ModelFacts.

Variable p : SyncParameters.t.
Hypothesis Hvalid : SyncParameters.valid p.

Local Abbreviation chs := (SyncParameters.getCHS p).
Local Abbreviation C := (Spec.C p).

Lemma valid_S : 0 < SyncParameters.getS p.
Proof. exact (valid_conditions p Hvalid 3%nat). Qed.


Lemma valid_pEB : (0 <= Spec.pEB p /\ Spec.pEB p <= 1)%Q.
Proof. exact (valid_conditions p Hvalid 5%nat). Qed.

Lemma valid_pSR_some (c : Z) :
  c ∈ chs -> exists v, SyncParameters.getPsr p !! c = Some v /\ (0 <= v /\ v <= 1)%Q.
Proof.
  intros Hc. destruct (valid_conditions p Hvalid 6%nat) as (Hall & Hp & _).
  destruct (Hall c Hc) as [v Hv]. exists v. split; [assumption|]. eauto.
Qed.

Lemma valid_pSR_bounds (c : Z) : (0 <= Spec.pSR p c /\ Spec.pSR p c <= 1)%Q.
Proof.
  destruct (valid_conditions p Hvalid 6%nat) as (_ & Hp & _).
  unfold Spec.pSR. destruct (SyncParameters.getPsr p !! c) as [v|] eqn:E; cbn.
  - eapply Hp. eassumption.
  - lra.
Qed.


Lemma valid_tScan : 0 < SyncParameters.getTScan p.
Proof. exact (valid_conditions p Hvalid 7%nat). Qed.

Lemma valid_tEB : 0 <= SyncParameters.getTeb p.
Proof. exact (valid_conditions p Hvalid 9%nat). Qed.

Lemma Tsf_pos : 0 < Spec.Tsf p.
Proof. pose proof valid_S. unfold Spec.Tsf, SyncParameters.DEFAULT_SLOT_DURATION. lia. Qed.

Lemma length_Wvec : Z.of_nat (length (Wvec p)) = C.
Proof. unfold Wvec. rewrite length_map, length_seq. reflexivity. Qed.

Lemma W_ok : Model.W p = Ret (Wvec p).
Proof.
  unfold Model.W.
  destruct (for_range_inv
    (fun i w => w = map (fun j => Spec.W p (Z.of_nat j + 1)) (seq 0 (Z.to_nat (i - 1))))
    1 (Model.C p)
    (fun i w =>
       let* idx := imod ((i - 1) * SyncParameters.getS p) (Model.C p) in
       let* ch := vector_get (Model.chs p) idx in
       Ret (w ++ [ch]))
    []) as (w & E & Hw).
  - unfold Model.C. lia.
  - reflexivity.
  - intros i w Hi ->. pose proof valid_S as HS.
    rewrite imod_Ret by (unfold Model.C in *; nia). cbn [bind].
    assert (Hm : 0 <= ((i - 1) * SyncParameters.getS p) mod Model.C p
                 < Z.of_nat (length (Model.chs p))).
    { apply Z.mod_pos_bound. unfold Model.C in *. lia. }
    rewrite vector_get_nth by assumption. cbn [bind].
    eexists. split; [reflexivity|].
    replace (Z.to_nat (i + 1 - 1)) with (S (Z.to_nat (i - 1))) by lia.
    rewrite seq_S, map_app. cbn [map]. f_equal. f_equal.
    unfold Spec.W. replace (0 + Z.to_nat (i - 1))%nat with (Z.to_nat (i - 1)) by lia.
    replace (Z.of_nat (Z.to_nat (i - 1)) + 1 - 1) with (i - 1) by lia.
    reflexivity.
  - rewrite E. f_equal. rewrite Hw. unfold Wvec.
    replace (Z.to_nat (Model.C p + 1 - 1)) with (length chs)
      by (unfold Model.C, Model.chs; lia).
    reflexivity.
Qed.

Lemma Wvec_nth (j : Z) :
  0 <= j < C -> nth (Z.to_nat j) (Wvec p) 0 = Spec.W p (j + 1).
Proof.
  intros Hj. unfold Wvec. rewrite nth_lookup, list_lookup_fmap.
  rewrite lookup_seq_lt by (unfold Spec.C in Hj; lia).
  cbn. f_equal. lia.
Qed.

Lemma W_in_chs (i : Z) : 0 < C -> Spec.W p i ∈ chs.
Proof.
  intros HC. unfold Spec.W. apply list_elem_of_In, nth_In.
  assert (0 <= ((i - 1) * SyncParameters.getS p) mod Spec.C p < Spec.C p)
    by (apply Z.mod_pos_bound; assumption).
  set (m := ((i - 1) * SyncParameters.getS p) mod Spec.C p) in *.
  clearbody m. unfold Spec.C in *. lia.
Qed.

Lemma X_ok (k y : Z) :
  0 < C -> 0 <= y -> 1 <= k ->
  Model.X p (Wvec p) k y = Ret (Spec.channel p k y).
Proof.
  intros HC Hy Hk. unfold Model.X. change (Model.C p) with C.
  rewrite imod_Ret by lia. cbn [bind].
  assert (Hm : 0 <= (y + k - 1) mod C < C) by (apply Z.mod_pos_bound; assumption).
  rewrite vector_get_nth by (rewrite length_Wvec; assumption).
  rewrite Wvec_nth by assumption. reflexivity.
Qed.

Lemma Pstep_ok (k y : Z) :
  0 < C -> 0 <= y -> 1 <= k ->
  Model.Pstep p (Wvec p) k y = Ret (Spec.Pstep p k y).
Proof.
  intros HC Hy Hk. unfold Model.Pstep.
  rewrite fdiv_Ret by (apply inject_Z_nonzero; change (Model.C p) with C; lia).
  cbn [bind]. rewrite X_ok by assumption. cbn [bind].
  destruct (valid_pSR_some (Spec.channel p k y)) as (v & Hv & _).
  { apply W_in_chs. assumption. }
  unfold map_at. change (Model.Psr p) with (SyncParameters.getPsr p).
  rewrite Hv. cbn [bind]. unfold Spec.Pstep, Spec.pSR. rewrite Hv. reflexivity.
Qed.

Lemma inv_C_bounds : 0 < C -> (0 < 1 / inject_Z C /\ 1 / inject_Z C <= 1)%Q.
Proof.
  intros HC.
  assert (H1 : (1 <= inject_Z C)%Q) by (unfold Qle; cbn; lia).
  split.
  - apply Qlt_shift_div_l; lra.
  - apply Qle_shift_div_r; lra.
Qed.

Lemma Pstep_bounds (k y : Z) :
  0 < C -> (0 <= Spec.Pstep p k y /\ Spec.Pstep p k y <= 1 / inject_Z C)%Q.
Proof.
  intros HC. unfold Spec.Pstep.
  pose proof (inv_C_bounds HC) as [Hc0 Hc1].
  pose proof valid_pEB as [He0 He1].
  pose proof (valid_pSR_bounds (Spec.channel p k y)) as [Hs0 Hs1].
  set (c := (1 / inject_Z C)%Q) in *.
  set (e := Spec.pEB p) in *. set (s := Spec.pSR p (Spec.channel p k y)) in *.
  assert (0 <= e * s <= 1)%Q by nra.
  split; [|rewrite <- Qmult_assoc]; nra.
Qed.

End ModelFacts.

(** ** The truncated series and the recorded distribution *)

Lemma Qltb_compat (a a' b b' : Q) :
  (a == a')%Q -> (b == b')%Q -> Qltb a b = Qltb a' b'.
Proof.
  intros Ha Hb. destruct (Qltb a' b') eqn:E.
  - apply Qltb_true. apply Qltb_true in E. rewrite Ha, Hb. assumption.
  - apply Qltb_false. apply Qltb_false in E. rewrite Ha, Hb. assumption.
Qed.

Lemma threshold_value : (Model.threshold == 1 - (1 # 1000000000))%Q.
Proof. vm_compute. reflexivity. Qed.

Lemma pow_10_9 : (pow 10 (-9) == 1 # 1000000000)%Q.
Proof. vm_compute. reflexivity. Qed.

(** The [do ... while] loop records the cumulative probabilities. *)
Lemma cdf_loop_records (Psync : Z -> outcome Q) (P : Z -> Q) (K : Z) :
  (forall k, 1 <= k <= Z.max 1 K -> computes (Psync k) (P k)) ->
  exists cdf,
    Model.cdf_loop Psync K [0%Q] = Ret cdf /\
    Forall2 Qeq cdf (Spec.recorded_cdf P (Z.max 1 K)).
Proof.
  intros Psync_computes. unfold Model.cdf_loop.
  destruct (for_loop_inv
    (fun k cdf => Forall2 Qeq cdf (Spec.recorded_cdf P (k - 1)))
    (Z.to_nat (Z.max 1 K)) 1
    (fun k cdf =>
       let* prev := vector_get cdf (k - 1) in
       let* p := Psync k in
       Ret (cdf ++ [(prev + p)%Q]))
    [0%Q]) as (cdf & E & H).
  - cbn. constructor; [|constructor]. reflexivity.
  - intros k cdf Hk Hinv.
    assert (Hlen : length cdf = S (Z.to_nat (k - 1))).
    { apply Forall2_length in Hinv. rewrite Hinv. unfold Spec.recorded_cdf.
      rewrite length_map, length_seq. reflexivity. }
    destruct (cdf !! Z.to_nat (k - 1)) as [prev|] eqn:Eprev;
      [|apply lookup_ge_None in Eprev; lia].
    assert (Hprev : (prev == Spec.cumulative P (k - 1))%Q).
    { eapply Forall2_lookup_l in Hinv as (x & Hx & Hq); [|eassumption].
      unfold Spec.recorded_cdf in Hx. rewrite list_lookup_fmap in Hx.
      rewrite lookup_seq_lt in Hx by lia. cbn in Hx. injection Hx as <-.
      rewrite Hq. replace (Z.of_nat (Z.to_nat (k - 1))) with (k - 1) by lia.
      reflexivity. }
    replace (vector_get cdf (k - 1)) with (Ret (A := Q) prev).
    2: { symmetry. replace (k - 1) with (Z.of_nat (Z.to_nat (k - 1))) by lia.
         apply vector_get_lookup. assumption. }
    cbn [bind]. destruct (Psync_computes k) as (v & Ev & Hv); [lia|].
    rewrite Ev. cbn [bind]. eexists. split; [reflexivity|].
    unfold Spec.recorded_cdf in *.
    replace (S (Z.to_nat (k + 1 - 1))) with (S (S (Z.to_nat (k - 1)))) by lia.
    rewrite (seq_S (S (Z.to_nat (k - 1)))), map_app.
    apply Forall2_app; [assumption|]. cbn [map]. constructor; [|constructor].
    replace (Z.of_nat (0 + S (Z.to_nat (k - 1)))) with k by lia.
    unfold Spec.cumulative in *. rewrite (sum_range_snoc P 1 k) by lia.
    rewrite Hprev, Hv. reflexivity.
  - exists cdf. split; [assumption|].
    replace (1 + Z.of_nat (Z.to_nat (Z.max 1 K)) - 1) with (Z.max 1 K) in H by lia.
    assumption.
Qed.

Section Series.

Variable p : SyncParameters.t.
Variable Psync : Z -> outcome Q.
Variable P : Z -> Q.
Hypothesis Psync_computes : forall k, 1 <= k -> computes (Psync k) (P k).

Local Open Scope Q_scope.

Lemma sum_loop_runs (d : nat) : forall (fuel : nat) (sum : Q) (k : Z) (cum : Q),
  (1 <= k)%Z ->
  cum == Spec.cumulative P (k - 1) ->
  (d <= fuel)%nat ->
  1 - (1 # 1000000000) <= Spec.cumulative P (k - 1 + Z.of_nat d) ->
  (forall j, (k - 1 <= j < k - 1 + Z.of_nat d)%Z ->
     Spec.cumulative P j < 1 - (1 # 1000000000)) ->
  exists sum',
    Model.sum_loop p Psync fuel sum k cum = Ret (sum', (k - 1 + Z.of_nat d)%Z) /\
    sum' == sum + Spec.sumQ (time_term p P) k d.
Proof.
  induction d as [|d IH]; intros fuel sum k cum Hk Hcum Hfuel Hreach Hbelow.
  - replace (k - 1 + Z.of_nat 0)%Z with (k - 1)%Z in * by lia.
    exists sum. split; [|cbn; ring].
    assert (E : Qltb cum Model.threshold = false).
    { apply Qltb_false. rewrite threshold_value, Hcum. assumption. }
    destruct fuel; cbn; rewrite E; reflexivity.
  - destruct fuel as [|fuel]; [lia|].
    assert (E : Qltb cum Model.threshold = true).
    { apply Qltb_true. rewrite threshold_value, Hcum. apply Hbelow. lia. }
    cbn [Model.sum_loop]. rewrite E.
    destruct (Psync_computes k Hk) as (v & Ev & Hv). rewrite Ev. cbn [bind].
    destruct (IH fuel (sum + seconds (v * Model.step_time p k)) (k + 1)%Z (cum + v))
      as (sum' & Es & Hs).
    + lia.
    + replace (k + 1 - 1)%Z with k by lia. unfold Spec.cumulative in *.
      rewrite (sum_range_snoc P 1 k) by lia. rewrite Hcum, Hv. reflexivity.
    + lia.
    + replace (k + 1 - 1 + Z.of_nat d)%Z with (k - 1 + Z.of_nat (S d))%Z by lia.
      assumption.
    + intros j Hj. apply Hbelow. lia.
    + exists sum'. split.
      * replace (k - 1 + Z.of_nat (S d))%Z with (k + 1 - 1 + Z.of_nat d)%Z by lia.
        assumption.
      * rewrite Hs. cbn [Spec.sumQ]. unfold time_term at 2, seconds.
        rewrite Hv. ring.
Qed.

(** The loop never stops below the threshold. *)
Lemma sum_loop_below (fuel : nat) : forall (sum : Q) (k : Z) (cum : Q),
  (1 <= k)%Z ->
  cum == Spec.cumulative P (k - 1) ->
  (forall j, (k - 1 <= j)%Z -> Spec.cumulative P j < 1 - (1 # 1000000000)) ->
  Model.sum_loop p Psync fuel sum k cum = OutOfFuel.
Proof.
  induction fuel as [|fuel IH]; intros sum k cum Hk Hcum Hbelow.
  - cbn. assert (E : Qltb cum Model.threshold = true).
    { apply Qltb_true. rewrite threshold_value, Hcum. apply Hbelow. lia. }
    rewrite E. reflexivity.
  - cbn [Model.sum_loop].
    assert (E : Qltb cum Model.threshold = true).
    { apply Qltb_true. rewrite threshold_value, Hcum. apply Hbelow. lia. }
    rewrite E. destruct (Psync_computes k Hk) as (v & Ev & Hv).
    rewrite Ev. cbn [bind]. apply IH.
    + lia.
    + replace (k + 1 - 1)%Z with k by lia. unfold Spec.cumulative in *.
      rewrite (sum_range_snoc P 1 k) by lia. rewrite Hcum, Hv. reflexivity.
    + intros j Hj. apply Hbelow. lia.
Qed.

Lemma sumOfExpectedValue_ok (K : Z) (fuel : nat) :
  Spec.truncation P K -> (Z.to_nat K <= fuel)%nat ->
  exists sum,
    Model.sumOfExpectedValueInCases1and2 p Psync fuel = Ret (sum, K) /\
    sum == Spec.sumQ (time_term p P) 1 (Z.to_nat K).
Proof.
  intros (HK & Hreach & Hbelow) Hfuel.
  unfold Model.sumOfExpectedValueInCases1and2.
  destruct (sum_loop_runs (Z.to_nat K) fuel 0 1%Z 0) as (sum & E & Hs).
  - lia.
  - reflexivity.
  - assumption.
  - replace (1 - 1 + Z.of_nat (Z.to_nat K))%Z with K by lia. assumption.
  - intros j Hj. destruct (Z.eq_dec j 0%Z) as [->|Hn].
    + vm_compute. reflexivity.
    + apply Hbelow. lia.
  - exists sum. split.
    + replace (1 - 1 + Z.of_nat (Z.to_nat K))%Z with K in E by lia. assumption.
    + rewrite Hs. ring.
Qed.

Lemma cdf_loop_ok (K : Z) :
  (1 <= K)%Z ->
  exists cdf,
    Model.cdf_loop Psync K [0] = Ret cdf /\
    Forall2 Qeq cdf (Spec.recorded_cdf P K).
Proof.
  intros HK. destruct (cdf_loop_records Psync P K) as (cdf & E & H).
  - intros k Hk. apply Psync_computes. lia.
  - exists cdf. split; [assumption|].
    replace (Z.max 1 K) with K in H by lia. assumption.
Qed.

End Series.

(** ** Case 1 *)

Section Case1.

Variable p : SyncParameters.t.
Hypothesis Hvalid : SyncParameters.valid p.
Local Abbreviation C := (Spec.C p).
Local Open Scope Q_scope.

Lemma C_nonneg : (0 <= C)%Z.
Proof. unfold Spec.C. lia. Qed.

Lemma Psync_of_ok (Psync_cond : Z -> Z -> outcome Q) (f : Z -> Q) (k : Z) :
  (forall y, (0 <= y < C)%Z -> computes (Psync_cond k y) (f y)) ->
  computes (Model.Psync_of p Psync_cond k)
    (Spec.sum_range (fun y => 1 / inject_Z C * f y) 0 (C - 1)).
Proof.
  intros Hcond. unfold Model.Psync_of. change (Model.C p) with C.
  pose proof C_nonneg as HC.
  destruct (for_range_inv
    (fun y acc => acc == Spec.sum_range (fun y => 1 / inject_Z C * f y) 0 (y - 1))
    0 (C - 1)
    (fun y sum =>
       let* c1 := fdiv 1 (inject_Z C) in
       let* pc := Psync_cond k y in
       Ret (sum + c1 * pc))
    0) as (v & E & Hv).
  - lia.
  - rewrite Spec_sum_range_empty_eq by lia. reflexivity.
  - intros y acc Hy Hacc.
    rewrite fdiv_Ret by (apply inject_Z_nonzero; lia). cbn [bind].
    destruct (Hcond y) as (pc & Epc & Hpc); [lia|]. rewrite Epc. cbn [bind].
    eexists. split; [reflexivity|].
    replace (y + 1 - 1)%Z with y by lia.
    rewrite (sum_range_snoc _ 0 y) by lia. rewrite Hacc, Hpc. reflexivity.
  - exists v. split; [assumption|].
    replace (C - 1 + 1 - 1)%Z with (C - 1)%Z in Hv by lia. assumption.
Qed.

Lemma Psync_cond1_ok (k y : Z) :
  (0 <= y < C)%Z -> (1 <= k)%Z ->
  computes (Model.Psync_cond1 p (Wvec p) k y)
    (Spec.prod_range (fun i => 1 - Spec.Pstep p i y) 1 (k - 1)
     * Spec.Pstep p k y).
Proof.
  intros Hy Hk. unfold Model.Psync_cond1.
  destruct (for_range_inv
    (fun i acc => acc == Spec.prod_range (fun i => 1 - Spec.Pstep p i y) 1 (i - 1))
    1 (k - 1)
    (fun i prod =>
       let* ps := Model.Pstep p (Wvec p) i y in Ret (prod * (1 - ps)))
    1) as (v & E & Hv).
  - lia.
  - rewrite Spec_prod_range_empty_eq by lia. reflexivity.
  - intros i acc Hi Hacc. rewrite (Pstep_ok p Hvalid) by lia. cbn [bind].
    eexists. split; [reflexivity|].
    replace (i + 1 - 1)%Z with i by lia.
    rewrite (prod_range_snoc _ 1 i) by lia. rewrite Hacc. reflexivity.
  - rewrite E. cbn [bind]. rewrite (Pstep_ok p Hvalid) by lia. cbn [bind].
    eexists. split; [reflexivity|].
    replace (k - 1 + 1 - 1)%Z with (k - 1)%Z in Hv by lia. rewrite Hv.
    reflexivity.
Qed.

Lemma Psync1_ok (k : Z) :
  (1 <= k)%Z -> computes (Model.Psync1 p (Wvec p) k) (Spec.Psync1 p k).
Proof.
  intros Hk. unfold Model.Psync1.
  destruct (Psync_of_ok (Model.Psync_cond1 p (Wvec p))
              (fun y => Spec.prod_range (fun i => 1 - Spec.Pstep p i y) 1 (k - 1)
                        * Spec.Pstep p k y) k) as (v & E & Hv).
  - intros y Hy. apply Psync_cond1_ok; assumption.
  - exists v. split; [assumption|]. rewrite Hv. unfold Spec.Psync1.
    apply sum_range_ext. intros y Hy. ring.
Qed.

End Case1.

Lemma time_terms_expected (p : SyncParameters.t) (P : Z -> Q) (K : Z) :
  (Spec.sumQ (time_term p P) 1 (Z.to_nat K)
   == Spec.expected_time p P K)%Q.
Proof.
  unfold Spec.expected_time, Spec.sum_range.
  replace (Z.to_nat (K - 1 + 1)) with (Z.to_nat K) by lia.
  unfold Qdiv. rewrite Qmult_comm, <- sumQ_scale.
  apply sumQ_ext. intros k Hk. unfold time_term, seconds, Model.step_time.
  change (Model.Tsf p) with (Spec.Tsf p). change (Model.Teb p) with (Spec.tEB p).
  rewrite inject_Z_mult. field.
Qed.


Lemma case1_run (p : SyncParameters.t) (results : Model.Results)
    (K : Z) (fuel : nat) :
  SyncParameters.valid p ->
  SyncParameters.getTScan p < Spec.Tsf p ->
  Model.fresh results ->
  Spec.truncation (Spec.Psync1 p) K ->
  (Z.to_nat K <= fuel)%nat ->
  exists r,
    Model.calculate p fuel results = Ret r /\
    (Model.avgSyncTime r == Spec.expected_time p (Spec.Psync1 p) K)%Q /\
    Forall2 Qeq (Model.cdf_ r) (Spec.recorded_cdf (Spec.Psync1 p) K).
Proof.
  intros Hvalid Hcase Hfresh Htrunc Hfuel.
  pose proof (Psync1_ok p Hvalid) as Hps.
  destruct (sumOfExpectedValue_ok p _ _ Hps K fuel Htrunc Hfuel) as (sum & Es & Hs).
  destruct (cdf_loop_ok _ _ Hps K) as (cdf & Ec & Hc); [apply Htrunc|].
  exists (Model.mkResults sum cdf).
  assert (E : Model.calculate p fuel results = Ret (Model.mkResults sum cdf)).
  { unfold Model.calculate, Model.cases. rewrite (W_ok p Hvalid). cbn [bind].
    destruct (Z.ltb_spec (Model.Tscan p) (Model.Tsf p)) as [_|Hge];
      [|unfold Model.Tscan, Model.Tsf, Spec.Tsf in *; lia].
    rewrite Es. cbn [bind]. rewrite Hfresh. cbn [app].
    rewrite Ec. reflexivity. }
  split; [exact E|]. cbn [Model.avgSyncTime Model.avgSyncTime_ Model.cdf_].
  split.
  - rewrite Hs. apply time_terms_expected.
  - assumption.
Qed.


(** ** Case 2 *)

Section Case2.

Variable p : SyncParameters.t.
Hypothesis Hvalid : SyncParameters.valid p.
Variable n : Z.
Hypothesis Hn : 1 <= n.
Local Abbreviation C := (Spec.C p).
Local Open Scope Q_scope.

Lemma k_f_le (k : Z) : (1 <= k)%Z -> (1 <= Spec.k_f n k <= k)%Z.
Proof.
  intros Hk. unfold Spec.k_f.
  assert (0 <= (k - 1) / n)%Z by (apply Z.div_pos; lia).
  pose proof (Z.mul_div_le (k - 1) n ltac:(lia)). nia.
Qed.

Lemma Pstep_sp_ok (k y : Z) :
  (0 <= y < C)%Z -> (1 <= k)%Z ->
  computes (Model.Pstep_sp p (Wvec p) n k y) (Spec.Pstep_sp p n k y).
Proof.
  intros Hy Hk. unfold Model.Pstep_sp.
  rewrite idiv_Ret by lia. cbn [bind]. change (Model.C p) with C.
  pose proof (k_f_le k Hk) as Hkf. unfold Spec.k_f in Hkf.
  rewrite idiv_Ret by lia. cbn [bind].
  rewrite (X_ok p) by lia. cbn [bind].
  destruct (valid_pSR_some p Hvalid (Spec.channel p k y)) as (v & Hv & _).
  { apply W_in_chs. lia. }
  unfold map_at. change (Model.Psr p) with (SyncParameters.getPsr p).
  rewrite Hv. cbn [bind]. rewrite (Pstep_ok p Hvalid) by lia. cbn [bind].
  eexists. split; [reflexivity|].
  unfold Spec.Pstep_sp, Spec.pSR, Spec.Nchp, Spec.k_f, pow. rewrite Hv. cbn [default].
  change (Model.Peb p) with (Spec.pEB p). apply Qmult_comm.
Qed.

Lemma Qsp_ok (i y : Z) :
  (0 <= y < C)%Z -> (1 <= i)%Z ->
  computes (Model.Qsp p (Wvec p) n i y) (Spec.Qsp p n i y).
Proof.
  intros Hy Hi. unfold Model.Qsp.
  destruct (for_range_inv
    (fun k acc => acc == Spec.sum_range (fun k => Spec.Pstep_sp p n k y)
                           ((i - 1) * n + 1) (k - 1))
    ((i - 1) * n + 1) (i * n)
    (fun k sum =>
       let* ps := Model.Pstep_sp p (Wvec p) n k y in Ret (sum + ps))
    0) as (v & E & Hv).
  - nia.
  - rewrite Spec_sum_range_empty_eq by lia. reflexivity.
  - intros k acc Hk Hacc.
    destruct (Pstep_sp_ok k y) as (ps & Eps & Hps); [lia | nia |].
    rewrite Eps. cbn [bind]. eexists. split; [reflexivity|].
    replace (k + 1 - 1)%Z with k by lia.
    rewrite (sum_range_snoc _ _ k) by lia. rewrite Hacc, Hps. reflexivity.
  - rewrite E. cbn [bind]. eexists. split; [reflexivity|].
    replace (i * n + 1 - 1)%Z with (i * n)%Z in Hv by lia.
    unfold Spec.Qsp. rewrite Hv. reflexivity.
Qed.

Lemma Psync_cond2_ok (k y : Z) :
  (0 <= y < C)%Z -> (1 <= k)%Z ->
  computes (Model.Psync_cond2 p (Wvec p) n k y)
    (Spec.prod_range (fun i => Spec.Qsp p n i y) 1 ((k - 1) / n)
     * Spec.Pstep_sp p n k y).
Proof.
  intros Hy Hk. unfold Model.Psync_cond2.
  rewrite idiv_Ret by lia. cbn [bind].
  assert (H0 : (0 <= (k - 1) / n)%Z) by (apply Z.div_pos; lia).
  destruct (for_range_inv
    (fun i acc => acc == Spec.prod_range (fun i => Spec.Qsp p n i y) 1 (i - 1))
    1 ((k - 1) / n)
    (fun i prod =>
       let* qs := Model.Qsp p (Wvec p) n i y in Ret (prod * qs))
    1) as (v & E & Hv).
  - lia.
  - rewrite Spec_prod_range_empty_eq by lia. reflexivity.
  - intros i acc Hi Hacc.
    destruct (Qsp_ok i y) as (qs & Eqs & Hqs); [lia | lia |].
    rewrite Eqs. cbn [bind]. eexists. split; [reflexivity|].
    replace (i + 1 - 1)%Z with i by lia.
    rewrite (prod_range_snoc _ 1 i) by lia. rewrite Hacc, Hqs. reflexivity.
  - rewrite E. cbn [bind].
    destruct (Pstep_sp_ok k y) as (ps & Eps & Hps); [lia | lia |].
    rewrite Eps. cbn [bind]. eexists. split; [reflexivity|].
    replace ((k - 1) / n + 1 - 1)%Z with ((k - 1) / n)%Z in Hv by lia.
    rewrite Hv, Hps. reflexivity.
Qed.

Lemma Psync2_ok (k : Z) :
  (1 <= k)%Z -> computes (Model.Psync2 p (Wvec p) n k) (Spec.Psync2 p n k).
Proof.
  intros Hk. unfold Model.Psync2.
  destruct (Psync_of_ok p (Model.Psync_cond2 p (Wvec p) n)
              (fun y => Spec.prod_range (fun i => Spec.Qsp p n i y) 1 ((k - 1) / n)
                        * Spec.Pstep_sp p n k y) k) as (v & E & Hv).
  - intros y Hy. apply Psync_cond2_ok; assumption.
  - exists v. split; [assumption|]. rewrite Hv. unfold Spec.Psync2.
    reflexivity.
Qed.

End Case2.

(** *** The schedule visits every channel once in [C] steps *)

Section Schedule.

Variable p : SyncParameters.t.
Hypothesis Hvalid : SyncParameters.valid p.
Local Abbreviation C := (Spec.C p).




Lemma div_succ (m c : Z) :
  0 <= m -> 0 < c ->
  (m + 1) / c = m / c + (if decide ((m + 1) mod c = 0) then 1 else 0).
Proof.
  intros Hm Hc.
  pose proof (Z.div_mod m c ltac:(lia)) as E1.
  pose proof (Z.mod_pos_bound m c Hc) as B1.
  destruct (decide ((m + 1) mod c = 0)) as [E|E].
  - symmetry. apply Z.div_unique with (r := 0); [lia|].
    pose proof (Z.div_mod (m + 1) c ltac:(lia)) as E2. rewrite E in E2.
    assert (m mod c = c - 1).
    { assert (Hq : (m + 1) / c = m / c + 1 \/ (m + 1) / c <> m / c + 1) by lia.
      destruct Hq as [Hq|Hq]; [rewrite Hq in E2; lia|].
      exfalso. assert ((m + 1) / c <= m / c \/ m / c + 2 <= (m + 1) / c) by lia.
      nia. }
    lia.
  - symmetry. apply Z.div_unique with (r := m mod c + 1); [|lia].
    assert (m mod c + 1 <> c).
    { intros Hc'. apply E. replace (m + 1) with (m / c * c + 1 * c) by lia.
      rewrite <- Z.mul_add_distr_r. apply Z_mod_mult. }
    lia.
Qed.



End Schedule.

Lemma case2_run (p : SyncParameters.t) (results : Model.Results)
    (n K : Z) (fuel : nat) :
  SyncParameters.valid p ->
  1 <= n ->
  SyncParameters.getTScan p = n * Spec.Tsf p ->
  Model.fresh results ->
  Spec.truncation (Spec.Psync2 p n) K ->
  (Z.to_nat K <= fuel)%nat ->
  exists r,
    Model.calculate p fuel results = Ret r /\
    (Model.avgSyncTime r == Spec.expected_time p (Spec.Psync2 p n) K)%Q /\
    Forall2 Qeq (Model.cdf_ r) (Spec.recorded_cdf (Spec.Psync2 p n) K).
Proof.
  intros Hvalid Hn Hcase Hfresh Htrunc Hfuel.
  pose proof (Psync2_ok p Hvalid n Hn) as Hps.
  destruct (sumOfExpectedValue_ok p _ _ Hps K fuel Htrunc Hfuel)
    as (sum & Es & Hs).
  destruct (cdf_loop_ok _ _ Hps K) as (cdf & Ec & Hc); [apply Htrunc|].
  exists (Model.mkResults sum cdf).
  pose proof (Tsf_pos p Hvalid) as HT.
  assert (E : Model.calculate p fuel results = Ret (Model.mkResults sum cdf)).
  { unfold Model.calculate, Model.cases. rewrite (W_ok p Hvalid). cbn [bind].
    change (Model.Tscan p) with (SyncParameters.getTScan p).
    change (Model.Tsf p) with (Spec.Tsf p). rewrite Hcase.
    destruct (Z.ltb_spec (n * Spec.Tsf p) (Spec.Tsf p)) as [Hlt|_]; [nia|].
    rewrite imod_Ret by nia. cbn [bind]. rewrite Z_mod_mult. cbn [Z.eqb].
    rewrite idiv_Ret by nia. cbn [bind]. rewrite Z_div_mult by lia.
    rewrite Es. cbn [bind]. rewrite Hfresh. cbn [app].
    rewrite Ec. reflexivity. }
  split; [exact E|]. cbn [Model.avgSyncTime Model.avgSyncTime_ Model.cdf_].
  split.
  - rewrite Hs. apply time_terms_expected.
  - assumption.
Qed.


(** ** Instances *)




Lemma C9_calculate_ignores_tSwitch_witness :
  Model.calculate Samples.case1 43 Samples.fresh
  = Model.calculate Samples.case1_switch 43 Samples.fresh /\
  forall r1 r2,
    Model.calculate Samples.case1 43 Samples.fresh = Ret r1 ->
    Model.calculate Samples.case1_switch 43 Samples.fresh = Ret r2 ->
    Model.avgSyncTime r1 = Model.avgSyncTime r2 /\
    forall steps, Model.cdf r1 steps = Model.cdf r2 steps.
Proof.
  apply (C9_calculate_ignores_tSwitch Samples.case1 Samples.case1_switch 43
           Samples.fresh);
    vm_compute; reflexivity.
Defined.

(** ** The probability mass of a scan period *)

Lemma sumQ_update (f g : Z -> Q) (d : Q) (lo j : Z) (n : nat) :
  lo <= j < lo + Z.of_nat n ->
  (forall i, lo <= i < lo + Z.of_nat n -> i <> j -> (f i == g i)%Q) ->
  (f j == g j + d)%Q ->
  (Spec.sumQ f lo n == Spec.sumQ g lo n + d)%Q.
Proof.
  revert lo. induction n as [|n IH]; intros lo Hj Hne Hd; [lia|].
  cbn [Spec.sumQ]. destruct (Z.eq_dec lo j) as [->|Hlo].
  - rewrite Hd. rewrite (sumQ_ext f g (j + 1) n); [ring|].
    intros i Hi. apply Hne; lia.
  - rewrite (Hne lo) by lia. rewrite (IH (lo + 1)); [ring | lia | | assumption].
    intros i Hi. apply Hne. lia.
Qed.


Lemma Qpower_succ (x : Q) (v : Z) : 0 <= v -> (Qpower x (v + 1) == Qpower x v * x)%Q.
Proof.
  intros Hv. rewrite Qpower_plus' by lia. rewrite Qpower_1_r. reflexivity.
Qed.


Lemma mod_sub_zero (m j c : Z) :
  0 < c -> 0 <= j < c -> ((m - j) mod c = 0 <-> j = m mod c).
Proof.
  intros Hc Hj. split.
  - intros E. apply Z.mod_divide in E; [|lia]. destruct E as [q Hq].
    replace m with (j + q * c) by lia.
    rewrite Z_mod_plus_full. rewrite Z.mod_small by lia. reflexivity.
  - intros ->. rewrite Zminus_mod, Z.mod_mod, Z.sub_diag by lia.
    apply Z.mod_0_l. lia.
Qed.

Lemma visits_succ (m j c : Z) :
  0 < c -> 0 <= m -> 0 <= j < c ->
  (m + 1 - j + c - 1) / c
  = (m - j + c - 1) / c + (if decide (j = m mod c) then 1 else 0).
Proof.
  intros Hc Hm Hj.
  replace (m + 1 - j + c - 1) with ((m - j + c - 1) + 1) by lia.
  rewrite div_succ by lia.
  replace (m - j + c - 1 + 1) with ((m - j) + 1 * c) by lia.
  rewrite Z_mod_plus_full.
  destruct (decide ((m - j) mod c = 0)) as [E|E];
    destruct (decide (j = m mod c)) as [E'|E']; try reflexivity;
    rewrite mod_sub_zero in E by assumption; contradiction.
Qed.

Lemma visits_at (m c : Z) :
  0 < c -> 0 <= m -> (m - m mod c + c - 1) / c = m / c.
Proof.
  intros Hc Hm. symmetry.
  apply Z.div_unique with (r := c - 1); [lia|].
  pose proof (Z.div_mod m c ltac:(lia)). lia.
Qed.

Section ScanPeriod.

Variable p : SyncParameters.t.
Hypothesis Hvalid : SyncParameters.valid p.
Local Abbreviation C := (Spec.C p).
Hypothesis HC : 0 < C.
Variable y : Z.
Local Open Scope Q_scope.

Lemma pe_bounds (k : Z) : 0 <= Spec.pe p k y <= 1.
Proof.
  unfold Spec.pe. pose proof (valid_pEB p Hvalid).
  pose proof (valid_pSR_bounds p Hvalid (Spec.channel p k y)). nra.
Qed.

Lemma Pstep_pe (k : Z) : Spec.Pstep p k y == 1 / inject_Z C * Spec.pe p k y.
Proof. unfold Spec.Pstep, Spec.pe. ring. Qed.

Lemma channel_shift (k j : Z) :
  Spec.channel p (k + j * C) y = Spec.channel p k y.
Proof.
  unfold Spec.channel. f_equal. f_equal.
  replace (y + (k + j * C) - 1)%Z with (y + k - 1 + j * C)%Z by lia.
  apply Z_mod_plus_full.
Qed.

Lemma channel_mod (a m : Z) :
  Spec.channel p (a + m) y = Spec.channel p (a + m mod C) y.
Proof.
  rewrite <- (channel_shift (a + m mod C) (m / C)). f_equal.
  pose proof (Z.div_mod m C ltac:(lia)). lia.
Qed.

Lemma hit_nonneg (a k : Z) : (a <= k)%Z -> 0 <= Spec.hit p a k y.
Proof.
  intros Hk. unfold Spec.hit.
  pose proof (Pstep_bounds p Hvalid k y HC) as [H0 _].
  assert (0 <= Qpower (1 - Spec.pe p k y) ((k - a) / C)).
  { apply Qpower_0_le. pose proof (pe_bounds k). lra. }
  nra.
Qed.

Lemma residual_nonneg (a m : Z) : (0 <= m)%Z -> 0 <= Spec.residual p a m y.
Proof.
  intros Hm. unfold Spec.residual. apply sumQ_nonneg. intros j Hj.
  pose proof (inv_C_bounds p HC) as [Hc _].
  assert (0 <= Qpower (1 - Spec.pe p (a + j) y) ((m - j + C - 1) / C)).
  { apply Qpower_0_le. pose proof (pe_bounds (a + j)). lra. }
  nra.
Qed.

Lemma residual_start (a : Z) : Spec.residual p a 0 y == 1.
Proof.
  unfold Spec.residual, Spec.sum_range.
  rewrite (sumQ_ext _ (fun _ => 1 / inject_Z C)).
  - rewrite sumQ_const. replace (Z.of_nat (Z.to_nat (C - 1 - 0 + 1))) with C by lia.
    field. apply inject_Z_nonzero. lia.
  - intros j Hj. rewrite Z.div_small by lia. cbn. ring.
Qed.

(** One more step moves its probability from the residual to the sum. *)
Lemma residual_step (a m : Z) :
  (0 <= m)%Z ->
  Spec.residual p a (m + 1) y == Spec.residual p a m y - Spec.hit p a (a + m) y.
Proof.
  intros Hm. unfold Spec.residual, Spec.sum_range.
  assert (Hb : (0 <= m mod C < C)%Z) by (apply Z.mod_pos_bound; lia).
  rewrite (sumQ_update _
    (fun j => 1 / inject_Z C * Qpower (1 - Spec.pe p (a + j) y) ((m - j + C - 1) / C))
    (- Spec.hit p a (a + m) y) 0 (m mod C)).
  - ring.
  - lia.
  - intros j Hj Hne. rewrite visits_succ by lia.
    destruct (decide (j = m mod C)) as [E|_]; [contradiction|].
    rewrite Z.add_0_r. reflexivity.
  - rewrite visits_succ by lia.
    destruct (decide (m mod C = m mod C)) as [_|E]; [|contradiction].
    rewrite visits_at by lia.
    assert (0 <= m / C)%Z by (apply Z.div_pos; lia).
    rewrite Qpower_succ by assumption.
    unfold Spec.hit. rewrite Pstep_pe.
    replace (a + m - a)%Z with m by lia.
    unfold Spec.pe. rewrite <- (channel_mod a m). ring.
Qed.

(** The receptions of the first [m] steps of a scan period and its residual
    add up to one. *)
Lemma scan_period_mass (a : Z) (m : nat) :
  Spec.sumQ (fun k => Spec.hit p a k y) a m + Spec.residual p a (Z.of_nat m) y
  == 1.
Proof.
  induction m as [|m IH].
  - cbn [Spec.sumQ]. change (Z.of_nat 0) with 0%Z. rewrite residual_start. ring.
  - rewrite sumQ_snoc, Nat2Z.inj_succ. unfold Z.succ.
    rewrite residual_step by lia.
    set (s := Spec.sumQ _ a m) in *. set (r := Spec.residual p a (Z.of_nat m) y) in *.
    set (h := Spec.hit p a (a + Z.of_nat m) y). lra.
Qed.

Lemma scan_period_bounds (a : Z) (m : nat) :
  0 <= Spec.sumQ (fun k => Spec.hit p a k y) a m <= 1.
Proof.
  split.
  - apply sumQ_nonneg. intros k Hk. apply hit_nonneg. lia.
  - pose proof (scan_period_mass a m).
    pose proof (residual_nonneg a (Z.of_nat m) ltac:(lia)). lra.
Qed.

End ScanPeriod.

(** ** The series of Case 2, and of Case 1 as its instance [n = 1] *)

Section Windowed.

Variable p : SyncParameters.t.
Hypothesis Hvalid : SyncParameters.valid p.
Local Abbreviation C := (Spec.C p).
Hypothesis HC : 0 < C.
Variable n : Z.
Hypothesis Hn : 1 <= n.
Local Open Scope Q_scope.

(** The term of [Psync2] for the offset [y]. *)
Local Abbreviation term k y :=
  (Spec.prod_range (fun i => Spec.Qsp p n i y) 1 ((k - 1) / n)
   * Spec.Pstep_sp p n k y).

Lemma k_f_window (i k : Z) :
  ((i - 1) * n + 1 <= k <= i * n)%Z -> Spec.k_f n k = ((i - 1) * n + 1)%Z.
Proof.
  intros Hk. unfold Spec.k_f. f_equal. f_equal.
  symmetry. apply Z.div_unique with (r := (k - 1 - (i - 1) * n)%Z); lia.
Qed.

Lemma partial_period_bounds (y k : Z) :
  (1 <= k)%Z ->
  0 <= Spec.sum_range (fun k' => Spec.Pstep_sp p n k' y) (Spec.k_f n k) k <= 1.
Proof.
  intros Hk. pose proof (k_f_le n Hn k Hk) as Hkf.
  unfold Spec.sum_range.
  rewrite (sumQ_ext _ (fun k' => Spec.hit p (Spec.k_f n k) k' y)).
  - apply (scan_period_bounds p Hvalid HC).
  - intros k' Hk'. unfold Spec.Pstep_sp, Spec.hit, Spec.Nchp, Spec.pe.
    assert (E : Spec.k_f n k' = Spec.k_f n k).
    { unfold Spec.k_f in *. f_equal. f_equal.
      pose proof (Z.mod_pos_bound (k - 1) n ltac:(lia)) as Hb.
      pose proof (Z.div_mod (k - 1) n ltac:(lia)) as Hd.
      set (q := ((k - 1) / n)%Z) in *. set (r := ((k - 1) mod n)%Z) in *.
      clearbody q r.
      symmetry. apply Z.div_unique with (r := (k' - 1 - q * n)%Z); lia. }
    rewrite E. reflexivity.
Qed.

Lemma Qsp_bounds (y i : Z) : (1 <= i)%Z -> 0 <= Spec.Qsp p n i y <= 1.
Proof.
  intros Hi. unfold Spec.Qsp.
  pose proof (partial_period_bounds y (i * n) ltac:(nia)) as H.
  rewrite (k_f_window i) in H by nia. lra.
Qed.

Lemma survival_bounds (y k : Z) : (1 <= k)%Z -> 0 <= Spec.survival p n k y <= 1.
Proof.
  intros Hk. unfold Spec.survival.
  pose proof (partial_period_bounds y k Hk) as Hs.
  assert (Hp : 0 <= Spec.prod_range (fun i => Spec.Qsp p n i y) 1 ((k - 1) / n) <= 1).
  { apply prodQ_bounds. intros i Hi. apply Qsp_bounds. lia. }
  nra.
Qed.

Lemma term_nonneg (y k : Z) : (1 <= k)%Z -> 0 <= term k y.
Proof.
  intros Hk.
  assert (Hp : 0 <= Spec.prod_range (fun i => Spec.Qsp p n i y) 1 ((k - 1) / n) <= 1).
  { apply prodQ_bounds. intros i Hi. apply Qsp_bounds. lia. }
  assert (0 <= Spec.Pstep_sp p n k y).
  { pose proof (k_f_le n Hn k Hk). apply (hit_nonneg p Hvalid HC). lia. }
  nra.
Qed.

Lemma survival_first (y : Z) : Spec.survival p n 1 y == 1 - term 1 y.
Proof.
  unfold Spec.survival. replace ((1 - 1) / n)%Z with 0%Z by (rewrite Z.div_0_l; lia).
  assert (E : Spec.k_f n 1 = 1%Z) by (unfold Spec.k_f; rewrite Z.div_0_l; lia).
  rewrite E. rewrite !Spec_prod_range_empty_eq by lia.
  unfold Spec.sum_range. replace (Z.to_nat (1 - 1 + 1)) with 1%nat by lia.
  cbn [Spec.sumQ]. ring.
Qed.

Lemma survival_step (y k : Z) :
  (1 <= k)%Z ->
  Spec.survival p n (k + 1) y == Spec.survival p n k y - term (k + 1) y.
Proof.
  intros Hk. unfold Spec.survival.
  replace (k + 1 - 1)%Z with (k - 1 + 1)%Z by lia.
  rewrite (div_succ (k - 1) n) by lia.
  replace (k - 1 + 1)%Z with k by lia.
  assert (Hkf : Spec.k_f n k = ((k - 1) / n * n + 1)%Z) by reflexivity.
  assert (Hq : (0 <= (k - 1) / n)%Z) by (apply Z.div_pos; lia).
  pose proof (Z.div_mod (k - 1) n ltac:(lia)) as Hdm.
  pose proof (Z.mod_pos_bound (k - 1) n ltac:(lia)) as Hmb.
  remember ((k - 1) / n)%Z as q eqn:Eq. clear Eq.
  destruct (decide (k mod n = 0)%Z) as [E|E].
  - assert (Hk' : k = ((q + 1) * n)%Z).
    { apply Z.mod_divide in E; [|lia]. destruct E as [c Hc].
      assert (c = q + 1)%Z by nia. subst c. assumption. }
    rewrite (prod_range_snoc _ 1 (q + 1)) by lia.
    replace (q + 1 - 1)%Z with q by lia.
    assert (E1 : Spec.k_f n (k + 1) = (k + 1)%Z).
    { rewrite (k_f_window (q + 2)); lia. }
    rewrite E1. unfold Spec.sum_range at 1.
    replace (Z.to_nat (k + 1 - (k + 1) + 1)) with 1%nat by lia. cbn [Spec.sumQ].
    assert (EQ : Spec.Qsp p n (q + 1) y
                 == 1 - Spec.sum_range (fun k' => Spec.Pstep_sp p n k' y)
                          (Spec.k_f n k) k).
    { unfold Spec.Qsp. replace ((q + 1 - 1) * n + 1)%Z with (Spec.k_f n k) by lia.
      replace ((q + 1) * n)%Z with k by lia. reflexivity. }
    rewrite EQ. ring.
  - rewrite Z.add_0_r.
    assert (E1 : Spec.k_f n (k + 1) = Spec.k_f n k).
    { rewrite Hkf. replace (q * n + 1)%Z with ((q + 1 - 1) * n + 1)%Z by lia.
      apply (k_f_window (q + 1)).
      assert ((k - 1) mod n <> n - 1)%Z.
      { intros Hm. apply E. replace k with ((q + 1) * n)%Z by lia.
        apply Z_mod_mult. }
      lia. }
    rewrite E1. rewrite (sum_range_snoc _ (Spec.k_f n k) (k + 1))
      by (pose proof (k_f_le n Hn k Hk); lia).
    replace (k + 1 - 1)%Z with k by lia. ring.
Qed.

(** The cumulative probability of the steps [1 .. k] is one minus the
    average survival. *)
Lemma cumulative_closed (m : nat) :
  Spec.cumulative (Spec.Psync2 p n) (Z.of_nat m + 1)
  == Spec.sum_range
       (fun y => 1 / inject_Z C * (1 - Spec.survival p n (Z.of_nat m + 1) y))
       0 (C - 1).
Proof.
  unfold Spec.cumulative. induction m as [|m IH].
  - change (Z.of_nat 0 + 1)%Z with 1%Z. unfold Spec.sum_range at 1.
    cbn [Z.sub Z.add Z.to_nat Pos.to_nat Pos.iter_op Nat.add Spec.sumQ].
    replace (Z.to_nat (1 - 1 + 1)) with 1%nat by lia. cbn [Spec.sumQ].
    unfold Spec.Psync2. rewrite Qplus_0_r. apply sum_range_ext.
    intros y Hy. rewrite survival_first. ring.
  - rewrite (sum_range_snoc _ 1 (Z.of_nat (S m) + 1)) by lia.
    replace (Z.of_nat (S m) + 1 - 1)%Z with (Z.of_nat m + 1)%Z by lia.
    rewrite IH. unfold Spec.Psync2, Spec.sum_range. rewrite <- sumQ_plus.
    apply sumQ_ext. intros y Hy.
    replace (Z.of_nat (S m) + 1)%Z with (Z.of_nat m + 1 + 1)%Z by lia.
    rewrite (survival_step y (Z.of_nat m + 1)) by lia. ring.
Qed.

Lemma Psync2_nonneg (k : Z) : (1 <= k)%Z -> 0 <= Spec.Psync2 p n k.
Proof.
  intros Hk. unfold Spec.Psync2. apply sumQ_nonneg. intros y Hy.
  pose proof (inv_C_bounds p HC) as [Hc _].
  pose proof (term_nonneg y k Hk). nra.
Qed.

Lemma average_one : Spec.sum_range (fun _ => 1 / inject_Z C) 0 (C - 1) == 1.
Proof.
  unfold Spec.sum_range. rewrite sumQ_const.
  replace (Z.of_nat (Z.to_nat (C - 1 - 0 + 1))) with C by lia.
  field. apply inject_Z_nonzero. lia.
Qed.

Lemma cumulative_bounds (k : Z) :
  (0 <= k)%Z -> 0 <= Spec.cumulative (Spec.Psync2 p n) k <= 1.
Proof.
  intros Hk. split.
  - apply sumQ_nonneg. intros i Hi. apply Psync2_nonneg. lia.
  - destruct (Z.eq_dec k 0%Z) as [->|Hne].
    + unfold Spec.cumulative. rewrite Spec_sum_range_empty_eq by lia. lra.
    + replace k with (Z.of_nat (Z.to_nat (k - 1)) + 1)%Z by lia.
      rewrite cumulative_closed. rewrite <- average_one.
      apply sumQ_le. intros y Hy.
      pose proof (inv_C_bounds p HC) as [Hc _].
      pose proof (survival_bounds y (Z.of_nat (Z.to_nat (k - 1)) + 1) ltac:(lia)).
      nra.
Qed.

End Windowed.

(** ** Recorded vectors that are cumulative distributions *)

Lemma Model_recorded_is_cdf (r : Model.Results) :
  Distribution.recorded_ok (Model.cdf_ r) -> Distribution.is_cdf (Model.cdf r).
Proof.
  intros [Hb Hm].
  assert (Hq : forall steps, (1 <= steps)%nat ->
            (Model.cdf r steps = Ret 1%Q /\ (length (Model.cdf_ r) <= steps)%nat) \/
            (exists v, Model.cdf r steps = Ret v /\ Model.cdf_ r !! steps = Some v)).
  { intros steps Hs. destruct (Model_cdf_spec r steps) as (_ & H1 & H2).
    destruct (Model.cdf_ r !! steps) as [v|] eqn:E.
    - right. exists v. split; [apply H2; auto | reflexivity].
    - left. apply lookup_ge_None in E. split; [apply H1; assumption | assumption]. }
  split; [|split].
  - intros steps Hs. destruct (Hq steps Hs) as [[E _] | (v & E & Hv)].
    + exists 1%Q. split; [assumption | lra].
    + exists v. split; [assumption | eapply Hb; eassumption].
  - intros a b va vb Hab Ea Eb.
    destruct (Hq a ltac:(lia)) as [[Ea' La] | (v & Ea' & Hva)];
      destruct (Hq b ltac:(lia)) as [[Eb' Lb] | (w & Eb' & Hvb)];
      rewrite Ea' in Ea; rewrite Eb' in Eb;
      injection Ea as <-; injection Eb as <-.
    + lra.
    + apply lookup_lt_Some in Hvb. lia.
    + apply (Hb a v Hva).
    + apply (Hm a b); [lia | assumption | assumption].
  - exists (S (length (Model.cdf_ r))). intros steps Hs.
    destruct (Model_cdf_spec r steps) as (_ & H1 & _). apply H1; lia.
Qed.

Lemma Simulator_recorded_is_cdf (r : Simulator.Results) :
  Distribution.recorded_ok (Simulator.cdf_ r) ->
  Distribution.is_cdf (Simulator.cdf r).
Proof.
  intros [Hb Hm].
  assert (Hq : forall steps, (1 <= steps)%nat ->
            (Simulator.cdf r steps = Ret 1%Q
             /\ (length (Simulator.cdf_ r) <= steps)%nat) \/
            (exists v, Simulator.cdf r steps = Ret v
                       /\ Simulator.cdf_ r !! steps = Some v)).
  { intros steps Hs. destruct (Simulator_cdf_spec r steps) as (_ & H1 & H2).
    destruct (Simulator.cdf_ r !! steps) as [v|] eqn:E.
    - right. exists v. split; [apply H2; auto | reflexivity].
    - left. apply lookup_ge_None in E. split; [apply H1; assumption | assumption]. }
  split; [|split].
  - intros steps Hs. destruct (Hq steps Hs) as [[E _] | (v & E & Hv)].
    + exists 1%Q. split; [assumption | lra].
    + exists v. split; [assumption | eapply Hb; eassumption].
  - intros a b va vb Hab Ea Eb.
    destruct (Hq a ltac:(lia)) as [[Ea' La] | (v & Ea' & Hva)];
      destruct (Hq b ltac:(lia)) as [[Eb' Lb] | (w & Eb' & Hvb)];
      rewrite Ea' in Ea; rewrite Eb' in Eb;
      injection Ea as <-; injection Eb as <-.
    + lra.
    + apply lookup_lt_Some in Hvb. lia.
    + apply (Hb a v Hva).
    + apply (Hm a b); [lia | assumption | assumption].
  - exists (S (length (Simulator.cdf_ r))). intros steps Hs.
    destruct (Simulator_cdf_spec r steps) as (_ & H1 & _). apply H1; lia.
Qed.

Lemma cumulative_mono (P : Z -> Q) (a b : Z) :
  (forall k, 1 <= k -> (0 <= P k)%Q) -> 0 <= a <= b ->
  (Spec.cumulative P a <= Spec.cumulative P b)%Q.
Proof.
  intros HP Hab. replace b with (a + Z.of_nat (Z.to_nat (b - a))) by lia.
  induction (Z.to_nat (b - a)) as [|d IH].
  - replace (a + Z.of_nat 0) with a by lia. apply Qle_refl.
  - unfold Spec.cumulative in *.
    rewrite (sum_range_snoc P 1 (a + Z.of_nat (S d))) by lia.
    replace (a + Z.of_nat (S d) - 1) with (a + Z.of_nat d) by lia.
    assert (0 <= P (a + Z.of_nat (S d))%Z)%Q by (apply HP; lia). lra.
Qed.

(** The cumulative sums of non-negative probabilities of total at most one
    are a cumulative distribution. *)
Lemma recorded_cdf_ok (P : Z -> Q) (K : Z) (cdf : list Q) :
  (forall k, 1 <= k -> (0 <= P k)%Q) ->
  (forall k, 0 <= k <= K -> (Spec.cumulative P k <= 1)%Q) ->
  Forall2 Qeq cdf (Spec.recorded_cdf P K) ->
  Distribution.recorded_ok cdf.
Proof.
  intros HP Hone H.
  assert (Hget : forall i v, cdf !! i = Some v ->
            Z.of_nat i <= Z.max 0 K /\ (v == Spec.cumulative P (Z.of_nat i))%Q).
  { intros i v Hv. eapply Forall2_lookup_l in H as (x & Hx & Hq); [|eassumption].
    unfold Spec.recorded_cdf in Hx. rewrite list_lookup_fmap in Hx.
    destruct (seq 0 (S (Z.to_nat K)) !! i) as [j|] eqn:Ej; [|discriminate].
    apply lookup_seq in Ej as [-> Hlt]. cbn in Hx. injection Hx as <-.
    split; [lia | assumption]. }
  split.
  - intros i v Hv. destruct (Hget i v Hv) as [Hi ->]. split.
    + apply sumQ_nonneg. intros k Hk. apply HP. lia.
    + destruct (Z.eq_dec (Z.of_nat i) 0) as [E|E].
      * rewrite E. unfold Spec.cumulative.
        rewrite Spec_sum_range_empty_eq by lia. lra.
      * apply Hone. lia.
  - intros i j vi vj Hij Hi Hj.
    destruct (Hget i vi Hi) as [_ ->]. destruct (Hget j vj Hj) as [_ ->].
    apply cumulative_mono; [assumption | lia].
Qed.

Lemma sum_loop_result (p : SyncParameters.t) (Psync : Z -> outcome Q)
    (fuel : nat) : forall sum k cum s' K,
  Model.sum_loop p Psync fuel sum k cum = Ret (s', K) ->
  k - 1 <= K /\ (Qltb cum Model.threshold = true -> k <= K).
Proof.
  induction fuel as [|fuel IH]; intros sum k cum s' K H; cbn in H.
  - destruct (Qltb cum Model.threshold); [discriminate|].
    injection H as _ <-. split; [lia | discriminate].
  - destruct (Qltb cum Model.threshold); [|injection H as _ <-; split; [lia | discriminate]].
    destruct (Psync k) as [v| |]; cbn in H; try discriminate.
    apply IH in H as [H _]. split; [lia | intros _; lia].
Qed.

(** ** Case 1 is Case 2 with a scan period of one slotframe *)

Section Case1IsCase2.

Variable p : SyncParameters.t.
Local Open Scope Q_scope.

Lemma Pstep_sp_one (k y : Z) : Spec.Pstep_sp p 1 k y == Spec.Pstep p k y.
Proof.
  unfold Spec.Pstep_sp, Spec.Nchp, Spec.k_f.
  rewrite Z.div_1_r, Z.mul_1_r.
  replace (k - (k - 1 + 1))%Z with 0%Z by lia.
  rewrite Zdiv_0_l, Qpower_0_r. ring.
Qed.

Lemma Qsp_one (i y : Z) : Spec.Qsp p 1 i y == 1 - Spec.Pstep p i y.
Proof.
  unfold Spec.Qsp, Spec.sum_range.
  replace (Z.to_nat (i * 1 - ((i - 1) * 1 + 1) + 1)) with 1%nat by lia.
  cbn [Spec.sumQ]. rewrite Pstep_sp_one.
  replace ((i - 1) * 1 + 1)%Z with i by lia. ring.
Qed.

Lemma Psync1_is_Psync2 (k : Z) : Spec.Psync1 p k == Spec.Psync2 p 1 k.
Proof.
  unfold Spec.Psync1, Spec.Psync2. apply sum_range_ext. intros y Hy.
  rewrite Z.div_1_r, Pstep_sp_one.
  rewrite (prod_range_ext (fun i => Spec.Qsp p 1 i y)
             (fun i => 1 - Spec.Pstep p i y)) by (intros i Hi; apply Qsp_one).
  ring.
Qed.

Lemma cumulative_ext (P P' : Z -> Q) (k : Z) :
  (forall j, (1 <= j <= k)%Z -> P j == P' j) ->
  Spec.cumulative P k == Spec.cumulative P' k.
Proof. intros H. apply sum_range_ext. assumption. Qed.

End Case1IsCase2.

(** ** The distribution the simulator records *)

Lemma for_loop_post {A} (P : Z -> A -> Prop) (n : nat) (lo : Z)
    (body : Z -> A -> outcome A) (acc a' : A) :
  P lo acc ->
  (forall i a b, lo <= i < lo + Z.of_nat n -> P i a -> body i a = Ret b ->
     P (i + 1) b) ->
  for_loop n lo body acc = Ret a' ->
  P (lo + Z.of_nat n) a'.
Proof.
  revert lo acc. induction n as [|n IH]; intros lo acc H0 Hstep E.
  - cbn in E. injection E as <-. replace (lo + Z.of_nat 0) with lo by lia.
    assumption.
  - cbn in E. destruct (body lo acc) as [a1| |] eqn:E1; cbn in E; try discriminate.
    replace (lo + Z.of_nat (S n)) with (lo + 1 + Z.of_nat n) by lia.
    apply (IH (lo + 1) a1).
    + apply (Hstep lo acc); [lia | assumption | assumption].
    + intros i a b Hi. apply Hstep. lia.
    + assumption.
Qed.

Section Counters.
Import Distribution.

Lemma sumZ_ext (f g : Z -> Z) (lo : Z) (n : nat) :
  (forall i, lo <= i < lo + Z.of_nat n -> f i = g i) ->
  sumZ f lo n = sumZ g lo n.
Proof.
  revert lo. induction n as [|n IH]; intros lo H; cbn; [reflexivity|].
  rewrite (H lo) by lia. rewrite (IH (lo + 1)); [reflexivity|].
  intros i Hi. apply H. lia.
Qed.

Lemma sumZ_update (f g : Z -> Z) (d lo j : Z) (n : nat) :
  lo <= j < lo + Z.of_nat n ->
  (forall i, lo <= i < lo + Z.of_nat n -> i <> j -> f i = g i) ->
  f j = g j + d ->
  sumZ f lo n = sumZ g lo n + d.
Proof.
  revert lo. induction n as [|n IH]; intros lo Hj Hne Hd; [lia|].
  cbn [sumZ]. destruct (Z.eq_dec lo j) as [->|Hlo].
  - rewrite Hd. rewrite (sumZ_ext f g (j + 1) n); [lia|].
    intros i Hi. apply Hne; lia.
  - rewrite (Hne lo) by lia. rewrite (IH (lo + 1)); [lia | lia | | assumption].
    intros i Hi. apply Hne. lia.
Qed.

Lemma sumZ_snoc (f : Z -> Z) (lo : Z) (n : nat) :
  sumZ f lo (S n) = sumZ f lo n + f (lo + Z.of_nat n).
Proof.
  revert lo. induction n as [|n IH]; intros lo.
  - cbn [sumZ]. replace (lo + Z.of_nat 0) with lo by lia. lia.
  - change (sumZ f lo (S (S n))) with (f lo + sumZ f (lo + 1) (S n)).
    rewrite IH. cbn [sumZ].
    replace (lo + 1 + Z.of_nat n) with (lo + Z.of_nat (S n)) by lia. lia.
Qed.

Lemma sumZ_nonneg (f : Z -> Z) (lo : Z) (n : nat) :
  (forall i, 0 <= f i) -> 0 <= sumZ f lo n.
Proof.
  intros H. revert lo. induction n as [|n IH]; intros lo; cbn; [lia|].
  specialize (H lo). specialize (IH (lo + 1)). lia.
Qed.

Lemma counted_empty : counted ∅ = 0.
Proof. unfold counted. apply map_fold_empty. Qed.

Lemma counted_insert (m : gmap Z Z) (k v : Z) :
  m !! k = None -> counted (<[k := v]> m) = v + counted m.
Proof.
  intros H. unfold counted. apply (map_fold_insert_L (fun _ c acc => c + acc)).
  - intros. lia.
  - assumption.
Qed.

Lemma counted_replace (m : gmap Z Z) (k c v : Z) :
  m !! k = Some c -> counted (<[k := v]> m) = counted m - c + v.
Proof.
  intros H. rewrite <- (insert_delete_eq m k v).
  rewrite counted_insert by apply lookup_delete_eq.
  rewrite <- (insert_id m k c H) at 2. rewrite <- (insert_delete_eq m k c).
  rewrite counted_insert by apply lookup_delete_eq. lia.
Qed.

Lemma counted_count (m : gmap Z Z) (k : Z) :
  counted (Simulator.count k m) = counted m + 1.
Proof.
  unfold Simulator.count. destruct (m !! k) as [c|] eqn:E.
  - rewrite (counted_replace m k c) by assumption. lia.
  - rewrite counted_insert by assumption. lia.
Qed.

Lemma positive_count (m : gmap Z Z) (k : Z) :
  positive_counters m -> positive_counters (Simulator.count k m).
Proof.
  intros H j c. unfold Simulator.count. destruct (m !! k) as [c0|] eqn:E.
  - rewrite lookup_insert. destruct (decide (k = j)) as [->|_].
    + intros [= <-]. specialize (H j c0 E). lia.
    + apply H.
  - rewrite lookup_insert. destruct (decide (k = j)) as [->|_].
    + intros [= <-]. lia.
    + apply H.
Qed.

Lemma counter_at_nonneg (m : gmap Z Z) (i : Z) :
  positive_counters m -> 0 <= counter_at m i.
Proof.
  intros H. unfold counter_at. destruct (m !! i) as [c|] eqn:E; cbn; [|lia].
  specialize (H i c E). lia.
Qed.

(** The counters of any range of steps count at most all the trials. *)
Lemma partial_count_le (m : gmap Z Z) :
  positive_counters m ->
  forall lo n, sumZ (counter_at m) lo n <= counted m.
Proof.
  induction m as [|k v m Hk IH] using map_ind; intros Hpos lo n.
  - rewrite counted_empty.
    rewrite (sumZ_ext _ (fun _ => 0)).
    + clear. revert lo. induction n as [|n IHn]; intros lo; cbn; [lia|].
      specialize (IHn (lo + 1)). lia.
    + intros i _. unfold counter_at. rewrite lookup_empty. reflexivity.
  - rewrite counted_insert by assumption.
    assert (Hv : 1 <= v) by (apply (Hpos k); apply lookup_insert_eq).
    assert (Hpos' : positive_counters m).
    { intros j c Hj. apply (Hpos j). rewrite lookup_insert_ne; [assumption|].
      intros ->. congruence. }
    specialize (IH Hpos' lo n).
    destruct (decide (lo <= k < lo + Z.of_nat n)) as [Hin|Hout].
    + rewrite (sumZ_update _ (counter_at m) v lo k n Hin).
      * lia.
      * intros i _ Hne. unfold counter_at. rewrite lookup_insert_ne by congruence.
        reflexivity.
      * unfold counter_at. rewrite lookup_insert_eq, Hk. cbn. lia.
    + rewrite (sumZ_ext _ (counter_at m)); [lia|].
      intros i Hi. unfold counter_at. rewrite lookup_insert_ne; [reflexivity|].
      intros ->. contradiction.
Qed.

End Counters.

Lemma bind_Ret_inv {A B} (m : outcome A) (k : A -> outcome B) (b : B) :
  bind m k = Ret b -> exists a, m = Ret a /\ k a = Ret b.
Proof. destruct m as [a| |]; cbn; [eauto | discriminate | discriminate]. Qed.

Section SimulatorCounts.
Import Distribution.

Variable p : SyncParameters.t.
Variable g : Simulator.rng.

Lemma trial_counts fuel numRuns avg counter d avg' counter' d' :
  Simulator.trial p g fuel numRuns (avg, counter, d) = Ret (avg', counter', d') ->
  exists step, counter' = Simulator.count step counter.
Proof.
  unfold Simulator.trial, Simulator.randomScanStartTime. cbv beta iota zeta.
  intros H.
  apply bind_Ret_inv in H as (asn0 & _ & H).
  apply bind_Ret_inv in H as (r & _ & H).
  apply bind_Ret_inv in H as ([ch d1] & _ & H).
  apply bind_Ret_inv in H as ([tx d2] & _ & H).
  apply bind_Ret_inv in H as (share & _ & H).
  apply bind_Ret_inv in H as (ratio & _ & H).
  injection H as _ <- _. eexists. reflexivity.
Qed.

Lemma trials_counted fuel numRuns avg counter d :
  0 < numRuns ->
  Simulator.trials p g fuel numRuns = Ret (avg, counter, d) ->
  counted counter = numRuns /\ positive_counters counter.
Proof.
  intros Hn H. unfold Simulator.trials, for_range in H.
  apply (for_loop_post
    (fun i st => counted (snd (fst st)) = i /\ positive_counters (snd (fst st))))
    in H.
  - cbn [fst snd] in H. destruct H as [H1 H2]. split; [lia | assumption].
  - cbn [fst snd]. split; [apply counted_empty|].
    intros k c Hk. rewrite lookup_empty in Hk. discriminate.
  - intros i [[a c] d0] [[a' c'] d0'] Hi [H1 H2] Hb. cbn [fst snd] in *.
    apply trial_counts in Hb as (step & ->).
    split; [rewrite counted_count; lia | apply positive_count; assumption].
Qed.

(** The number of trials counted at the steps [1 .. j]. *)
Local Abbreviation upto counter j :=
  (sumZ (counter_at counter) 1 (Z.to_nat j)).

Lemma cdf_loop_records_counts numRuns counter L sc cdf :
  0 < numRuns ->
  Simulator.cdf_loop numRuns counter (replicate L 0%Q) = Ret (sc, cdf) ->
  length cdf = L /\
  forall j v, cdf !! j = Some v ->
    (v == inject_Z (upto counter (Z.of_nat j)) / inject_Z numRuns)%Q.
Proof.
  intros Hn H. unfold Simulator.cdf_loop, for_range in H.
  rewrite length_replicate in H.
  apply (for_loop_post
    (fun i st =>
       fst st = upto counter (i - 1) /\
       length (snd st) = L /\
       forall j v, snd st !! j = Some v ->
         (Z.of_nat j < i -> (v == inject_Z (upto counter (Z.of_nat j)) / inject_Z numRuns)%Q) /\
         (i <= Z.of_nat j -> v = 0%Q))) in H.
  - cbn [fst snd] in H. destruct H as (_ & Hlen & Hall).
    split; [assumption|]. intros j v Hv. apply (Hall j v Hv).
    apply lookup_lt_Some in Hv. lia.
  - cbn [fst snd]. split; [reflexivity|]. split; [apply length_replicate|].
    intros j v Hv. apply lookup_replicate in Hv as [-> Hj]. split; [|reflexivity].
    intros Hlt. assert (j = 0%nat) as -> by lia.
    change (upto counter (Z.of_nat 0)) with 0. change (inject_Z 0) with 0%Q.
    unfold Qdiv. ring.
  - intros i [sc0 cdf0] [sc1 cdf1] Hi (Hsc & Hlen & Hall) Hb.
    cbn [fst snd] in *.
    rewrite fdiv_Ret in Hb by (apply inject_Z_nonzero; lia). cbn [bind] in Hb.
    injection Hb as <- <-.
    assert (Esc : match counter !! i with Some c => sc0 + c | None => sc0 end
                  = upto counter i).
    { replace (Z.to_nat i) with (S (Z.to_nat (i - 1))) by lia.
      rewrite sumZ_snoc, <- Hsc. replace (1 + Z.of_nat (Z.to_nat (i - 1))) with i by lia.
      unfold counter_at. destruct (counter !! i); cbn; lia. }
    rewrite Esc. replace (i + 1 - 1) with i by lia.
    split; [reflexivity|]. split; [rewrite length_insert; assumption|].
    intros j v Hv. destruct (decide (Z.to_nat i = j)) as [<-|Hne].
    + rewrite list_lookup_insert_eq in Hv by lia. injection Hv as <-.
      split; [|lia]. intros _. replace (Z.of_nat (Z.to_nat i)) with i by lia.
      reflexivity.
    + rewrite list_lookup_insert_ne in Hv by assumption.
      destruct (Hall j v Hv) as [H1 H2]. split.
      * intros Hlt. apply H1. lia.
      * intros Hge. apply H2. lia.
Qed.

Lemma upto_mono counter (a b : Z) :
  positive_counters counter -> 0 <= a <= b ->
  0 <= upto counter a <= upto counter b.
Proof.
  intros Hpos Hab. split.
  - apply sumZ_nonneg. intros i. apply counter_at_nonneg. assumption.
  - replace (Z.to_nat b) with (Z.to_nat a + Z.to_nat (b - a))%nat by lia.
    induction (Z.to_nat (b - a)) as [|d IH].
    + rewrite Nat.add_0_r. lia.
    + rewrite Nat.add_succ_r, sumZ_snoc.
      pose proof (counter_at_nonneg counter
                    (1 + Z.of_nat (Z.to_nat a + d)) Hpos). lia.
Qed.

(** The vector [run] records is a cumulative distribution. *)
Lemma create_cdf_ok numRuns counter cdf :
  0 < numRuns ->
  counted counter = numRuns -> positive_counters counter ->
  Simulator.create_cdf numRuns counter = Ret cdf ->
  recorded_ok cdf.
Proof.
  intros Hn Hcount Hpos H. unfold Simulator.create_cdf in H.
  apply bind_Ret_inv in H as (top & _ & H).
  apply bind_Ret_inv in H as (cdf0 & Ha & H).
  unfold Simulator.assign in Ha. destruct (top + 1 <? 0); [discriminate|].
  injection Ha as <-.
  apply bind_Ret_inv in H as ([sc cdf'] & Hl & H). injection H as <-.
  apply cdf_loop_records_counts in Hl as [_ Hall]; [|assumption].
  assert (Hn' : (0 < inject_Z numRuns)%Q) by (unfold Qlt; cbn; lia).
  split.
  - intros i v Hv. rewrite (Hall i v Hv).
    pose proof (upto_mono counter 0 (Z.of_nat i) Hpos ltac:(lia)) as [_ H0].
    pose proof (partial_count_le counter Hpos 1 (Z.to_nat (Z.of_nat i))) as H1.
    rewrite Hcount in H1. cbn [Z.to_nat sumZ] in H0. split.
    + apply Qle_shift_div_l; [assumption|]. rewrite Qmult_0_l.
      change 0%Q with (inject_Z 0). rewrite <- Zle_Qle. assumption.
    + apply Qle_shift_div_r; [assumption|]. rewrite Qmult_1_l.
      rewrite <- Zle_Qle. assumption.
  - intros i j vi vj Hij Hi Hj. rewrite (Hall i vi Hi), (Hall j vj Hj).
    pose proof (upto_mono counter (Z.of_nat i) (Z.of_nat j) Hpos ltac:(lia))
      as [_ H0].
    unfold Qdiv. apply Qmult_le_compat_r.
    + rewrite <- Zle_Qle. assumption.
    + apply Qlt_le_weak, Qinv_lt_0_compat. assumption.
Qed.

Lemma run_records_cdf fuel numRuns results r :
  Simulator.run p g fuel numRuns results = (r, Ret tt) ->
  recorded_ok (Simulator.cdf_ r).
Proof.
  unfold Simulator.run. destruct (Z.leb_spec numRuns 0) as [Hle|Hn];
    [intros [= _]; discriminate|].
  destruct (Simulator.trials p g fuel numRuns) as [[[avg counter] d]| |] eqn:Et;
    [|intros [= _]; discriminate |intros [= _]; discriminate].
  apply trials_counted in Et as [Hc Hp]; [|assumption].
  destruct (Simulator.create_cdf numRuns counter) as [cdf| |] eqn:Ec;
    [|intros [= _]; discriminate |intros [= _]; discriminate].
  intros [= <-]. cbn [Simulator.cdf_].
  eapply create_cdf_ok; eassumption.
Qed.

End SimulatorCounts.

(** ** Geometric decay *)

Section Decay.
Import Spec.
Local Open Scope Q_scope.







End Decay.

(** ** The series reaches the threshold when one channel can deliver *)

Section GoodChannel.

Variable p : SyncParameters.t.
Hypothesis Hvalid : SyncParameters.valid p.
Local Abbreviation C := (Spec.C p).
Hypothesis HC : 0 < C.
Variable n : Z.
Hypothesis Hn : 1 <= n.
Variable j0 : Z.
Hypothesis Hj0 : 1 <= j0 <= C.
Hypothesis Hgood : (0 < Spec.pEB p * Spec.pSR p (Spec.W p j0))%Q.
Variable y : Z.
Local Open Scope Q_scope.

(** The probability of a reception at a first visit to the good channel. *)
Local Abbreviation delta :=
  (1 / inject_Z C * Spec.pEB p * Spec.pSR p (Spec.W p j0)).









End GoodChannel.

(** ** Termination of the series of Cases 1 and 2 *)

Section SeriesTerminates.

Variable p : SyncParameters.t.
Hypothesis Hvalid : SyncParameters.valid p.
Local Abbreviation C := (Spec.C p).
Local Open Scope Q_scope.




End SeriesTerminates.

(** ** Case 3: intervals, rounding and the array of probabilities *)

Section Intervals.
Import TimeInterval.

Lemma make_Ret (s e : Z) : s <= e -> make s e = Ret (set s e).
Proof.
  intros H. unfold make. destruct (Z.gtb_spec s e) as [Hgt|_]; [lia|reflexivity].
Qed.

Lemma length_set (s e : Z) : length (set s e) = Ret (e - s).
Proof. reflexivity. Qed.

Lemma intersection_set (a b c d : Z) :
  a <= b -> c <= d ->
  intersection (set a b) (set c d)
  = Ret (if (a >? d) || (b <? c) then empty else set (Z.max a c) (Z.min b d)).
Proof.
  intros Hab Hcd. unfold intersection, orelse. cbn.
  destruct (Z.gtb_spec a d) as [H1|H1]; cbn; [reflexivity|].
  destruct (Z.ltb_spec b c) as [H2|H2]; cbn; [reflexivity|].
  apply make_Ret. lia.
Qed.

Lemma isSubsetOf_set (a b c d : Z) :
  isSubsetOf (set a b) (set c d) = Ret ((c <=? a) && (d >=? b)).
Proof.
  unfold isSubsetOf. cbn. destruct (c <=? a); reflexivity.
Qed.

End Intervals.

Section Rounding.
Local Open Scope Q_scope.

Lemma inject_Z_succ (z : Z) : inject_Z (z + 1) == inject_Z z + 1.
Proof. rewrite inject_Z_plus. reflexivity. Qed.

Lemma inject_Z_pred (z : Z) : inject_Z (z - 1) == inject_Z z - 1.
Proof. unfold Z.sub. rewrite inject_Z_plus. reflexivity. Qed.

Lemma inject_Z_lt_inv (a b : Z) : inject_Z a < inject_Z b + 1 -> (a <= b)%Z.
Proof.
  intros H. rewrite <- inject_Z_succ in H. rewrite <- Zlt_Qlt in H. lia.
Qed.

Lemma inject_Z_nonneg (z : Z) : (0 <= z)%Z -> 0 <= inject_Z z.
Proof. intros H. change 0 with (inject_Z 0). rewrite <- Zle_Qle. assumption. Qed.


Lemma Qfloor_unique (x : Q) (z : Z) :
  inject_Z z <= x -> x < inject_Z z + 1 -> Qfloor x = z.
Proof.
  intros H1 H2. pose proof (Qfloor_le x) as H3.
  pose proof (Qlt_floor x) as H4. rewrite inject_Z_succ in H4.
  assert (Qfloor x <= z)%Z by (apply inject_Z_lt_inv; lra).
  assert (z <= Qfloor x)%Z by (apply inject_Z_lt_inv; lra).
  lia.
Qed.

(** [B] tells whether [(i - 1) * n] is an integer. *)
Lemma B_false (n : Q) (i : Z) :
  Model.B n i = false ->
  inject_Z (i - 1) * n == inject_Z (Qfloor (inject_Z (i - 1) * n)).
Proof.
  unfold Model.B. intros H. apply negb_false_iff in H.
  apply Qeq_bool_iff in H. exact H.
Qed.

Lemma B_true (n : Q) (i : Z) :
  Model.B n i = true ->
  inject_Z (Qfloor (inject_Z (i - 1) * n)) < inject_Z (i - 1) * n.
Proof.
  unfold Model.B. intros H. apply negb_true_iff in H.
  pose proof (Qfloor_le (inject_Z (i - 1) * n)) as Hle.
  apply Qle_lt_or_eq in Hle as [Hlt|E]; [assumption|].
  exfalso. assert (Ht : Qeq_bool (inject_Z (i - 1) * n)
                          (inject_Z (Qfloor (inject_Z (i - 1) * n))) = true).
  { apply Qeq_bool_iff. symmetry. assumption. }
  congruence.
Qed.

Section Steps.

Variable n : Q.
Hypothesis Hn : 1 < n.

Lemma k_f3_pos (i : Z) : (1 <= i)%Z -> (1 <= Spec.k_f3 n i)%Z.
Proof.
  intros Hi. unfold Spec.k_f3.
  assert (Hx : 0 <= inject_Z (i - 1) * n).
  { assert (0 <= inject_Z (i - 1)) by (apply inject_Z_nonneg; lia). nra. }
  destruct (Model.B n i) eqn:EB.
  - apply B_true in EB.
    assert (0 <= Qfloor (inject_Z (i - 1) * n))%Z.
    { change 0%Z with (Qfloor 0). apply Qfloor_resp_le. assumption. }
    assert (H0 : 0 < inject_Z (i - 1) * n).
    { assert (0 <= inject_Z (Qfloor (inject_Z (i - 1) * n)))
        by (apply inject_Z_nonneg; lia). lra. }
    pose proof (Qle_ceiling (inject_Z (i - 1) * n)) as Hc.
    assert (0 < inject_Z (Qceiling (inject_Z (i - 1) * n))) by lra.
    change 0 with (inject_Z 0) in H1. rewrite <- Zlt_Qlt in H1. lia.
  - assert (1 <= inject_Z (i - 1) * n + 1) by lra.
    change 1%Z with (Qfloor 1). apply Qfloor_resp_le. assumption.
Qed.

(** The scan period [i] has at least two steps. *)
Lemma k_l3_after (i : Z) : (1 <= i)%Z -> (Spec.k_f3 n i + 1 <= Spec.k_l3 n i)%Z.
Proof.
  intros Hi. unfold Spec.k_f3, Spec.k_l3.
  assert (Ei : inject_Z i * n == inject_Z (i - 1) * n + n).
  { replace i with ((i - 1) + 1)%Z at 1 by lia. rewrite inject_Z_plus.
    change (inject_Z 1) with 1. ring. }
  set (x := inject_Z (i - 1) * n) in *. set (xi := inject_Z i * n) in *.
  pose proof (Qle_ceiling xi) as Hc.
  destruct (Model.B n i) eqn:EB.
  - pose proof (Qceiling_lt x) as Hx. rewrite inject_Z_pred in Hx.
    apply inject_Z_lt_inv. rewrite inject_Z_succ. lra.
  - apply B_false in EB. fold x in EB.
    assert (Ef : Qfloor (x + 1) = (Qfloor x + 1)%Z).
    { apply Qfloor_unique; rewrite inject_Z_succ; lra. }
    rewrite Ef.
    assert (H2 : inject_Z (Qfloor x + 1) < inject_Z (Qceiling xi))
      by (rewrite inject_Z_succ; lra).
    rewrite <- Zlt_Qlt in H2. lia.
Qed.



End Steps.

End Rounding.

Section PSyncArray.
Import Distribution.
Local Open Scope Q_scope.

Lemma total_app (l : list Q) (x : Q) : total (l ++ [x]) == total l + x.
Proof.
  induction l as [|a l IH]; cbn; [ring|]. unfold total in IH. rewrite IH. ring.
Qed.

Lemma total_alter (l : list Q) (k : nat) (x : Q) :
  (k < length l)%nat -> total (alter (fun v => v + x) k l) == total l + x.
Proof.
  revert k. induction l as [|a l IH]; intros k Hk; [cbn in Hk; lia|].
  destruct k as [|k]; cbn.
  - ring.
  - unfold total in IH. rewrite (IH k) by (cbn in Hk; lia). ring.
Qed.

Lemma updatePSync_total (k : Z) (x : Q) (l : list Q) :
  (0 <= k)%Z -> total (Model.updatePSync k x l) == total l + x.
Proof.
  intros Hk. unfold Model.updatePSync.
  destruct (Z.leb_spec (Z.of_nat (length l)) k) as [H|H].
  - apply total_app.
  - apply total_alter. lia.
Qed.

Lemma updatePSync_nonneg (k : Z) (x : Q) (l : list Q) :
  0 <= x -> nonneg l -> nonneg (Model.updatePSync k x l).
Proof.
  intros Hx Hl. unfold Model.updatePSync, nonneg in *.
  destruct (Z.of_nat (length l) <=? k).
  - apply Forall_app. split; [assumption|]. constructor; [assumption|constructor].
  - apply Forall_alter; [assumption|]. intros v _ Hv. lra.
Qed.

Lemma updatePSync_length (k : Z) (x : Q) (l : list Q) :
  (length l <= length (Model.updatePSync k x l))%nat.
Proof.
  unfold Model.updatePSync. destruct (Z.of_nat (length l) <=? k).
  - rewrite length_app. lia.
  - rewrite length_alter. lia.
Qed.

Lemma updatePSync_grows (k : Z) (x : Q) (l : list Q) :
  (0 <= k)%Z ->
  (Nat.min (Z.to_nat k) (length l) < length (Model.updatePSync k x l))%nat.
Proof.
  intros Hk. unfold Model.updatePSync.
  destruct (Z.leb_spec (Z.of_nat (length l)) k) as [H|H].
  - rewrite length_app. cbn [length]. lia.
  - rewrite length_alter. lia.
Qed.

End PSyncArray.

(** ** Case 3: one scan period *)

Lemma if_Ret {A} (c : bool) (m1 m2 : outcome A) (v1 v2 : A) :
  m1 = Ret v1 -> m2 = Ret v2 ->
  (if c then m1 else m2) = Ret (if c then v1 else v2).
Proof. intros -> ->. destruct c; reflexivity. Qed.

Lemma sum_range_split (f : Z -> Q) (lo mid hi : Z) :
  (lo <= mid + 1)%Z -> (mid <= hi)%Z ->
  Spec.sum_range f lo hi
  == Spec.sum_range f lo mid + Spec.sum_range f (mid + 1) hi.
Proof.
  intros Hlo Hhi.
  remember (Z.to_nat (hi - mid)) as d eqn:Ed. revert hi Hhi Ed.
  induction d as [|d IH]; intros hi Hhi Ed.
  - assert (hi = mid) by lia. subst hi.
    rewrite (sum_range_empty f (mid + 1) mid) by lia. ring.
  - rewrite (sum_range_snoc f lo hi) by lia.
    rewrite (IH (hi - 1)%Z) by lia.
    rewrite (sum_range_snoc f (mid + 1) hi) by lia. ring.
Qed.

Lemma lenL_nonneg (a b r : Z) : (a < b)%Z -> (0 <= Spec.lenL a b r)%Z.
Proof. intros H. unfold Spec.lenL. destruct (Z.gtb_spec a r); lia. Qed.

Lemma lenR_nonneg (a b r : Z) : (a < b)%Z -> (0 <= Spec.lenR a b r)%Z.
Proof. intros H. unfold Spec.lenR. destruct (Z.ltb_spec b r); lia. Qed.

Lemma len_parts (a b r : Z) :
  (a < b)%Z -> (Spec.lenL a b r + Spec.lenR a b r = b - a)%Z.
Proof.
  intros H. unfold Spec.lenL, Spec.lenR.
  destruct (Z.gtb_spec a r), (Z.ltb_spec b r); lia.
Qed.

Section Fractions.
Local Open Scope Q_scope.

Lemma fraction_bounds (l d : Z) :
  (0 <= l <= d)%Z -> (0 < d)%Z -> 0 <= inject_Z l / inject_Z d <= 1.
Proof.
  intros Hl Hd.
  assert (0 < inject_Z d) by (change 0 with (inject_Z 0); rewrite <- Zlt_Qlt; lia).
  assert (0 <= inject_Z l) by (change 0 with (inject_Z 0); rewrite <- Zle_Qle; lia).
  assert (inject_Z l <= inject_Z d) by (rewrite <- Zle_Qle; lia).
  split.
  - apply Qle_shift_div_l; [assumption | lra].
  - apply Qle_shift_div_r; [assumption | lra].
Qed.

End Fractions.

Section Frame.

Variable p : SyncParameters.t.
Hypothesis Hvalid : SyncParameters.valid p.
Local Abbreviation C := (Spec.C p).
Hypothesis HC : 0 < C.
Variable n : Q.
Hypothesis Hn : (1 < n)%Q.
Variable y : Z.
Hypothesis Hy : 0 <= y < C.
Local Open Scope Q_scope.

Lemma Pstep_inter_ok (covers : bool) (k_f k : Z) :
  (1 <= k_f)%Z ->
  ((if covers then k_f else k_f + 1) <= k)%Z ->
  computes (Model.Pstep_inter p (Wvec p) covers k_f y k)
    (Spec.hit p (if covers then k_f else k_f + 1)%Z k y).
Proof.
  intros Hkf Hk. unfold Model.Pstep_inter.
  assert (Hk1 : (1 <= k)%Z) by (destruct covers; lia).
  rewrite (X_ok p) by lia. cbn [bind].
  destruct (valid_pSR_some p Hvalid (Spec.channel p k y)) as (v & Hv & _).
  { apply W_in_chs. lia. }
  unfold map_at. change (Model.Psr p) with (SyncParameters.getPsr p).
  rewrite Hv. cbn [bind]. change (Model.C p) with C.
  rewrite idiv_Ret by (unfold Model.M; destruct covers; lia). cbn [bind].
  rewrite (Pstep_ok p Hvalid) by lia. cbn [bind].
  eexists. split; [reflexivity|].
  unfold Spec.hit, Spec.pe, Spec.pSR, pow. rewrite Hv. cbn [default].
  change (Model.Peb p) with (Spec.pEB p).
  replace (Model.M covers k_f k - 1)%Z
    with (k - (if covers then k_f else k_f + 1))%Z
    by (unfold Model.M; destruct covers; lia).
  apply Qmult_comm.
Qed.

Lemma rem3_bounds (i : Z) : (0 <= Spec.rem3 p i < Spec.Tsf p)%Z.
Proof. apply Z.mod_pos_bound. apply (Tsf_pos p Hvalid). Qed.

Lemma length_part (c : bool) (s e : Z) :
  TimeInterval.length (if c then TimeInterval.empty else TimeInterval.set s e)
  = Ret (if c then 0 else e - s)%Z.
Proof. destruct c; reflexivity. Qed.

Lemma covers_ok (i a b : Z) :
  (1 <= i)%Z ->
  (if negb (Model.B n i) then Ret true
   else
     let* r' := imod ((i - 1) * SyncParameters.getTScan p) (Spec.Tsf p) in
     let* Rf := TimeInterval.make r' (Spec.Tsf p) in
     TimeInterval.isSubsetOf (TimeInterval.set a b) Rf)
  = Ret (Spec.covers3 p n i a b).
Proof.
  intros Hi.
  pose proof (Tsf_pos p Hvalid) as HT.
  pose proof (valid_tScan p Hvalid) as HS.
  pose proof (rem3_bounds (i - 1)) as Hr.
  change (Model.Tscan p) with (SyncParameters.getTScan p).
  change (Model.Tsf p) with (Spec.Tsf p).
  unfold Spec.covers3.
  destruct (Model.B n i); cbn [negb orb]; [|reflexivity].
  rewrite imod_Ret by nia. cbn [bind].
  change (((i - 1) * SyncParameters.getTScan p) mod Spec.Tsf p)%Z
    with (Spec.rem3 p (i - 1)).
  rewrite make_Ret by lia. cbn [bind].
  apply isSubsetOf_set.
Qed.

Lemma first_ok (covers : bool) (k : Z) :
  (1 <= k)%Z ->
  (if covers then Model.Pstep p (Wvec p) k y else Ret 0)
  = Ret (if covers then Spec.Pstep p k y else 0).
Proof.
  intros Hk. destruct covers; [|reflexivity].
  apply (Pstep_ok p Hvalid); lia.
Qed.

Lemma first_hit (covers : bool) (k : Z) :
  (if covers then Spec.Pstep p k y else 0)
  == Spec.sum_range (fun j => Spec.hit p (if covers then k else k + 1)%Z j y)
       (if covers then k else k + 1)%Z k.
Proof.
  destruct covers.
  - rewrite sum_range_snoc by lia.
    rewrite sum_range_empty by lia.
    unfold Spec.hit. rewrite Z.sub_diag, Z.div_0_l, Qpower_0_r by lia. ring.
  - rewrite sum_range_empty by lia. reflexivity.
Qed.

Lemma Plsc_ok (i a b : Z) :
  (0 <= a)%Z -> (a < b)%Z ->
  computes
    (if Model.B n (i + 1) then
       let* IL := TimeInterval.intersection (TimeInterval.set a b)
                    (TimeInterval.set 0 (Spec.rem3 p i)) in
       let* l := TimeInterval.length IL in
       fdiv (inject_Z l) (inject_Z (b - a))
     else Ret 1)
    (Spec.Plsc3 p n i a b).
Proof.
  intros Ha Hab. pose proof (rem3_bounds i) as Hr.
  unfold Spec.Plsc3.
  destruct (Model.B n (i + 1)); [|eexists; split; reflexivity].
  rewrite intersection_set by lia. cbn [bind].
  rewrite length_part. cbn [bind].
  rewrite fdiv_Ret by (apply inject_Z_nonzero; lia).
  eexists. split; [reflexivity|].
  unfold Spec.lenL.
  replace (b <? 0)%Z with false by lia. rewrite orb_false_r.
  rewrite Z.max_l by lia. reflexivity.
Qed.

Lemma fracR_ok (i a b : Z) :
  (0 <= a)%Z -> (a < b)%Z -> (b <= Spec.Tsf p)%Z ->
  computes
    (let* IR := TimeInterval.intersection (TimeInterval.set a b)
                  (TimeInterval.set (Spec.rem3 p i) (Spec.Tsf p)) in
     let* lr := TimeInterval.length IR in
     fdiv (inject_Z lr) (inject_Z (b - a)))
    (Spec.fracR3 p i a b).
Proof.
  intros Ha Hab Hb. pose proof (rem3_bounds i) as Hr.
  unfold Spec.fracR3.
  rewrite intersection_set by lia. cbn [bind].
  rewrite length_part. cbn [bind].
  rewrite fdiv_Ret by (apply inject_Z_nonzero; lia).
  eexists. split; [reflexivity|].
  unfold Spec.lenR.
  replace (a >? Spec.Tsf p)%Z with false by lia. rewrite orb_false_l.
  rewrite Z.min_l by lia. reflexivity.
Qed.

Lemma inter_loop_ok (covers : bool) (k_f k_l : Z) :
  (1 <= k_f)%Z -> (k_f + 1 <= k_l)%Z ->
  computes
    (for_range (k_f + 1) (k_l - 1)
       (fun k sum =>
          let* pi := Model.Pstep_inter p (Wvec p) covers k_f y k in
          Ret (sum + pi))
       0)
    (Spec.sum_range
       (fun k => Spec.hit p (if covers then k_f else k_f + 1)%Z k y)
       (k_f + 1) (k_l - 1)).
Proof.
  intros Hkf Hkl.
  set (k0 := (if covers then k_f else k_f + 1)%Z).
  destruct (for_range_inv
    (fun k sum => sum == Spec.sum_range (fun j => Spec.hit p k0 j y)
                           (k_f + 1) (k - 1))
    (k_f + 1) (k_l - 1)
    (fun k sum =>
       let* pi := Model.Pstep_inter p (Wvec p) covers k_f y k in
       Ret (sum + pi)) 0) as (v & Ev & Hv).
  - lia.
  - rewrite sum_range_empty by lia. reflexivity.
  - intros k sum Hk Hsum.
    destruct (Pstep_inter_ok covers k_f k) as (pi & -> & Hpi);
      [lia | destruct covers; lia |].
    cbn [bind]. eexists. split; [reflexivity|].
    rewrite (sum_range_snoc _ (k_f + 1) (k + 1 - 1)) by lia.
    replace (k + 1 - 1 - 1)%Z with (k - 1)%Z by lia.
    replace (k + 1 - 1)%Z with k by lia.
    rewrite Hsum, Hpi. reflexivity.
  - exists v. split; [exact Ev|].
    replace (k_l - 1 + 1 - 1)%Z with (k_l - 1)%Z in Hv by lia. exact Hv.
Qed.

Lemma array_loop_ok (covers : bool) (k_f k_l start len : Z) (q c1 res0 : Q)
    (arr0 : list Q) :
  (1 <= k_f)%Z -> (k_f + 1 <= k_l)%Z ->
  exists res arr1,
    for_range (k_f + 1) (k_l - 1)
      (fun k '(res, arr) =>
         let* e := Model.Einter p (Wvec p) q covers k_f y start len k in
         let* ps := Model.Psync_inter p (Wvec p) q covers k_f y k in
         Ret ((res + e)%Q, Model.updatePSync k (c1 * ps)%Q arr))
      (res0, arr0) = Ret (res, arr1) /\
    Distribution.total arr1
    == Distribution.total arr0
       + c1 * (q * Spec.sum_range
                     (fun k => Spec.hit p (if covers then k_f else k_f + 1)%Z k y)
                     (k_f + 1) (k_l - 1)) /\
    (0 <= q -> 0 <= c1 -> Distribution.nonneg arr0 -> Distribution.nonneg arr1) /\
    (length arr0 <= length arr1)%nat.
Proof.
  intros Hkf Hkl.
  set (k0 := (if covers then k_f else k_f + 1)%Z).
  destruct (for_range_inv
    (fun k (st : Q * list Q) =>
       Distribution.total (snd st)
       == Distribution.total arr0
          + c1 * (q * Spec.sum_range (fun j => Spec.hit p k0 j y)
                        (k_f + 1) (k - 1)) /\
       (0 <= q -> 0 <= c1 -> Distribution.nonneg arr0 ->
        Distribution.nonneg (snd st)) /\
       (length arr0 <= length (snd st))%nat)
    (k_f + 1) (k_l - 1)
    (fun k '(res, arr) =>
       let* e := Model.Einter p (Wvec p) q covers k_f y start len k in
       let* ps := Model.Psync_inter p (Wvec p) q covers k_f y k in
       Ret ((res + e)%Q, Model.updatePSync k (c1 * ps)%Q arr))
    (res0, arr0)) as ([res arr1] & Ev & Hv).
  - lia.
  - cbn [snd]. rewrite sum_range_empty by lia.
    split; [ring | split; [auto | lia]].
  - intros k [res arr] Hk (Ht & Hnn & Hlen). cbn [snd] in *.
    unfold Model.Einter, Model.Psync_inter.
    destruct (Pstep_inter_ok covers k_f k) as (pi & -> & Hpi);
      [lia | destruct covers; lia |].
    cbn [bind]. eexists. split; [reflexivity|]. cbn [snd].
    split; [|split].
    + rewrite updatePSync_total by lia. rewrite Ht.
      rewrite (sum_range_snoc _ (k_f + 1) (k + 1 - 1)) by lia.
      replace (k + 1 - 1 - 1)%Z with (k - 1)%Z by lia.
      replace (k + 1 - 1)%Z with k by lia.
      rewrite Hpi. fold k0. ring.
    + intros Hq Hc Harr. apply updatePSync_nonneg; [|auto].
      rewrite Hpi.
      assert (0 <= Spec.hit p k0 k y)
        by (apply (hit_nonneg p Hvalid HC); unfold k0; destruct covers; lia).
      apply Qmult_le_0_compat; [assumption|].
      apply Qmult_le_0_compat; assumption.
    + etransitivity; [exact Hlen | apply updatePSync_length].
  - exists res, arr1. split; [exact Ev|]. cbn [snd] in Hv.
    replace (k_l - 1 + 1 - 1)%Z with (k_l - 1)%Z in Hv by lia. exact Hv.
Qed.

Lemma Elast_returns (Zi : TimeInterval.t) (x : Q) (k : Z) :
  (Zi = TimeInterval.empty \/ exists s e, Zi = TimeInterval.set s e) ->
  exists v,
    (if negb (TimeInterval.isEmpty Zi) then
       let* zs := value (TimeInterval.getStart Zi) in
       let* zl := TimeInterval.length Zi in
       Ret (seconds (x * Model.step_time3 p k zs zl))
     else Ret 0) = Ret v.
Proof.
  intros [-> | (s & e & ->)]; cbn; eexists; reflexivity.
Qed.

Lemma part_L (a b r : Z) :
  (0 <= a)%Z -> (a < b)%Z -> (0 <= r)%Z ->
  TimeInterval.intersection (TimeInterval.set a b) (TimeInterval.set 0 r)
  = Ret (if (a >? r)%Z then TimeInterval.empty
         else TimeInterval.set a (Z.min b r)).
Proof.
  intros Ha Hab Hr. rewrite intersection_set by lia.
  replace (b <? 0)%Z with false by lia. rewrite orb_false_r.
  rewrite Z.max_l by lia. reflexivity.
Qed.

Lemma part_R (a b r e : Z) :
  (a < b)%Z -> (b <= e)%Z -> (r <= e)%Z ->
  TimeInterval.intersection (TimeInterval.set a b) (TimeInterval.set r e)
  = Ret (if (b <? r)%Z then TimeInterval.empty
         else TimeInterval.set (Z.max a r) b).
Proof.
  intros Hab Hb Hr. rewrite intersection_set by lia.
  replace (a >? e)%Z with false by lia. rewrite orb_false_l.
  rewrite Z.min_l by lia. reflexivity.
Qed.

Lemma Plsc3_bounds (i a b : Z) :
  (a < b)%Z -> 0 <= Spec.Plsc3 p n i a b <= 1.
Proof.
  intros H. unfold Spec.Plsc3. destruct (Model.B n (i + 1)); [|lra].
  pose proof (lenL_nonneg a b (Spec.rem3 p i) H).
  pose proof (lenR_nonneg a b (Spec.rem3 p i) H).
  pose proof (len_parts a b (Spec.rem3 p i) H).
  apply fraction_bounds; lia.
Qed.

Lemma fracR3_bounds (i a b : Z) :
  (a < b)%Z -> 0 <= Spec.fracR3 p i a b <= 1.
Proof.
  intros H. unfold Spec.fracR3.
  pose proof (lenL_nonneg a b (Spec.rem3 p i) H).
  pose proof (lenR_nonneg a b (Spec.rem3 p i) H).
  pose proof (len_parts a b (Spec.rem3 p i) H).
  apply fraction_bounds; lia.
Qed.

Lemma parts_one (i a b : Z) :
  (a < b)%Z -> Model.B n (i + 1) = true ->
  Spec.Plsc3 p n i a b + Spec.fracR3 p i a b == 1.
Proof.
  intros H HB. unfold Spec.Plsc3, Spec.fracR3. rewrite HB.
  pose proof (len_parts a b (Spec.rem3 p i) H) as E.
  assert (~ inject_Z (b - a) == 0) by (apply inject_Z_nonzero; lia).
  assert (E' : inject_Z (b - a)
               == inject_Z (Spec.lenL a b (Spec.rem3 p i))
                  + inject_Z (Spec.lenR a b (Spec.rem3 p i)))
    by (rewrite <- E, inject_Z_plus; reflexivity).
  set (d := inject_Z (b - a)) in *.
  set (l := inject_Z (Spec.lenL a b (Spec.rem3 p i))) in *.
  set (r := inject_Z (Spec.lenR a b (Spec.rem3 p i))) in *.
  assert (El : l == d - r) by lra. rewrite El. field. assumption.
Qed.

Lemma bind_computes {A} (m : outcome Q) (x : Q) (k : Q -> outcome A)
    (P : outcome A -> Prop) :
  computes m x -> (forall v, v == x -> P (k v)) -> P (bind m k).
Proof. intros (v & -> & Hv) H. cbn [bind]. auto. Qed.

Lemma frame_ok (q : Q) (i a b : Z) (arr : list Q) :
  (1 <= i)%Z -> (0 <= a)%Z -> (a < b)%Z -> (b <= Spec.Tsf p)%Z ->
  match Model.frame p (Wvec p) n q i (TimeInterval.set a b) y arr with
  | Ret (Rl, Zi, QC, QNC, res, arr1) =>
      Rl = TimeInterval.set (Spec.rem3 p i) (Spec.Tsf p) /\
      Zi = (if Model.B n (i + 1)
            then (if (a >? Spec.rem3 p i)%Z then TimeInterval.empty
                  else TimeInterval.set a (Z.min b (Spec.rem3 p i)))
            else TimeInterval.set a b) /\
      QC == q * Spec.Plsc3 p n i a b * (1 - Spec.all3 p n i a b y) /\
      QNC == q * Spec.fracR3 p i a b * (1 - Spec.head3 p n i a b y) /\
      Distribution.total arr1
      == Distribution.total arr
         + 1 / inject_Z C
           * (q * (Spec.head3 p n i a b y
                   + Spec.Plsc3 p n i a b
                     * Spec.hit p (Spec.first3 p n i a b) (Spec.k_l3 n i) y)) /\
      (0 <= q -> Distribution.nonneg arr -> Distribution.nonneg arr1) /\
      (length arr <= length arr1)%nat /\
      (2 <= length arr1)%nat
  | _ => False
  end.
Proof.
  intros Hi Ha Hab Hb.
  pose proof (Tsf_pos p Hvalid) as HT.
  pose proof (valid_tScan p Hvalid) as HS.
  pose proof (rem3_bounds i) as Hr.
  pose proof (k_f3_pos n Hn i Hi) as Hkf.
  pose proof (k_l3_after n Hn i Hi) as Hkl.
  unfold Model.frame.
  change (Model.Tscan p) with (SyncParameters.getTScan p).
  change (Model.Tsf p) with (Spec.Tsf p).
  rewrite imod_Ret by nia. cbn [bind].
  change ((i * SyncParameters.getTScan p) mod Spec.Tsf p)%Z with (Spec.rem3 p i).
  rewrite make_Ret by lia. cbn [bind].
  rewrite make_Ret by lia. cbn [bind].
  change (TimeInterval.mk (Some a) (Some b)) with (TimeInterval.set a b).
  rewrite (if_Ret _ _ _ _ _ (part_L a b (Spec.rem3 p i) Ha Hab (proj1 Hr)) eq_refl).
  cbn [bind].
  change (if Model.B n i then Qceiling (inject_Z (i - 1) * n)
          else Qfloor (inject_Z (i - 1) * n + 1)) with (Spec.k_f3 n i).
  change (Qceiling (inject_Z i * n)) with (Spec.k_l3 n i).
  rewrite (covers_ok i a b Hi). cbn [bind].
  rewrite first_ok by lia. cbn [bind].
  cbn [value TimeInterval.getStart TimeInterval.set TimeInterval.start_].
  change (TimeInterval.mk (Some a) (Some b)) with (TimeInterval.set a b).
  rewrite length_set. cbn [bind].
  destruct (Plsc_ok i a b Ha Hab) as (Plsc & EPlsc & HPlsc).
  rewrite EPlsc. cbn [bind]. clear EPlsc.
  set (Zi := if Model.B n (i + 1) then _ else _).
  set (covers := Spec.covers3 p n i a b).
  set (k_f := Spec.k_f3 n i) in *. set (k_l := Spec.k_l3 n i) in *.
  assert (Hk0 : Spec.first3 p n i a b = if covers then k_f else (k_f + 1)%Z)
    by reflexivity.
  set (k0 := Spec.first3 p n i a b) in *.
  replace (Model.M covers k_f (k_l - 1)) with (Model.M covers k_f k_l - 1)%Z
    by (unfold Model.M; destruct covers; lia).
  change (let* ch := Model.X p (Wvec p) k_l y in
          let* psr := map_at (Model.Psr p) ch in
          let* e := idiv (Model.M covers k_f k_l - 1) (Model.C p) in
          let* ps := Model.Pstep p (Wvec p) k_l y in
          Ret (pow (1 - Model.Peb p * psr) e * ps))
    with (Model.Pstep_inter p (Wvec p) covers k_f y k_l).
  destruct (Pstep_inter_ok covers k_f k_l) as (Plast & EPlast & HPlast);
    [lia | destruct covers; lia |].
  rewrite <- Hk0 in HPlast.
  rewrite EPlast. cbn [bind]. clear EPlast.
  destruct (Elast_returns Zi (q * Plsc * Plast) k_l) as (Elast & EElast).
  { unfold Zi. destruct (Model.B n (i + 1)); [destruct (a >? Spec.rem3 p i)%Z|];
      eauto. }
  rewrite EElast. cbn [bind]. clear EElast.
  destruct (inter_loop_ok covers k_f k_l Hkf Hkl) as (sm & Esm & Hsm).
  rewrite Esm. cbn [bind]. clear Esm. rewrite <- Hk0 in Hsm.
  destruct (fracR_ok i a b Ha Hab Hb) as (fr & Efr & Hfr).
  rewrite part_R by lia. cbn [bind].
  rewrite part_R in Efr by lia. cbn [bind] in Efr.
  rewrite length_part in *. cbn [bind] in *.
  rewrite Efr. cbn [bind]. clear Efr.
  change (Model.C p) with C.
  rewrite fdiv_Ret by (apply inject_Z_nonzero; lia). cbn [bind].
  match goal with
  | |- context [for_range _ _ _ (?r0, ?a0)] =>
      destruct (array_loop_ok covers k_f k_l a (b - a) q (1 / inject_Z C) r0 a0
                  Hkf Hkl) as (res & arr1 & Earr & Ht & Hnn & Hlen)
  end.
  rewrite Earr. cbn [bind]. clear Earr. rewrite <- Hk0 in Ht.
  pose proof (first_hit covers k_f) as Hfirst. rewrite <- Hk0 in Hfirst.
  assert (Hhead : Spec.head3 p n i a b y
                  == (if covers then Spec.Pstep p k_f y else 0) + sm).
  { unfold Spec.head3. fold k0 k_l.
    rewrite (sum_range_split _ k0 k_f (k_l - 1)) by (destruct covers; lia).
    rewrite Hfirst, Hsm. reflexivity. }
  assert (Hall : Spec.all3 p n i a b y == Spec.head3 p n i a b y + Plast).
  { unfold Spec.all3, Spec.head3. fold k0 k_l.
    rewrite (sum_range_snoc _ k0 k_l) by (destruct covers; lia).
    rewrite HPlast. reflexivity. }
  assert (Hc : 0 <= 1 / inject_Z C).
  { apply Qle_shift_div_l; [change 0 with (inject_Z 0); rewrite <- Zlt_Qlt; lia|lra]. }
  assert (Hf0 : 0 <= (if covers then Spec.Pstep p k_f y else 0)).
  { destruct covers; [apply (Pstep_bounds p Hvalid); lia | lra]. }
  split; [reflexivity|]. split; [reflexivity|].
  split; [rewrite Hall, Hhead, HPlsc; ring|].
  split; [rewrite Hhead, Hfr; ring|].
  split; [|split].
  - rewrite updatePSync_total by lia. rewrite Ht.
    rewrite updatePSync_total by lia.
    rewrite Hhead, Hsm, HPlsc, HPlast. ring.
  - intros Hq Harr. apply updatePSync_nonneg.
    + rewrite HPlsc, HPlast.
      pose proof (Plsc3_bounds i a b Hab) as [HP _].
      assert (0 <= Spec.hit p k0 k_l y)
        by (apply (hit_nonneg p Hvalid HC); destruct covers; lia).
      apply Qmult_le_0_compat; [exact Hc|].
      apply Qmult_le_0_compat; [apply Qmult_le_0_compat|]; assumption.
    + apply Hnn; try assumption.
      apply updatePSync_nonneg; [|assumption].
      apply Qmult_le_0_compat; [exact Hc|].
      apply Qmult_le_0_compat; assumption.
  - split.
    + etransitivity; [apply updatePSync_length|].
      etransitivity; [exact Hlen | apply updatePSync_length].
    + match type of Hlen with
      | (length (Model.updatePSync ?k ?x ?l) <= _)%nat =>
          pose proof (updatePSync_grows k x l ltac:(lia)) as G1
      end.
      match goal with
      | |- (2 <= length (Model.updatePSync ?k ?x ?l))%nat =>
          pose proof (updatePSync_grows k x l ltac:(lia)) as G2
      end.
      lia.
Qed.

End Frame.

(** ** Case 3: the recursion conserves the probability *)

Section Recursion.
Local Open Scope Q_scope.
Import Distribution.

Variable p : SyncParameters.t.
Hypothesis Hvalid : SyncParameters.valid p.
Local Abbreviation C := (Spec.C p).
Hypothesis HC : (0 < C)%Z.
Variable n : Q.
Hypothesis Hn : 1 < n.
Variable y : Z.
Hypothesis Hy : (0 <= y < C)%Z.

Lemma all3_bounds (i a b : Z) : 0 <= Spec.all3 p n i a b y <= 1.
Proof. apply (scan_period_bounds p Hvalid HC). Qed.

Lemma head3_bounds (i a b : Z) : 0 <= Spec.head3 p n i a b y <= 1.
Proof. apply (scan_period_bounds p Hvalid HC). Qed.

Lemma live_branch (q : Q) (I : TimeInterval.t) :
  Spec.branch p q I ->
  TimeInterval.isEmpty I || Qltb q (pow 10 (-9)) = false ->
  exists a b, I = TimeInterval.set a b /\ (0 <= a)%Z /\ (a < b)%Z /\
              (b <= Spec.Tsf p)%Z /\ (1 # 1000000000) <= q.
Proof.
  intros (Hq & HI) Hc. apply orb_false_iff in Hc as (HE & Hlt).
  apply Qltb_false in Hlt. rewrite pow_10_9 in Hlt.
  destruct HI as [-> | (a & b & -> & Hab & Hb & Hz)]; [discriminate|].
  exists a, b. repeat split; try lia; [|assumption].
  destruct (Z.eq_dec a b) as [E|E]; [|lia].
  apply Hz in E. lra.
Qed.

Lemma branch_C (q QC : Q) (i a b : Z) :
  (1 <= i)%Z -> (0 <= a)%Z -> (a < b)%Z -> (b <= Spec.Tsf p)%Z -> 0 <= q ->
  QC == q * Spec.Plsc3 p n i a b * (1 - Spec.all3 p n i a b y) ->
  Spec.branch p QC
    (if Model.B n (i + 1)
     then (if (a >? Spec.rem3 p i)%Z then TimeInterval.empty
           else TimeInterval.set a (Z.min b (Spec.rem3 p i)))
     else TimeInterval.set a b).
Proof.
  intros Hi Ha Hab Hb Hq HQC.
  pose proof (Plsc3_bounds p n i a b Hab) as [HP _].
  pose proof (all3_bounds i a b) as [_ H1].
  split.
  - rewrite HQC. apply Qmult_le_0_compat; [apply Qmult_le_0_compat|]; lra.
  - unfold Spec.Plsc3, Spec.lenL in HQC.
    destruct (Model.B n (i + 1)).
    + destruct (Z.gtb_spec a (Spec.rem3 p i)) as [Hr|Hr]; [left; reflexivity|].
      right. exists a, (Z.min b (Spec.rem3 p i)).
      repeat split; try lia.
      intros E. rewrite HQC. rewrite <- E.
      replace (a - a)%Z with 0%Z by lia. unfold Qdiv. change (inject_Z 0) with 0. ring.
    + right. exists a, b. repeat split; lia.
Qed.

Lemma branch_NC (q QNC : Q) (i a b : Z) :
  (1 <= i)%Z -> (0 <= a)%Z -> (a < b)%Z -> (b <= Spec.Tsf p)%Z -> 0 <= q ->
  QNC == q * Spec.fracR3 p i a b * (1 - Spec.head3 p n i a b y) ->
  Spec.branch p QNC
    (if (b <? Spec.rem3 p i)%Z then TimeInterval.empty
     else TimeInterval.set (Z.max a (Spec.rem3 p i)) b).
Proof.
  intros Hi Ha Hab Hb Hq HQ.
  pose proof (fracR3_bounds p i a b Hab) as [HP _].
  pose proof (head3_bounds i a b) as [_ H1].
  split.
  - rewrite HQ. apply Qmult_le_0_compat; [apply Qmult_le_0_compat|]; lra.
  - unfold Spec.fracR3, Spec.lenR in HQ.
    destruct (Z.ltb_spec b (Spec.rem3 p i)) as [Hr|Hr]; [left; reflexivity|].
    right. exists (Z.max a (Spec.rem3 p i)), b.
    repeat split; try lia.
    intros E. rewrite HQ. rewrite E.
    replace (b - b)%Z with 0%Z by lia. unfold Qdiv. change (inject_Z 0) with 0. ring.
Qed.

Lemma all3_last (i a b : Z) :
  (1 <= i)%Z ->
  Spec.all3 p n i a b y
  == Spec.head3 p n i a b y
     + Spec.hit p (Spec.first3 p n i a b) (Spec.k_l3 n i) y.
Proof.
  intros Hi. pose proof (k_l3_after n Hn i Hi) as Hkl.
  unfold Spec.all3, Spec.head3.
  rewrite (sum_range_snoc _ (Spec.first3 p n i a b) (Spec.k_l3 n i)).
  - reflexivity.
  - unfold Spec.first3. destruct (Spec.covers3 p n i a b); lia.
Qed.

Lemma inv_C_nonneg : 0 <= 1 / inject_Z C.
Proof.
  apply Qle_shift_div_l; [|lra].
  change 0 with (inject_Z 0). rewrite <- Zlt_Qlt. lia.
Qed.

Lemma recursiveCalc_mass (fuel : nat) :
  forall (q : Q) (i : Z) (I : TimeInterval.t) (arr : list Q) (r : Q)
         (arr' : list Q),
    (1 <= i)%Z -> Spec.branch p q I ->
    Model.recursiveCalc p (Wvec p) n fuel q i I y arr = Ret (r, arr') ->
    total arr' <= total arr + 1 / inject_Z C * q /\
    (nonneg arr -> nonneg arr') /\
    (length arr <= length arr')%nat /\
    (TimeInterval.isEmpty I || Qltb q (pow 10 (-9)) = false ->
     (2 <= length arr')%nat).
Proof.
  pose proof inv_C_nonneg as Hc.
  induction fuel as [|fuel IH]; intros q i I arr r arr' Hi Hbr H.
  - cbn [Model.recursiveCalc] in H.
    destruct (TimeInterval.isEmpty I || Qltb q (pow 10 (-9))); [|discriminate].
    injection H as <- <-. destruct Hbr as [Hq _].
    split; [|split; [auto|split; [lia|discriminate]]].
    assert (0 <= 1 / inject_Z C * q) by (apply Qmult_le_0_compat; assumption).
    lra.
  - cbn [Model.recursiveCalc] in H.
    destruct (TimeInterval.isEmpty I || Qltb q (pow 10 (-9))) eqn:Hcond.
    { injection H as <- <-. destruct Hbr as [Hq _].
      split; [|split; [auto|split; [lia|discriminate]]].
      assert (0 <= 1 / inject_Z C * q) by (apply Qmult_le_0_compat; assumption).
      lra. }
    destruct (live_branch q I Hbr Hcond) as (a & b & -> & Ha & Hab & Hb & Hq1).
    assert (Hq : 0 <= q) by lra.
    pose proof (frame_ok p Hvalid HC n Hn y Hy q i a b arr Hi Ha Hab Hb) as F.
    destruct (Model.frame p (Wvec p) n q i (TimeInterval.set a b) y arr)
      as [[[[[[Rl Zi] QC] QNC] res] arr1]| |]; try contradiction.
    destruct F as (-> & -> & HQC & HQNC & Ht & Hnn & Hlen & Hlen2).
    cbn [bind] in H.
    apply bind_Ret_inv in H as ([r1 arr2] & H1 & H).
    apply IH in H1 as (Ht1 & Hnn1 & Hlen1 & _);
      [|lia|apply (branch_C q QC i a b); assumption].
    pose proof (Plsc3_bounds p n i a b Hab) as HP.
    pose proof (fracR3_bounds p i a b Hab) as HR.
    pose proof (all3_bounds i a b) as HA.
    pose proof (head3_bounds i a b) as HH.
    pose proof (all3_last i a b Hi) as HL.
    set (c := 1 / inject_Z C) in *.
    set (h := Spec.head3 p n i a b y) in *.
    set (l := Spec.hit p (Spec.first3 p n i a b) (Spec.k_l3 n i) y) in *.
    set (A := Spec.all3 p n i a b y) in *.
    set (P := Spec.Plsc3 p n i a b) in *.
    set (R := Spec.fracR3 p i a b) in *.
    destruct (Model.B n (i + 1)) eqn:HB.
    + rewrite (part_R a b) in H by (pose proof (rem3_bounds p Hvalid i); lia).
      cbn [bind] in H.
      apply bind_Ret_inv in H as ([r2 arr3] & H2 & H).
      injection H as <- <-.
      apply IH in H2 as (Ht2 & Hnn2 & Hlen3 & _);
        [|lia|apply (branch_NC q QNC i a b); assumption].
      split; [|split; [auto|split; [lia|intros _; lia]]].
      pose proof (parts_one p n i a b Hab HB) as H1. fold P R in H1.
      assert (ER : R == 1 - P) by lra.
      assert (E : c * (q * (h + P * l)) + c * QC + c * QNC == c * q)
        by (rewrite HQC, HQNC, HL, ER; ring).
      lra.
    + injection H as <- <-.
      split; [|split; [auto|split; [lia|intros _; lia]]].
      assert (EP : P == 1) by (unfold P, Spec.Plsc3; rewrite HB; reflexivity).
      assert (E : c * (q * (h + P * l)) + c * QC == c * q)
        by (rewrite HQC, HL, EP; ring).
      lra.
Qed.

End Recursion.

Section Recorded.
Local Open Scope Q_scope.
Import Distribution.

Lemma total_nonneg (l : list Q) : nonneg l -> 0 <= total l.
Proof.
  induction 1 as [|x l Hx Hl IH]; cbn; [lra|].
  change (foldr Qplus 0 l) with (total l). lra.
Qed.

(** The entries of a vector from the position [s] on. *)
Lemma partial_total (l : list Q) (m : nat) :
  nonneg l ->
  forall s : nat,
    Spec.sumQ (fun k => nth (Z.to_nat k) l 0) (Z.of_nat s) m <= total (drop s l).
Proof.
  intros Hl. induction m as [|m IH]; intros s; cbn [Spec.sumQ].
  - apply total_nonneg. apply Forall_drop. assumption.
  - rewrite Nat2Z.id. specialize (IH (S s)).
    replace (Z.of_nat s + 1)%Z with (Z.of_nat (S s)) by lia.
    destruct (l !! s) as [x|] eqn:E.
    + rewrite (drop_S l x s E). cbn [total foldr].
      change (foldr Qplus 0 (drop (S s) l)) with (total (drop (S s) l)).
      rewrite (nth_lookup_Some l s 0 x E). lra.
    + apply lookup_ge_None in E.
      rewrite nth_overflow by lia.
      rewrite drop_ge in * by lia. lra.
Qed.

Lemma array_cumulative (l : list Q) (k : Z) :
  nonneg l ->
  Spec.cumulative (fun k => nth (Z.to_nat k) l 0) k <= total l.
Proof.
  intros Hl. unfold Spec.cumulative, Spec.sum_range.
  pose proof (partial_total l (Z.to_nat (k - 1 + 1)) Hl 1) as H.
  change (Z.of_nat 1) with 1%Z in H.
  destruct l as [|x l]; [rewrite drop_nil in H; exact H|].
  cbn [drop] in H. cbn [total foldr]. change (foldr Qplus 0 l) with (total l).
  apply Forall_cons in Hl as [Hx _]. rewrite drop_0 in H. lra.
Qed.

Lemma vector_at_nth (l : list Q) (k : Z) :
  (0 <= k < Z.of_nat (length l))%Z ->
  vector_at l k = Ret (nth (Z.to_nat k) l 0).
Proof.
  intros Hk. unfold vector_at.
  destruct (Z.ltb_spec k 0); [lia|].
  destruct (Z.leb_spec (Z.of_nat (length l)) k); [lia|]. cbn [orb].
  destruct (l !! Z.to_nat k) as [x|] eqn:E.
  - rewrite (nth_lookup_Some l _ 0 x E). reflexivity.
  - apply lookup_ge_None in E. lia.
Qed.

(** The prefix sums of a vector of probabilities. *)
Lemma array_cdf (arr cdf : list Q) :
  nonneg arr -> total arr <= 1 ->
  Model.cdf_loop (fun k => vector_at arr k) (Z.of_nat (length arr) - 1) [0]
  = Ret cdf ->
  recorded_ok cdf.
Proof.
  intros Hnn Ht H.
  set (P := fun k : Z => nth (Z.to_nat k) arr 0).
  destruct (le_lt_dec (length arr) 1) as [Hlen|Hlen].
  - exfalso. unfold Model.cdf_loop in H.
    replace (Z.to_nat (Z.max 1 (Z.of_nat (length arr) - 1))) with 1%nat in H by lia.
    cbn [for_loop] in H. unfold vector_at in H at 1.
    destruct (Z.leb_spec (Z.of_nat (length arr)) 1) as [_|Hx]; [|lia].
    rewrite orb_true_r in H. cbn in H. discriminate.
  - destruct (cdf_loop_records (fun k => vector_at arr k) P
                (Z.of_nat (length arr) - 1)) as (cdf' & E & HF).
    + intros k Hk. exists (P k). split; [|reflexivity].
      apply vector_at_nth. lia.
    + rewrite E in H. injection H as <-.
      apply (recorded_cdf_ok P (Z.max 1 (Z.of_nat (length arr) - 1)) cdf');
        [| |exact HF].
      * intros k Hk. unfold P.
        destruct (le_lt_dec (length arr) (Z.to_nat k)) as [Hge|Hlt].
        -- rewrite nth_overflow by lia. lra.
        -- unfold nonneg in Hnn. rewrite Forall_forall in Hnn.
           apply Hnn. apply list_elem_of_In. apply nth_In. lia.
      * intros k Hk. eapply Qle_trans; [|exact Ht].
        apply array_cumulative. assumption.
Qed.

End Recorded.

Section Case3Loop.
Local Open Scope Q_scope.
Import Distribution.

Variable p : SyncParameters.t.
Hypothesis Hvalid : SyncParameters.valid p.
Local Abbreviation C := (Spec.C p).
Variable n : Q.
Hypothesis Hn : 1 < n.

Lemma first_branch : Spec.branch p 1 (TimeInterval.set 0 (Spec.Tsf p)).
Proof.
  pose proof (Tsf_pos p Hvalid).
  split; [lra|]. right. exists 0%Z, (Spec.Tsf p).
  repeat split; lia.
Qed.

Lemma case3_loop_mass (fuel : nat) (T : Q) (arr : list Q) :
  Model.case3_loop p (Wvec p) n fuel = Ret (T, arr) ->
  nonneg arr /\ total arr <= 1.
Proof.
  unfold Model.case3_loop, for_range. intros H.
  pose proof (Tsf_pos p Hvalid) as HT.
  apply (for_loop_post
    (fun y (st : Q * list Q) =>
       nonneg (snd st) /\ total (snd st) <= inject_Z y * (1 / inject_Z C))) in H.
  - cbn [snd] in H. destruct H as [Hnn Ht]. split; [assumption|].
    destruct (Z.leb_spec (Model.C p) 0) as [Hc|Hc].
    + replace (Z.to_nat (Model.C p - 1 - 0 + 1)) with 0%nat in Ht by lia.
      change (0 + Z.of_nat 0)%Z with 0%Z in Ht. change (inject_Z 0) with 0 in Ht.
      rewrite Qmult_0_l in Ht. lra.
    + replace (0 + Z.of_nat (Z.to_nat (Model.C p - 1 - 0 + 1)))%Z with C in Ht
        by (change (Model.C p) with C in *; lia).
      assert (E : inject_Z C * (1 / inject_Z C) == 1)
        by (field; apply inject_Z_nonzero; change (Model.C p) with C in *; lia).
      lra.
  - cbn [snd]. split.
    + constructor; [lra | constructor].
    + change (inject_Z 0) with 0. rewrite Qmult_0_l.
      unfold total. cbn [foldr]. lra.
  - intros y [T0 a0] [T1 a1] Hy (Hnn & Ht) Hb. cbn [snd] in *.
    change (Model.C p) with C in *.
    assert (HC : (0 < C)%Z) by lia.
    rewrite fdiv_Ret in Hb by (apply inject_Z_nonzero; lia). cbn [bind] in Hb.
    change (Model.Tsf p) with (Spec.Tsf p) in Hb.
    rewrite make_Ret in Hb by lia. cbn [bind] in Hb.
    apply bind_Ret_inv in Hb as ([r arr2] & Hr & Hb). injection Hb as _ <-.
    apply (recursiveCalc_mass p Hvalid HC n Hn y ltac:(lia)) in Hr
      as (Hm & Hn2 & _ & _); [|lia|apply first_branch].
    split; [auto|]. rewrite inject_Z_plus. change (inject_Z 1) with 1.
    lra.
Qed.

End Case3Loop.

Section Analytic.
Local Open Scope Q_scope.
Import Distribution.

Variable p : SyncParameters.t.
Hypothesis Hvalid : SyncParameters.valid p.
Local Abbreviation C := (Spec.C p).

Lemma series_dist (n : Z) :
  (1 <= n)%Z ->
  (forall k, (1 <= k)%Z -> 0 <= Spec.Psync2 p n k) /\
  (forall k, (0 <= k)%Z -> Spec.cumulative (Spec.Psync2 p n) k <= 1).
Proof.
  intros Hn. destruct (Z.ltb_spec 0 C) as [HC|HC].
  - split.
    + intros k Hk. apply (Psync2_nonneg p Hvalid HC n Hn k Hk).
    + intros k Hk. apply (cumulative_bounds p Hvalid HC n Hn k Hk).
  - assert (Z0 : forall k, Spec.Psync2 p n k == 0).
    { intros k. unfold Spec.Psync2. rewrite sum_range_empty by lia. reflexivity. }
    split.
    + intros k _. rewrite Z0. lra.
    + intros k _. unfold Spec.cumulative.
      rewrite (sum_range_ext _ (fun _ => 0)) by (intros; apply Z0).
      unfold Spec.sum_range. rewrite sumQ_const. lra.
Qed.

Lemma series_recorded (Psync : Z -> outcome Q) (P : Z -> Q) (fuel : nat)
    (sum : Q) (K : Z) (cdf : list Q) :
  (forall k, (1 <= k)%Z -> computes (Psync k) (P k)) ->
  (forall k, (1 <= k)%Z -> 0 <= P k) ->
  (forall k, (0 <= k)%Z -> Spec.cumulative P k <= 1) ->
  Model.sumOfExpectedValueInCases1and2 p Psync fuel = Ret (sum, K) ->
  Model.cdf_loop Psync K [0] = Ret cdf ->
  recorded_ok cdf.
Proof.
  intros Hc Hnn Hone Hs Hl.
  unfold Model.sumOfExpectedValueInCases1and2 in Hs.
  apply sum_loop_result in Hs as [_ HK].
  assert (H1 : (1 <= K)%Z) by (apply HK; vm_compute; reflexivity).
  destruct (cdf_loop_ok Psync P Hc K H1) as (cdf' & E & HF).
  rewrite E in Hl. injection Hl as <-.
  apply (recorded_cdf_ok P K cdf'); [assumption | | assumption].
  intros k Hk. apply Hone. lia.
Qed.

Lemma ratio_above :
  (Spec.Tsf p <= SyncParameters.getTScan p)%Z ->
  ((SyncParameters.getTScan p) mod (Spec.Tsf p) <> 0)%Z ->
  1 < inject_Z (SyncParameters.getTScan p) / inject_Z (Spec.Tsf p).
Proof.
  intros Hle Hr. pose proof (Tsf_pos p Hvalid) as HT.
  assert (Hlt : (Spec.Tsf p < SyncParameters.getTScan p)%Z).
  { destruct (Z.eq_dec (Spec.Tsf p) (SyncParameters.getTScan p)) as [E|E]; [|lia].
    rewrite <- E in Hr. rewrite Z.mod_same in Hr by lia. contradiction. }
  apply Qlt_shift_div_l.
  - change 0 with (inject_Z 0). rewrite <- Zlt_Qlt. lia.
  - rewrite Qmult_1_l. rewrite <- Zlt_Qlt. lia.
Qed.

Lemma calculate_recorded (fuel : nat) (results r : Model.Results) :
  Model.fresh results ->
  Model.calculate p fuel results = Ret r ->
  recorded_ok (Model.cdf_ r).
Proof.
  intros Hfresh H. unfold Model.calculate in H. rewrite Hfresh in H.
  cbn [app] in H.
  apply bind_Ret_inv in H as ([[Tavg max_step] Psync] & Hcases & H).
  apply bind_Ret_inv in H as (cdf & Hcdf & H). injection H as <-.
  cbn [Model.cdf_].
  pose proof (Tsf_pos p Hvalid) as HT.
  pose proof (valid_tScan p Hvalid) as HS.
  unfold Model.cases in Hcases. rewrite (W_ok p Hvalid) in Hcases.
  cbn [bind] in Hcases.
  change (Model.Tscan p) with (SyncParameters.getTScan p) in Hcases.
  change (Model.Tsf p) with (Spec.Tsf p) in Hcases.
  destruct (Z.ltb_spec (SyncParameters.getTScan p) (Spec.Tsf p)) as [Hlt|Hge].
  - apply bind_Ret_inv in Hcases as ([sum K] & Hsum & Hcases).
    injection Hcases as <- <- <-.
    destruct (series_dist 1 ltac:(lia)) as [Hnn Hone].
    apply (series_recorded (Model.Psync1 p (Wvec p)) (Spec.Psync1 p) fuel sum
             K cdf); try assumption.
    + intros k Hk. apply (Psync1_ok p Hvalid k Hk).
    + intros k Hk. rewrite Psync1_is_Psync2. apply Hnn. assumption.
    + intros k Hk.
      rewrite (cumulative_ext _ (Spec.Psync2 p 1))
        by (intros; apply Psync1_is_Psync2).
      apply Hone. assumption.
  - rewrite imod_Ret in Hcases by lia. cbn [bind] in Hcases.
    destruct (Z.eqb_spec ((SyncParameters.getTScan p) mod (Spec.Tsf p)) 0)
      as [Hz|Hnz].
    + rewrite idiv_Ret in Hcases by lia. cbn [bind] in Hcases.
      apply bind_Ret_inv in Hcases as ([sum K] & Hsum & Hcases).
      injection Hcases as <- <- <-.
      set (n := (SyncParameters.getTScan p / Spec.Tsf p)%Z) in *.
      assert (Hn : (1 <= n)%Z).
      { unfold n. apply Z.div_le_lower_bound; lia. }
      destruct (series_dist n Hn) as [Hnn Hone].
      apply (series_recorded (Model.Psync2 p (Wvec p) n) (Spec.Psync2 p n) fuel
               sum K cdf); try assumption.
      intros k Hk. apply (Psync2_ok p Hvalid n Hn k Hk).
    + rewrite fdiv_Ret in Hcases by (apply inject_Z_nonzero; lia).
      cbn [bind] in Hcases.
      apply bind_Ret_inv in Hcases as ([T arr] & Hloop & Hcases).
      injection Hcases as <- <- <-.
      apply (case3_loop_mass p Hvalid _ (ratio_above Hge Hnz)) in Hloop
        as [Hnn Ht].
      apply (array_cdf arr cdf Hnn Ht). exact Hcdf.
Qed.

End Analytic.

(** ** Case 3: the recursion ends *)

Section Case3Decay.
Local Open Scope Q_scope.

Variable p : SyncParameters.t.
Hypothesis Hvalid : SyncParameters.valid p.
Local Abbreviation C := (Spec.C p).
Hypothesis HC : (0 < C)%Z.
Variable n : Q.
Hypothesis Hn : 1 < n.
Variable j0 : Z.
Hypothesis Hj0 : (1 <= j0 <= C)%Z.
Hypothesis Hgood : 0 < Spec.pEB p * Spec.pSR p (Spec.W p j0).
Variable y : Z.
Hypothesis Hy : (0 <= y < C)%Z.

Local Abbreviation delta :=
  (1 / inject_Z C * Spec.pEB p * Spec.pSR p (Spec.W p j0)).

(** The longest run of steps that one scan period counts. *)
Local Abbreviation Lw := (Qceiling n + 1)%Z.




Variable kappa : Z.
Hypothesis Hkappa : (1 <= kappa <= C)%Z.
Hypothesis Hkappa_good : Spec.channel p kappa y = Spec.W p j0.

Local Abbreviation reach := (Spec.decayed delta kappa (C * Lw)).

Lemma reach_start : reach 1 1.
Proof.
  exists 0%nat. split.
  - change (Z.of_nat 0) with 0%Z. rewrite Qpower_0_r. lra.
  - lia.
Qed.








Variable m : nat.
Hypothesis Hm : (1 - delta) ^ Z.of_nat m < 1 # 1000000000.

(** A branch that is still followed is at most this deep. *)
Local Abbreviation depth := (C + C * Lw * Z.of_nat m + 1)%Z.





End Case3Decay.

(** ** The recorded distributions *)

(** C3 fails on [Simulator::run].  With the parameters [Samples.case1] and
    the draws [Samples.on_the_beacon], which the constructor and the three
    distributions allow, the first of two trials starts to scan at the
    instant at which the first minimal cell transmits; it receives that EB
    and is counted at step 0, and the second trial is counted at step 2.
    The prefix sum starts at step 1, so the trial of step 0 is in no entry
    of the recorded vector: the last entry is 1/2 and [cdf(2)] is 1/2,
    although both trials were synchronised within two steps. *)
Theorem C3_trial_at_step_0_is_dropped :
  SyncParameters.valid Samples.case1 /\
  Simulator.rng_ok Samples.case1 Samples.on_the_beacon /\
  exists avg counter d r,
    Simulator.trials Samples.case1 Samples.on_the_beacon 10 2
    = Ret (avg, counter, d) /\
    Distribution.counted counter = 2 /\
    counter !! 0 = Some 1 /\ counter !! 2 = Some 1 /\
    Simulator.run Samples.case1 Samples.on_the_beacon 10 2
      (Simulator.mkResults 0 []) = (r, Ret tt) /\
    Forall2 Qeq (Simulator.cdf_ r) [0%Q; 0%Q; (1 # 2)%Q] /\
    computes (Simulator.cdf r 2) (1 # 2).
Proof.
  split; [vm_compute; reflexivity|]. split.
  - split; [|split]; intros n.
    + cbn. lia.
    + split; [apply Qle_refl | reflexivity].
    + destruct n; vm_compute; split; discriminate.
  - eexists _, _, _, _.
    split; [vm_compute; reflexivity|].
    split; [vm_compute; reflexivity|].
    split; [vm_compute; reflexivity|].
    split; [vm_compute; reflexivity|].
    split; [vm_compute; reflexivity|].
    split.
    + repeat constructor.
    + eexists. split; [vm_compute; reflexivity | reflexivity].
Qed.

(** ** Termination of [Model::calculate] *)

Section Termination.
Local Open Scope Q_scope.

Variable p : SyncParameters.t.
Hypothesis Hvalid : SyncParameters.valid p.
Hypothesis Hdeliver : Spec.can_deliver p.
Local Abbreviation C := (Spec.C p).




End Termination.

Section Returns.
Local Open Scope Q_scope.

Variable p : SyncParameters.t.
Hypothesis Hvalid : SyncParameters.valid p.
Hypothesis Hdeliver : Spec.can_deliver p.
Variable results : Model.Results.
Hypothesis Hfresh : Model.fresh results.



End Returns.





Ltac in_validated_range :=
  split; [cbn; lia|]; split; [cbn; lia|]; split; [vm_compute; discriminate|];
  split; [|vm_compute; discriminate];
  apply Forall_forall; repeat constructor; vm_compute; discriminate.


(** * Further properties of the code *)

(** ** timeinterval.cpp *)

Section Intervals.
Import TimeInterval.

Lemma wf_cases (I : t) :
  wf I -> I = empty \/ exists s e, I = set s e /\ s <= e.
Proof.
  destruct I as [[s|] [e|]]; cbn; intros H; try contradiction.
  - right. exists s, e. split; [reflexivity | assumption].
  - left. reflexivity.
Qed.

Lemma intersection_empty_l (J : t) : intersection empty J = Ret empty.
Proof. reflexivity. Qed.

Lemma intersection_empty_r (I : t) :
  built I -> intersection I empty = Ret empty.
Proof. intros [-> | (a & b & ->)]; reflexivity. Qed.

Lemma intersection_sets (a b c d : Z) :
  intersection (set a b) (set c d)
  = if (a >? d) || (b <? c) then Ret empty
    else make (Z.max a c) (Z.min b d).
Proof.
  unfold intersection, orelse. cbn.
  destruct (a >? d); [reflexivity|]. cbn. destruct (b <? c); reflexivity.
Qed.

End Intervals.

(** X1. [intersection] computes the intersection of the two sets of
    instants: on intervals of the constructors it never throws, its result
    is again such an interval, an instant lies in it exactly when it lies in
    both arguments, and the order of the arguments does not matter. *)
Theorem X1_intersection_meets (I J : TimeInterval.t) :
  TimeInterval.wf I -> TimeInterval.wf J ->
  exists K,
    TimeInterval.intersection I J = Ret K /\
    TimeInterval.intersection J I = Ret K /\
    TimeInterval.wf K /\
    forall t, TimeInterval.contains K t <->
              TimeInterval.contains I t /\ TimeInterval.contains J t.
Proof.
  intros HI HJ.
  destruct (wf_cases I HI) as [-> | (a & b & -> & Hab)];
    destruct (wf_cases J HJ) as [-> | (c & d & -> & Hcd)].
  - exists TimeInterval.empty. cbn. tauto.
  - exists TimeInterval.empty. cbn. tauto.
  - exists TimeInterval.empty. cbn. tauto.
  - rewrite !intersection_sets. unfold TimeInterval.make.
    rewrite (Z.max_comm c a), (Z.min_comm d b).
    destruct (Z.gtb_spec a d) as [H1|H1]; destruct (Z.ltb_spec b c) as [H2|H2];
      destruct (Z.gtb_spec c b) as [H3|H3]; destruct (Z.ltb_spec d a) as [H4|H4];
      try lia; cbn [orb].
    1-2: exists TimeInterval.empty; cbn; repeat split; try tauto; intros; lia.
    destruct (Z.gtb_spec (Z.max a c) (Z.min b d)) as [H5|H5]; [lia|].
    exists (TimeInterval.set (Z.max a c) (Z.min b d)). cbn.
    repeat split; try assumption; intros; lia.
Qed.

Lemma X1_intersection_meets_witness :
  exists K,
    TimeInterval.intersection (TimeInterval.set 0 10) (TimeInterval.set 10 20)
    = Ret K /\
    TimeInterval.intersection (TimeInterval.set 10 20) (TimeInterval.set 0 10)
    = Ret K /\
    TimeInterval.wf K /\
    forall t, TimeInterval.contains K t <->
              TimeInterval.contains (TimeInterval.set 0 10) t /\
              TimeInterval.contains (TimeInterval.set 10 20) t.
Proof.
  apply (X1_intersection_meets (TimeInterval.set 0 10) (TimeInterval.set 10 20));
    cbn; lia.
Defined.

(** X2. On non-empty intervals of the constructor [isSubsetOf] is the
    inclusion of the sets of instants: it holds exactly when every instant
    of the receiver lies in the argument, and exactly when the intersection
    with the argument gives the receiver back. *)
Theorem X2_subset_is_inclusion (a b c d : Z) :
  a <= b -> c <= d ->
  let I := TimeInterval.set a b in
  let J := TimeInterval.set c d in
  (TimeInterval.isSubsetOf I J = Ret true <->
   forall t, TimeInterval.contains I t -> TimeInterval.contains J t) /\
  (TimeInterval.isSubsetOf I J = Ret true <->
   TimeInterval.intersection I J = Ret I).
Proof.
  intros Hab Hcd I J. subst I J. rewrite isSubsetOf_set, intersection_sets.
  unfold TimeInterval.make. cbn [TimeInterval.contains TimeInterval.set
    TimeInterval.start_ TimeInterval.end_].
  destruct (Z.leb_spec c a) as [H1|H1]; destruct (Z.geb_spec d b) as [H2|H2];
    cbn [andb]; split; split; intros H; try discriminate; try reflexivity.
  - intros t Ht. lia.
  - destruct (Z.gtb_spec a d); [lia|]. destruct (Z.ltb_spec b c); [lia|].
    cbn [orb]. destruct (Z.gtb_spec (Z.max a c) (Z.min b d)); [lia|].
    rewrite Z.max_l, Z.min_l by lia. reflexivity.
  - specialize (H b). lia.
  - exfalso. destruct ((a >? d) || (b <? c)); [discriminate|].
    destruct (Z.max a c >? Z.min b d); [discriminate|].
    injection H as _ E. lia.
  - specialize (H a). lia.
  - exfalso. destruct ((a >? d) || (b <? c)); [discriminate|].
    destruct (Z.max a c >? Z.min b d); [discriminate|].
    injection H as E _. lia.
  - specialize (H a). lia.
  - exfalso. destruct ((a >? d) || (b <? c)); [discriminate|].
    destruct (Z.max a c >? Z.min b d); [discriminate|].
    injection H as E _. lia.
Qed.

Lemma X2_subset_is_inclusion_witness :
  (TimeInterval.isSubsetOf (TimeInterval.set 2 5) (TimeInterval.set 0 5)
   = Ret true <->
   forall t, TimeInterval.contains (TimeInterval.set 2 5) t ->
             TimeInterval.contains (TimeInterval.set 0 5) t) /\
  (TimeInterval.isSubsetOf (TimeInterval.set 2 5) (TimeInterval.set 0 5)
   = Ret true <->
   TimeInterval.intersection (TimeInterval.set 2 5) (TimeInterval.set 0 5)
   = Ret (TimeInterval.set 2 5)).
Proof. apply (X2_subset_is_inclusion 2 5 0 5); lia. Defined.

(** X3. [isSubsetOf] orders the non-empty intervals: it is reflexive on
    them, transitive and antisymmetric, and [length] is monotone for it and
    never negative on an interval of the constructor. *)
Theorem X3_subset_order (I J K : TimeInterval.t) :
  TimeInterval.wf I -> TimeInterval.wf J -> TimeInterval.wf K ->
  (TimeInterval.isEmpty I = false -> TimeInterval.isSubsetOf I I = Ret true) /\
  (TimeInterval.isSubsetOf I J = Ret true ->
   TimeInterval.isSubsetOf J K = Ret true ->
   TimeInterval.isSubsetOf I K = Ret true) /\
  (TimeInterval.isSubsetOf I J = Ret true ->
   TimeInterval.isSubsetOf J I = Ret true -> I = J) /\
  (exists l, TimeInterval.length I = Ret l /\ 0 <= l) /\
  (TimeInterval.isSubsetOf I J = Ret true ->
   exists l l', TimeInterval.length I = Ret l /\
                TimeInterval.length J = Ret l' /\ l <= l').
Proof.
  intros HI HJ HK.
  destruct (wf_cases I HI) as [-> | (a & b & -> & Hab)];
    destruct (wf_cases J HJ) as [-> | (c & d & -> & Hcd)];
    destruct (wf_cases K HK) as [-> | (e & f & -> & Hef)];
    rewrite ?isSubsetOf_set, ?length_set;
    repeat split; try discriminate; try (eexists; split; [reflexivity|lia]);
    cbn; intros;
    repeat match goal with
           | H : Ret _ = Ret true |- _ => injection H as H
           | H : _ && _ = true |- _ => apply andb_true_iff in H as [? ?]
           end;
    try (f_equal; apply andb_true_iff; split); try lia;
    try (unfold TimeInterval.set; f_equal; f_equal; lia);
    try (eexists _, _; split; [reflexivity|split; [reflexivity|lia]]).
Qed.

Lemma X3_subset_order_witness :
  TimeInterval.isSubsetOf (TimeInterval.set 3 4) (TimeInterval.set 1 9)
  = Ret true.
Proof.
  apply (proj1 (proj2 (X3_subset_order (TimeInterval.set 3 4)
                         (TimeInterval.set 2 5) (TimeInterval.set 1 9)
                         ltac:(cbn; lia) ltac:(cbn; lia) ltac:(cbn; lia))));
    reflexivity.
Defined.

(** X4. [set] does not compare its arguments.  An interval set with its
    start after its end is not empty, has a negative length, contains no
    instant, and [intersection] throws [invalid_argument] on it as soon as
    the other interval overlaps its bounds. *)
Theorem X4_set_is_unchecked (a b c d : Z) :
  b < a -> c <= b -> a <= d ->
  TimeInterval.isEmpty (TimeInterval.set a b) = false /\
  (exists l, TimeInterval.length (TimeInterval.set a b) = Ret l /\ l < 0) /\
  (forall t, ~ TimeInterval.contains (TimeInterval.set a b) t) /\
  (exists msg,
     TimeInterval.intersection (TimeInterval.set a b) (TimeInterval.set c d)
     = Throw (invalid_argument msg)).
Proof.
  intros Hba Hc Hd. split; [reflexivity|]. split; [|split].
  - rewrite length_set. eexists. split; [reflexivity | lia].
  - intros t. cbn. lia.
  - rewrite intersection_sets. unfold TimeInterval.make.
    destruct (Z.gtb_spec a d); [lia|]. destruct (Z.ltb_spec b c); [lia|].
    cbn [orb]. destruct (Z.gtb_spec (Z.max a c) (Z.min b d)); [|lia].
    eexists. reflexivity.
Qed.

Lemma X4_set_is_unchecked_witness :
  exists msg,
    TimeInterval.intersection (TimeInterval.set 5 3) (TimeInterval.set 0 10)
    = Throw (invalid_argument msg).
Proof. apply (X4_set_is_unchecked 5 3 0 10); lia. Defined.

(** ** syncparameters.cpp and syncparameters.h *)

Lemma range_length (l : list Z) (lo n : Z) :
  NoDup l -> Forall (fun c => lo <= c < lo + n) l -> 0 <= n ->
  Z.of_nat (length l) <= n.
Proof.
  intros Hnd Hall Hn.
  assert (Hsub : l ⊆+ seqZ lo n).
  { apply NoDup_submseteq; [assumption|]. intros x Hx.
    rewrite Forall_forall in Hall.
    specialize (Hall x Hx). apply elem_of_seqZ. lia. }
  apply submseteq_length in Hsub. rewrite length_seqZ in Hsub. lia.
Qed.

(** X5. A parameter object that the constructor has built has at most 16
    channels, a number of channels coprime to the number of slots, and
    exactly one reception probability for each of its channels and for no
    other channel. *)
Theorem X5_valid_parameters_shape (p : SyncParameters.t) :
  SyncParameters.valid p ->
  (length (SyncParameters.getCHS p) <= 16)%nat /\
  Z.gcd (Z.of_nat (length (SyncParameters.getCHS p))) (SyncParameters.getS p)
  = 1 /\
  dom (SyncParameters.getPsr p) = list_to_set (SyncParameters.getCHS p) /\
  size (SyncParameters.getPsr p) = length (SyncParameters.getCHS p).
Proof.
  intros Hvalid.
  pose proof (valid_conditions p Hvalid 1%nat) as H1.
  pose proof (valid_conditions p Hvalid 2%nat) as H2.
  pose proof (valid_conditions p Hvalid 4%nat) as H4.
  pose proof (valid_conditions p Hvalid 6%nat) as (H6a & _ & H6c).
  cbn in H1, H2, H4.
  assert (Hdom : dom (SyncParameters.getPsr p)
                 = (list_to_set (SyncParameters.getCHS p) : gset Z)).
  { apply set_eq. intros c. rewrite elem_of_dom, elem_of_list_to_set.
    split; [apply H6c | apply H6a]. }
  split; [|split; [exact H4|split; [exact Hdom|]]].
  - assert (Z.of_nat (length (SyncParameters.getCHS p)) <= 16); [|lia].
    apply (range_length _ 11 16 H2); [|lia].
    eapply Forall_impl; [exact H1|]. cbn. intros c Hc. lia.
  - rewrite <- size_dom, Hdom. apply size_list_to_set. exact H2.
Qed.

Lemma X5_valid_parameters_shape_witness :
  (length (SyncParameters.getCHS Samples.case1) <= 16)%nat /\
  Z.gcd (Z.of_nat (length (SyncParameters.getCHS Samples.case1)))
    (SyncParameters.getS Samples.case1) = 1 /\
  dom (SyncParameters.getPsr Samples.case1)
  = list_to_set (SyncParameters.getCHS Samples.case1) /\
  size (SyncParameters.getPsr Samples.case1)
  = length (SyncParameters.getCHS Samples.case1).
Proof.
  apply (X5_valid_parameters_shape Samples.case1). vm_compute. reflexivity.
Defined.

(** The test that every entry of the table of default sequences passes. *)
Lemma default_sequences_checked :
  map_Forall
    (fun c seq =>
       (1 <=? c) && (c <=? 16) && (Z.of_nat (length seq) =? c)
       && bool_decide (merge_sort Z.le seq = seqZ 11 c) = true)
    SyncParameters.DEFAULT_CHANNEL_HOPPING_SEQUENCES.
Proof.
  apply map_Forall_to_list. vm_compute. repeat constructor.
Qed.

(** X6. The table of default channel hopping sequences has an entry for
    every number of channels from 1 to 16 and for no other key, and the
    entry for [c] channels is a rearrangement of the channels 11, ...,
    10 + c: it passes the range test and the uniqueness test of the
    constructor. *)
Theorem X6_default_sequences :
  (forall c,
     is_Some (SyncParameters.DEFAULT_CHANNEL_HOPPING_SEQUENCES !! c)
     <-> 1 <= c <= 16) /\
  (forall c,
     map_at SyncParameters.DEFAULT_CHANNEL_HOPPING_SEQUENCES c
     = Throw out_of_range <-> ~ 1 <= c <= 16) /\
  (forall c seq,
     SyncParameters.DEFAULT_CHANNEL_HOPPING_SEQUENCES !! c = Some seq ->
     Z.of_nat (length seq) = c /\ seq ≡ₚ seqZ 11 c /\
     SyncParameters.check_range seq = Ret tt /\
     SyncParameters.check_unique seq = Ret tt).
Proof.
  assert (Hin : forall c, 1 <= c <= 16 ->
            is_Some (SyncParameters.DEFAULT_CHANNEL_HOPPING_SEQUENCES !! c)).
  { intros c Hc.
    assert (H : Forall (fun c => is_Some
                (SyncParameters.DEFAULT_CHANNEL_HOPPING_SEQUENCES !! c))
              (seqZ 1 16)).
    { apply (bool_decide_unpack _). vm_compute. exact I. }
    rewrite Forall_forall in H. apply H. apply elem_of_seqZ. lia. }
  assert (Hout : forall c seq,
            SyncParameters.DEFAULT_CHANNEL_HOPPING_SEQUENCES !! c = Some seq ->
            1 <= c <= 16 /\ Z.of_nat (length seq) = c /\
            merge_sort Z.le seq = seqZ 11 c).
  { intros c seq H. apply default_sequences_checked in H.
    apply andb_true_iff in H as [H Hs]. apply andb_true_iff in H as [H Hl].
    apply andb_true_iff in H as [H1 H2].
    apply bool_decide_eq_true in Hs. apply Z.leb_le in H1, H2.
    apply Z.eqb_eq in Hl. auto. }
  split; [|split].
  - intros c. split; [|apply Hin]. intros [seq H].
    apply Hout in H. tauto.
  - intros c. unfold map_at. split.
    + intros H Hc. destruct (Hin c Hc) as [seq E]. rewrite E in H. discriminate.
    + intros Hc.
      destruct (SyncParameters.DEFAULT_CHANNEL_HOPPING_SEQUENCES !! c)
        as [seq|] eqn:E; [|reflexivity].
      apply Hout in E. tauto.
  - intros c seq H. apply Hout in H as (Hc & Hlen & Hsort).
    assert (Hperm : seq ≡ₚ seqZ 11 c).
    { pose proof (merge_sort_Permutation Z.le seq) as Hp.
      rewrite Hsort in Hp. symmetry. exact Hp. }
    split; [exact Hlen|]. split; [exact Hperm|]. split.
    + destruct (check_range_spec seq) as [[E _] | [_ Hn]]; [exact E|].
      exfalso. apply Hn. unfold SyncParameters.cond1.
      rewrite Hperm. apply Forall_forall. intros x Hx.
      apply elem_of_seqZ in Hx. lia.
    + destruct (check_unique_spec seq) as [[E _] | [_ Hn]]; [exact E|].
      exfalso. apply Hn. unfold SyncParameters.cond2.
      rewrite Hperm. apply NoDup_seqZ.
Qed.

Lemma X6_default_sequences_witness :
  Z.of_nat (length [11; 13; 14; 12]) = 4 /\
  [11; 13; 14; 12] ≡ₚ seqZ 11 4 /\
  SyncParameters.check_range [11; 13; 14; 12] = Ret tt /\
  SyncParameters.check_unique [11; 13; 14; 12] = Ret tt.
Proof.
  apply (proj2 (proj2 X6_default_sequences) 4 [11; 13; 14; 12]).
  vm_compute. reflexivity.
Defined.

(** ** model.cpp *)




(** The [do ... while] loop appends one entry per step, whatever the vector
    holds, and runs the same way on any vector. *)
Lemma cdf_steps_append (Psync : Z -> outcome Q) (n : nat) :
  forall (k : Z) (cdf0 cdf : list Q),
    1 <= k <= Z.of_nat (length cdf0) ->
    for_loop n k
      (fun k cdf =>
         let* prev := vector_get cdf (k - 1) in
         let* p := Psync k in
         Ret (cdf ++ [(prev + p)%Q]))
      cdf0 = Ret cdf ->
    (exists tail, cdf = cdf0 ++ tail /\ length tail = n) /\
    forall cdf0' : list Q,
      1 <= k <= Z.of_nat (length cdf0') ->
      exists cdf',
        for_loop n k
          (fun k cdf =>
             let* prev := vector_get cdf (k - 1) in
             let* p := Psync k in
             Ret (cdf ++ [(prev + p)%Q]))
          cdf0' = Ret cdf'.
Proof.
  induction n as [|n IH]; intros k cdf0 cdf Hk H; cbn [for_loop] in *.
  - injection H as <-. split.
    + exists []. split; [rewrite app_nil_r; reflexivity | reflexivity].
    + intros cdf0' _. eexists. reflexivity.
  - apply bind_Ret_inv in H as (c1 & Hb & H).
    apply bind_Ret_inv in Hb as (prev & Hprev & Hb).
    apply bind_Ret_inv in Hb as (v & Hv & Hb). injection Hb as <-.
    apply IH in H as [(tail & -> & Hlen) Hany];
      [|rewrite length_app; cbn [length]; lia].
    split.
    + exists ((prev + v)%Q :: tail). split.
      * rewrite <- app_assoc. reflexivity.
      * cbn [length]. rewrite Hlen. reflexivity.
    + intros cdf0' Hk'.
      destruct (cdf0' !! Z.to_nat (k - 1)) as [prev'|] eqn:E;
        [|apply lookup_ge_None in E; lia].
      assert (Eg : vector_get cdf0' (k - 1) = Ret prev').
      { unfold vector_get. destruct (Z.ltb_spec (k - 1) 0); [lia|].
        rewrite E. reflexivity. }
      rewrite Eg, Hv. cbn [bind]. apply Hany.
      rewrite length_app. cbn [length]. lia.
Qed.

(** X8. [calculate] does not clear the [Results] it is given: the entries
    that [cdf_] already holds stay in front of the new ones, so that [cdf]
    keeps returning the old values at the old steps.  The average time, and
    whether the call returns, do not depend on what [cdf_] held. *)
Theorem X8_calculate_appends (p : SyncParameters.t) (fuel : nat)
    (results r : Model.Results) :
  Model.calculate p fuel results = Ret r ->
  (exists tail,
     Model.cdf_ r = Model.cdf_ results ++ 0%Q :: tail /\ tail <> []) /\
  (forall steps, (steps < length (Model.cdf_ results))%nat ->
     Model.cdf r steps = Model.cdf results steps) /\
  (forall results',
     exists r', Model.calculate p fuel results' = Ret r' /\
                Model.avgSyncTime r' = Model.avgSyncTime r /\
                (length (Model.cdf_ r') - length (Model.cdf_ results')
                 = length (Model.cdf_ r) - length (Model.cdf_ results))%nat).
Proof.
  intros H. unfold Model.calculate in H.
  destruct (Model.cases p fuel) as [[[Tavg max_step] Psync]| |] eqn:Ec;
    try discriminate. cbn [bind] in H.
  apply bind_Ret_inv in H as (cdf & Hl & H). injection H as <-.
  unfold Model.cdf_loop in Hl.
  pose proof Hl as Hl'.
  apply cdf_steps_append in Hl' as [(tail & E & Hlen) Hany];
    [|rewrite length_app; cbn [length]; lia].
  assert (Hcdf : cdf = Model.cdf_ results ++ 0%Q :: tail).
  { rewrite E, <- app_assoc. reflexivity. }
  split; [|split].
  - exists tail. split; [exact Hcdf|]. intros ->. cbn in Hlen. lia.
  - intros steps Hs. unfold Model.cdf. cbn [Model.cdf_]. rewrite Hcdf.
    destruct (steps <? 1)%nat; [reflexivity|].
    rewrite length_app. cbn [length].
    destruct (Nat.leb_spec (length (Model.cdf_ results) + S (length tail)) steps);
      [lia|].
    destruct (Nat.leb_spec (length (Model.cdf_ results)) steps); [lia|].
    unfold vector_get. destruct (Z.of_nat steps <? 0); [reflexivity|].
    rewrite Nat2Z.id. rewrite lookup_app_l by lia. reflexivity.
  - intros results'. unfold Model.calculate. rewrite Ec. cbn [bind].
    destruct (Hany (Model.cdf_ results' ++ [0%Q])) as (cdf' & E').
    { rewrite length_app. cbn [length]. lia. }
    unfold Model.cdf_loop. rewrite E'. cbn [bind]. eexists.
    split; [reflexivity|]. split; [reflexivity|]. cbn [Model.cdf_].
    apply cdf_steps_append in E' as [(tail' & -> & Hlen') _];
      [|rewrite length_app; cbn [length]; lia].
    rewrite Hcdf, !length_app. cbn [length]. lia.
Qed.

Lemma X8_calculate_appends_witness :
  exists r,
    Model.calculate Samples.reliable 3
      (Model.mkResults 0 [(1 # 3)%Q; (2 # 3)%Q]) = Ret r /\
    forall steps, (steps < 2)%nat ->
      Model.cdf r steps
      = Model.cdf (Model.mkResults 0 [(1 # 3)%Q; (2 # 3)%Q]) steps.
Proof.
  eexists. split; [vm_compute; reflexivity|].
  apply (X8_calculate_appends Samples.reliable 3
           (Model.mkResults 0 [(1 # 3)%Q; (2 # 3)%Q])).
  vm_compute. reflexivity.
Defined.

(** *** The truncated series, read off a returned result *)

Section Stops.
Local Open Scope Q_scope.

Variable p : SyncParameters.t.
Variable Psync : Z -> outcome Q.
Variable P : Z -> Q.
Hypothesis Psync_computes : forall k, (1 <= k)%Z -> computes (Psync k) (P k).

Lemma sum_loop_stops (fuel : nat) :
  forall (sum : Q) (k : Z) (cum s' : Q) (K : Z),
    (1 <= k)%Z -> cum == Spec.cumulative P (k - 1) ->
    Model.sum_loop p Psync fuel sum k cum = Ret (s', K) ->
    (k - 1 <= K)%Z /\ (Z.to_nat (K - (k - 1)) <= fuel)%nat /\
    1 - (1 # 1000000000) <= Spec.cumulative P K /\
    forall j, (k - 1 <= j < K)%Z ->
              Spec.cumulative P j < 1 - (1 # 1000000000).
Proof.
  induction fuel as [|fuel IH]; intros sum k cum s' K Hk Hcum H;
    cbn [Model.sum_loop] in H;
    destruct (Qltb cum Model.threshold) eqn:E; try discriminate.
  - injection H as _ <-. apply Qltb_false in E.
    rewrite threshold_value, Hcum in E.
    split; [lia|]. split; [lia|]. split; [exact E|]. intros j Hj. lia.
  - destruct (Psync_computes k Hk) as (v & Ev & Hv). rewrite Ev in H.
    cbn [bind] in H. apply Qltb_true in E. rewrite threshold_value, Hcum in E.
    apply IH in H as (H1 & H2 & H3 & H4); [|lia|].
    + split; [lia|]. split; [lia|]. split; [exact H3|]. intros j Hj.
      destruct (Z.eq_dec j (k - 1)%Z) as [->|Hne]; [exact E|]. apply H4. lia.
    + replace (k + 1 - 1)%Z with k by lia. unfold Spec.cumulative in *.
      rewrite (sum_range_snoc P 1 k) by lia. rewrite Hcum, Hv. reflexivity.
  - injection H as _ <-. apply Qltb_false in E.
    rewrite threshold_value, Hcum in E.
    split; [lia|]. split; [lia|]. split; [exact E|]. intros j Hj. lia.
Qed.

Lemma returned_truncation (fuel : nat) (sum : Q) (K : Z) :
  Model.sumOfExpectedValueInCases1and2 p Psync fuel = Ret (sum, K) ->
  Spec.truncation P K /\ (Z.to_nat K <= fuel)%nat.
Proof.
  unfold Model.sumOfExpectedValueInCases1and2. intros H.
  apply sum_loop_stops in H as (H1 & H2 & H3 & H4); [|lia|].
  - assert (HK : (1 <= K)%Z).
    { destruct (Z_lt_le_dec K 1) as [Hlt|]; [|assumption]. exfalso.
      assert (K = 0%Z) as -> by lia. unfold Spec.cumulative in H3.
      rewrite sum_range_empty in H3 by lia. revert H3. apply Qlt_not_le.
      reflexivity. }
    split; [|replace (K - (1 - 1))%Z with K in H2 by lia; exact H2].
    split; [exact HK|]. split; [exact H3|]. intros k Hk. apply H4. lia.
  - unfold Spec.cumulative. rewrite sum_range_empty by lia. reflexivity.
Qed.

End Stops.

(** What a result of Case 1 or of Case 2 was computed from. *)
Lemma calculate_series_inv (p : SyncParameters.t) (fuel : nat)
    (results r : Model.Results) :
  SyncParameters.valid p -> Model.fresh results ->
  Model.calculate p fuel results = Ret r ->
  (SyncParameters.getTScan p < Spec.Tsf p ->
   exists K, Spec.truncation (Spec.Psync1 p) K /\ (Z.to_nat K <= fuel)%nat /\
     (Model.avgSyncTime r == Spec.expected_time p (Spec.Psync1 p) K)%Q /\
     Forall2 Qeq (Model.cdf_ r) (Spec.recorded_cdf (Spec.Psync1 p) K)) /\
  (forall n, 1 <= n -> SyncParameters.getTScan p = n * Spec.Tsf p ->
   exists K, Spec.truncation (Spec.Psync2 p n) K /\ (Z.to_nat K <= fuel)%nat /\
     (Model.avgSyncTime r == Spec.expected_time p (Spec.Psync2 p n) K)%Q /\
     Forall2 Qeq (Model.cdf_ r) (Spec.recorded_cdf (Spec.Psync2 p n) K)).
Proof.
  intros Hvalid Hfresh H.
  pose proof (Tsf_pos p Hvalid) as HT.
  pose proof H as H0. unfold Model.calculate, Model.cases in H0.
  rewrite (W_ok p Hvalid) in H0. cbn [bind] in H0.
  change (Model.Tscan p) with (SyncParameters.getTScan p) in H0.
  change (Model.Tsf p) with (Spec.Tsf p) in H0.
  split.
  - intros Hlt.
    destruct (Z.ltb_spec (SyncParameters.getTScan p) (Spec.Tsf p)); [|lia].
    apply bind_Ret_inv in H0 as ([[Tavg ms] Ps] & Hc & _).
    apply bind_Ret_inv in Hc as ([sum K] & Hs & _).
    apply (returned_truncation p _ (Spec.Psync1 p) (Psync1_ok p Hvalid)) in Hs
      as [Ht Hf].
    exists K. split; [exact Ht|]. split; [exact Hf|].
    destruct (case1_run p results K fuel Hvalid Hlt Hfresh Ht Hf)
      as (r' & Er & Ha & Hcdf).
    rewrite H in Er. injection Er as <-. split; assumption.
  - intros n Hn En.
    destruct (Z.ltb_spec (SyncParameters.getTScan p) (Spec.Tsf p)); [nia|].
    rewrite imod_Ret in H0 by lia. cbn [bind] in H0.
    rewrite En, Z.mod_mul in H0 by lia. cbn [Z.eqb] in H0.
    rewrite idiv_Ret in H0 by nia. cbn [bind] in H0.
    rewrite Z.div_mul in H0 by lia.
    apply bind_Ret_inv in H0 as ([[Tavg ms] Ps] & Hc & _).
    apply bind_Ret_inv in Hc as ([sum K] & Hs & _).
    apply (returned_truncation p _ (Spec.Psync2 p n) (Psync2_ok p Hvalid n Hn))
      in Hs as [Ht Hf].
    exists K. split; [exact Ht|]. split; [exact Hf|].
    destruct (case2_run p results n K fuel Hvalid Hn En Hfresh Ht Hf)
      as (r' & Er & Ha & Hcdf).
    rewrite H in Er. injection Er as <-. split; assumption.
Qed.

Section SeriesExt.
Local Open Scope Q_scope.

Variables P P' : Z -> Q.
Hypothesis HP : forall k, P k == P' k.

Lemma cumulative_same (k : Z) : Spec.cumulative P k == Spec.cumulative P' k.
Proof. apply cumulative_ext. intros j _. apply HP. Qed.

Lemma truncation_ext (K : Z) : Spec.truncation P K -> Spec.truncation P' K.
Proof.
  intros (H1 & H2 & H3). split; [exact H1|]. split.
  - rewrite <- cumulative_same. exact H2.
  - intros k Hk. rewrite <- cumulative_same. apply H3. exact Hk.
Qed.

Lemma expected_time_ext (p : SyncParameters.t) (K : Z) :
  Spec.expected_time p P K == Spec.expected_time p P' K.
Proof.
  unfold Spec.expected_time.
  rewrite (sum_range_ext _
    (fun k => P' k * (inject_Z (k - 1) * inject_Z (Spec.Tsf p)
                      + inject_Z (Spec.Tsf p) / 2 + inject_Z (Spec.tEB p)))).
  - reflexivity.
  - intros k _. rewrite HP. reflexivity.
Qed.

Lemma recorded_cdf_ext (K : Z) :
  Forall2 Qeq (Spec.recorded_cdf P K) (Spec.recorded_cdf P' K).
Proof.
  unfold Spec.recorded_cdf. apply Forall2_fmap, Forall_Forall2_diag.
  apply Forall_forall. intros k _. apply cumulative_same.
Qed.

End SeriesExt.

(** X9. Every scan period of at most one slotframe gives the same results:
    in Case 1 [calculate] does not read [tScan], and for [tScan] equal to
    the slotframe, where Case 2 applies with one step per scan period, it
    computes the same average time and the same cumulative distribution. *)
Theorem X9_short_scan_periods (p1 p2 : SyncParameters.t) (fuel : nat)
    (results r1 : Model.Results) :
  SyncParameters.valid p1 -> SyncParameters.valid p2 ->
  SyncParameters.getCHS p1 = SyncParameters.getCHS p2 ->
  SyncParameters.getS p1 = SyncParameters.getS p2 ->
  SyncParameters.getPeb p1 = SyncParameters.getPeb p2 ->
  SyncParameters.getPsr p1 = SyncParameters.getPsr p2 ->
  SyncParameters.getTeb p1 = SyncParameters.getTeb p2 ->
  SyncParameters.getTScan p1 < Spec.Tsf p1 ->
  SyncParameters.getTScan p2 <= Spec.Tsf p2 ->
  Model.fresh results ->
  Model.calculate p1 fuel results = Ret r1 ->
  exists r2,
    Model.calculate p2 fuel results = Ret r2 /\
    (Model.avgSyncTime r1 == Model.avgSyncTime r2)%Q /\
    Forall2 Qeq (Model.cdf_ r1) (Model.cdf_ r2).
Proof.
  intros Hv1 Hv2 Hchs Hs Hpeb Hpsr Hteb Hlt Hle Hfresh H.
  destruct (calculate_series_inv p1 fuel results r1 Hv1 Hfresh H) as [Hinv _].
  destruct (Hinv Hlt) as (K & Ht & Hf & Ha & Hc). clear Hinv.
  destruct p1 as [chs1 s1 e1 m1 t1 w1 b1], p2 as [chs2 s2 e2 m2 t2 w2 b2].
  cbn in Hchs, Hs, Hpeb, Hpsr, Hteb. subst chs2 s2 e2 m2 b2.
  set (p1 := SyncParameters.mk chs1 s1 e1 m1 t1 w1 b1) in *.
  set (p2 := SyncParameters.mk chs1 s1 e1 m1 t2 w2 b1) in *.
  change (Spec.Tsf p2) with (Spec.Tsf p1) in Hle.
  destruct (Z_lt_le_dec (SyncParameters.getTScan p2) (Spec.Tsf p1)) as [Hlt2|Hge2].
  - destruct (case1_run p2 results K fuel Hv2 Hlt2 Hfresh Ht Hf)
      as (r2 & Er & Ha2 & Hc2).
    exists r2. split; [exact Er|]. split.
    + rewrite Ha, Ha2. reflexivity.
    + etransitivity; [exact Hc|]. symmetry. exact Hc2.
  - assert (En : SyncParameters.getTScan p2 = 1 * Spec.Tsf p2)
      by (change (Spec.Tsf p2) with (Spec.Tsf p1); lia).
    assert (HP : forall k, (Spec.Psync1 p1 k == Spec.Psync2 p2 1 k)%Q)
      by (intros k; apply (Psync1_is_Psync2 p1)).
    destruct (case2_run p2 results 1 K fuel Hv2 ltac:(lia) En Hfresh
                (truncation_ext _ _ HP K Ht) Hf) as (r2 & Er & Ha2 & Hc2).
    exists r2. split; [exact Er|]. split.
    + rewrite Ha, Ha2. apply (expected_time_ext _ _ HP p1).
    + etransitivity; [exact Hc|].
      etransitivity; [apply (recorded_cdf_ext _ _ HP K)|].
      symmetry. exact Hc2.
Qed.

Lemma X9_short_scan_periods_witness :
  exists r1 r2,
    Model.calculate Samples.reliable 3 Samples.fresh = Ret r1 /\
    Model.calculate Samples.reliable_frame 3 Samples.fresh = Ret r2 /\
    (Model.avgSyncTime r1 == Model.avgSyncTime r2)%Q /\
    Forall2 Qeq (Model.cdf_ r1) (Model.cdf_ r2).
Proof.
  eexists. 
  destruct (X9_short_scan_periods Samples.reliable Samples.reliable_frame 3
              Samples.fresh _
              ltac:(vm_compute; reflexivity) ltac:(vm_compute; reflexivity)
              eq_refl eq_refl eq_refl eq_refl eq_refl
              ltac:(vm_compute; reflexivity)
              ltac:(vm_compute; discriminate)
              eq_refl ltac:(vm_compute; reflexivity))
    as (r2 & E2 & Ha & Hc).
  exists r2. split; [vm_compute; reflexivity|]. split; [exact E2|].
  split; assumption.
Defined.

(** *** No exception on a configuration with channels *)

Lemma no_throw_bind {A B} (m : outcome A) (k : A -> outcome B) :
  no_throw m -> (forall a, m = Ret a -> no_throw (k a)) -> no_throw (bind m k).
Proof. destruct m; cbn; auto. Qed.

Lemma for_loop_no_throw {A} (P : Z -> A -> Prop) (n : nat) :
  forall (lo : Z) (body : Z -> A -> outcome A) (acc : A),
    P lo acc ->
    (forall i a, lo <= i < lo + Z.of_nat n -> P i a ->
       no_throw (body i a) /\ forall a', body i a = Ret a' -> P (i + 1) a') ->
    no_throw (for_loop n lo body acc).
Proof.
  induction n as [|n IH]; intros lo body acc H0 Hstep; cbn [for_loop].
  - exact I.
  - destruct (Hstep lo acc ltac:(lia) H0) as [Hs Hn].
    apply no_throw_bind; [exact Hs|]. intros a Ea. apply IH.
    + apply Hn. exact Ea.
    + intros i a' Hi. apply Hstep. lia.
Qed.

Lemma sum_loop_no_throw (p : SyncParameters.t) (Psync : Z -> outcome Q)
    (P : Z -> Q) :
  (forall k, 1 <= k -> computes (Psync k) (P k)) ->
  forall fuel sum k cum, 1 <= k ->
    no_throw (Model.sum_loop p Psync fuel sum k cum).
Proof.
  intros Hc. induction fuel as [|fuel IH]; intros sum k cum Hk;
    cbn [Model.sum_loop]; destruct (Qltb cum Model.threshold); try exact I.
  destruct (Hc k Hk) as (v & -> & _). cbn [bind]. apply IH. lia.
Qed.

Lemma cdf_loop_total (Psync : Z -> outcome Q) (K : Z) (cdf0 : list Q) :
  (forall k, 1 <= k <= Z.max 1 K -> exists v, Psync k = Ret v) ->
  (1 <= length cdf0)%nat ->
  exists cdf, Model.cdf_loop Psync K cdf0 = Ret cdf.
Proof.
  intros Hp Hlen. unfold Model.cdf_loop.
  destruct (for_loop_inv
    (fun k (cdf : list Q) => k <= Z.of_nat (length cdf))
    (Z.to_nat (Z.max 1 K)) 1
    (fun k cdf =>
       let* prev := vector_get cdf (k - 1) in
       let* p := Psync k in
       Ret (cdf ++ [(prev + p)%Q]))
    cdf0) as (cdf & E & _).
  - lia.
  - intros k cdf Hk Hinv.
    destruct (cdf !! Z.to_nat (k - 1)) as [prev|] eqn:Eprev;
      [|apply lookup_ge_None in Eprev; lia].
    unfold vector_get. destruct (Z.ltb_spec (k - 1) 0); [lia|].
    rewrite Eprev. cbn [bind]. destruct (Hp k ltac:(lia)) as (v & ->).
    cbn [bind]. eexists. split; [reflexivity|].
    rewrite length_app. cbn [length]. lia.
  - exists cdf. exact E.
Qed.

Section Safe3.
Local Open Scope Q_scope.

Variable p : SyncParameters.t.
Hypothesis Hvalid : SyncParameters.valid p.
Local Abbreviation C := (Spec.C p).
Hypothesis HC : (0 < C)%Z.
Variable n : Q.
Hypothesis Hn : 1 < n.

Lemma recursiveCalc_no_throw (y : Z) (fuel : nat) :
  (0 <= y < C)%Z ->
  forall (q : Q) (i : Z) (I : TimeInterval.t) (arr : list Q),
    (1 <= i)%Z -> Spec.branch p q I ->
    no_throw (Model.recursiveCalc p (Wvec p) n fuel q i I y arr).
Proof.
  intros Hy. induction fuel as [|fuel IH]; intros q i J arr Hi Hbr;
    cbn [Model.recursiveCalc];
    destruct (TimeInterval.isEmpty J || Qltb q (pow 10 (-9))) eqn:Hcond;
    try exact I.
  destruct (live_branch p q J Hbr Hcond) as (a & b & -> & Ha & Hab & Hb & Hq1).
  assert (Hq : 0 <= q) by lra.
  pose proof (frame_ok p Hvalid HC n Hn y Hy q i a b arr Hi Ha Hab Hb) as F.
  destruct (Model.frame p (Wvec p) n q i (TimeInterval.set a b) y arr)
    as [[[[[[Rl Zi] QC] QNC] res] arr1]| |]; try contradiction.
  destruct F as (-> & -> & HQC & HQNC & _).
  cbn [bind]. apply no_throw_bind.
  - apply IH; [lia|]. apply (branch_C p Hvalid HC n y q QC i a b); assumption.
  - intros [r1 arr2] _. destruct (Model.B n (i + 1)); [|exact I].
    rewrite (part_R a b) by (pose proof (rem3_bounds p Hvalid i); lia).
    cbn [bind]. apply no_throw_bind.
    + apply IH; [lia|].
      apply (branch_NC p Hvalid HC n y q QNC i a b); assumption.
    + intros [r2 arr3] _. exact I.
Qed.

Lemma case3_loop_no_throw (fuel : nat) :
  no_throw (Model.case3_loop p (Wvec p) n fuel).
Proof.
  unfold Model.case3_loop, for_range.
  pose proof (Tsf_pos p Hvalid) as HT.
  apply (for_loop_no_throw (fun _ _ => True)); [exact I|].
  intros y [T arr] Hy _. change (Model.C p) with C in *.
  split; [|auto].
  rewrite fdiv_Ret by (apply inject_Z_nonzero; lia). cbn [bind].
  change (Model.Tsf p) with (Spec.Tsf p).
  rewrite make_Ret by lia. cbn [bind].
  apply no_throw_bind.
  - apply recursiveCalc_no_throw; [lia|lia|apply (first_branch p Hvalid)].
  - intros [r arr'] _. exact I.
Qed.

(** The array of Case 3 has an entry for step 1 when the loop returns. *)
Lemma case3_loop_length (fuel : nat) (T : Q) (arr : list Q) :
  Model.case3_loop p (Wvec p) n fuel = Ret (T, arr) -> (2 <= length arr)%nat.
Proof.
  unfold Model.case3_loop, for_range. intros H.
  pose proof (Tsf_pos p Hvalid) as HT.
  apply (for_loop_post
    (fun y (st : Q * list Q) => (0 < y)%Z -> (2 <= length (snd st))%nat)) in H.
  - exact H.
  - intros H0. lia.
  - intros y [T0 a0] [T1 a1] Hy _ Hb _. cbn [snd]. change (Model.C p) with C in *.
    rewrite fdiv_Ret in Hb by (apply inject_Z_nonzero; lia). cbn [bind] in Hb.
    change (Model.Tsf p) with (Spec.Tsf p) in Hb.
    rewrite make_Ret in Hb by lia. cbn [bind] in Hb.
    apply bind_Ret_inv in Hb as ([r arr2] & Hr & Hb). injection Hb as _ <-.
    apply (recursiveCalc_mass p Hvalid HC n Hn y ltac:(lia)) in Hr
      as (_ & _ & _ & Hlen); [|lia|apply (first_branch p Hvalid)].
    apply Hlen. reflexivity.
  - change (Model.C p) with C. lia.
Qed.

End Safe3.

(** X10. On a valid configuration inside the ranges from which the
    validation draws its cases (1 to 16 channels, 1 to 10000 slots, [pEB]
    and every [pSR] at least 0.1, a scan period of at most 100.5
    slotframes), where the [int] arithmetic of the source stays far inside
    its range, [calculate] throws nothing and has no undefined behaviour,
    whatever the [Results] object holds: no vector is read outside its
    bounds, no channel is missing from [pSR], no division is by zero, no
    empty [optional] is read and the constructor of [TimeInterval] never
    rejects its arguments. *)
Theorem X10_calculate_throws_nothing (p : SyncParameters.t) (fuel : nat)
    (results : Model.Results) :
  SyncParameters.valid p -> validated_range p ->
  no_throw (Model.calculate p fuel results).
Proof.
  intros Hvalid Hrange.
  assert (Hne : SyncParameters.getCHS p <> []).
  { destruct Hrange as (Hlen & _). intros E. rewrite E in Hlen.
    cbn in Hlen. lia. }
  assert (HC : 0 < Spec.C p).
  { unfold Spec.C. destruct (SyncParameters.getCHS p); [contradiction|].
    cbn [length]. lia. }
  pose proof (Tsf_pos p Hvalid) as HT.
  pose proof (valid_tScan p Hvalid) as HS.
  unfold Model.calculate. apply no_throw_bind.
  - unfold Model.cases. rewrite (W_ok p Hvalid). cbn [bind].
    change (Model.Tscan p) with (SyncParameters.getTScan p).
    change (Model.Tsf p) with (Spec.Tsf p).
    destruct (Z.ltb_spec (SyncParameters.getTScan p) (Spec.Tsf p)).
    + apply no_throw_bind.
      * apply (sum_loop_no_throw p _ (Spec.Psync1 p) (Psync1_ok p Hvalid)). lia.
      * intros [sum K] _. exact I.
    + rewrite imod_Ret by lia. cbn [bind].
      destruct (Z.eqb_spec (SyncParameters.getTScan p mod Spec.Tsf p) 0)
        as [Hz|Hnz].
      * rewrite idiv_Ret by lia. cbn [bind].
        assert (Hn : 1 <= SyncParameters.getTScan p / Spec.Tsf p)
          by (apply Z.div_le_lower_bound; lia).
        apply no_throw_bind.
        -- apply (sum_loop_no_throw p _ _ (Psync2_ok p Hvalid _ Hn)). lia.
        -- intros [sum K] _. exact I.
      * rewrite fdiv_Ret by (apply inject_Z_nonzero; lia). cbn [bind].
        apply no_throw_bind.
        -- apply (case3_loop_no_throw p Hvalid HC).
           apply (ratio_above p Hvalid); assumption.
        -- intros [T arr] _. exact I.
  - intros [[Tavg max_step] Psync] Hc.
    unfold Model.cases in Hc. rewrite (W_ok p Hvalid) in Hc. cbn [bind] in Hc.
    change (Model.Tscan p) with (SyncParameters.getTScan p) in Hc.
    change (Model.Tsf p) with (Spec.Tsf p) in Hc.
    destruct (Z.ltb_spec (SyncParameters.getTScan p) (Spec.Tsf p)).
    + apply bind_Ret_inv in Hc as ([sum K] & _ & Hc). injection Hc as _ _ <-.
      destruct (cdf_loop_total (Model.Psync1 p (Wvec p)) max_step
                  (Model.cdf_ results ++ [0%Q])) as (cdf & ->); [| |exact I].
      * intros k Hk. destruct (Psync1_ok p Hvalid k ltac:(lia)) as (v & -> & _).
        eauto.
      * rewrite length_app. cbn [length]. lia.
    + rewrite imod_Ret in Hc by lia. cbn [bind] in Hc.
      destruct (Z.eqb_spec (SyncParameters.getTScan p mod Spec.Tsf p) 0)
        as [Hz|Hnz].
      * rewrite idiv_Ret in Hc by lia. cbn [bind] in Hc.
        assert (Hn : 1 <= SyncParameters.getTScan p / Spec.Tsf p)
          by (apply Z.div_le_lower_bound; lia).
        apply bind_Ret_inv in Hc as ([sum K] & _ & Hc). injection Hc as _ _ <-.
        destruct (cdf_loop_total
                    (Model.Psync2 p (Wvec p)
                       (SyncParameters.getTScan p / Spec.Tsf p)) max_step
                    (Model.cdf_ results ++ [0%Q])) as (cdf & ->); [| |exact I].
        -- intros k Hk.
           destruct (Psync2_ok p Hvalid _ Hn k ltac:(lia)) as (v & -> & _).
           eauto.
        -- rewrite length_app. cbn [length]. lia.
      * rewrite fdiv_Ret in Hc by (apply inject_Z_nonzero; lia).
        cbn [bind] in Hc.
        apply bind_Ret_inv in Hc as ([T arr] & Hl & Hc).
        injection Hc as _ <- <-.
        apply (case3_loop_length p Hvalid HC) in Hl;
          [|apply (ratio_above p Hvalid); assumption].
        destruct (cdf_loop_total (fun k => vector_at arr k)
                    (Z.of_nat (length arr) - 1)
                    (Model.cdf_ results ++ [0%Q])) as (cdf & ->); [| |exact I].
        -- intros k Hk. eexists. apply vector_at_nth. lia.
        -- rewrite length_app. cbn [length]. lia.
Qed.

Lemma X10_calculate_throws_nothing_witness :
  validated_range Samples.case2 /\
  no_throw (Model.calculate Samples.case2 5 Samples.fresh).
Proof.
  assert (Hrange : validated_range Samples.case2) by in_validated_range.
  split; [exact Hrange|].
  apply (X10_calculate_throws_nothing Samples.case2 5 Samples.fresh).
  - vm_compute. reflexivity.
  - exact Hrange.
Defined.

(** *** When no beacon can be received *)

Section NoDelivery.
Local Open Scope Q_scope.

Variable p : SyncParameters.t.
Hypothesis Hvalid : SyncParameters.valid p.
Hypothesis Hnone : ~ Spec.can_deliver p.

Lemma no_delivery_channel (c : Z) :
  c ∈ SyncParameters.getCHS p -> Spec.pEB p * Spec.pSR p c == 0.
Proof.
  intros Hc.
  pose proof (valid_pEB p Hvalid) as [He _].
  pose proof (valid_pSR_bounds p Hvalid c) as [Hs _].
  destruct (Qlt_le_dec 0 (Spec.pEB p)) as [H1|H1].
  - destruct (Qlt_le_dec 0 (Spec.pSR p c)) as [H2|H2].
    + exfalso. apply Hnone. split; [exact H1|]. exists c. split; assumption.
    + assert (E : Spec.pSR p c == 0) by lra. rewrite E. ring.
  - assert (E : Spec.pEB p == 0) by lra. rewrite E. ring.
Qed.

Lemma no_delivery_Psync2 (n k : Z) : Spec.Psync2 p n k == 0.
Proof.
  unfold Spec.Psync2.
  destruct (Z_lt_le_dec 0 (Spec.C p)) as [HC|HC].
  - rewrite (sum_range_ext _ (fun _ => 0)).
    + unfold Spec.sum_range. rewrite sumQ_const. ring.
    + intros y _. unfold Spec.Pstep_sp, Spec.Pstep.
      rewrite <- (Qmult_assoc (1 / inject_Z (Spec.C p)) (Spec.pEB p)).
      rewrite (no_delivery_channel (Spec.channel p k y))
        by (apply W_in_chs; exact HC).
      ring.
  - rewrite sum_range_empty by lia. reflexivity.
Qed.

Lemma no_delivery_loops (Psync : Z -> outcome Q) (P : Z -> Q) (fuel : nat) :
  (forall k, (1 <= k)%Z -> computes (Psync k) (P k)) ->
  (forall k, P k == 0) ->
  Model.sumOfExpectedValueInCases1and2 p Psync fuel = OutOfFuel.
Proof.
  intros Hc Hz.
  assert (Zc : forall k, Spec.cumulative P k == 0).
  { intros k. unfold Spec.cumulative.
    rewrite (sum_range_ext _ (fun _ => 0)) by (intros; apply Hz).
    unfold Spec.sum_range. rewrite sumQ_const. ring. }
  unfold Model.sumOfExpectedValueInCases1and2.
  apply (sum_loop_below p Psync P Hc).
  - lia.
  - rewrite Zc. reflexivity.
  - intros j _. rewrite Zc. reflexivity.
Qed.

Lemma no_delivery_calculate (fuel : nat) (results : Model.Results) :
  (SyncParameters.getTScan p < Spec.Tsf p)%Z \/
  ((SyncParameters.getTScan p) mod (Spec.Tsf p) = 0)%Z ->
  Model.calculate p fuel results = OutOfFuel.
Proof.
  intros Hcase.
  pose proof (Tsf_pos p Hvalid) as HT.
  pose proof (valid_tScan p Hvalid) as HS.
  unfold Model.calculate, Model.cases. rewrite (W_ok p Hvalid). cbn [bind].
  change (Model.Tscan p) with (SyncParameters.getTScan p).
  change (Model.Tsf p) with (Spec.Tsf p).
  destruct (Z.ltb_spec (SyncParameters.getTScan p) (Spec.Tsf p)) as [Hlt|Hge].
  - rewrite (no_delivery_loops _ (Spec.Psync1 p)); [reflexivity| |].
    + intros k Hk. apply (Psync1_ok p Hvalid k Hk).
    + intros k. rewrite Psync1_is_Psync2. apply no_delivery_Psync2.
  - destruct Hcase as [Hlt|Hz]; [lia|].
    rewrite imod_Ret by lia. cbn [bind]. rewrite Hz. cbn [Z.eqb].
    rewrite idiv_Ret by lia. cbn [bind].
    assert (Hn : (1 <= SyncParameters.getTScan p / Spec.Tsf p)%Z)
      by (apply Z.div_le_lower_bound; lia).
    rewrite (no_delivery_loops _
               (Spec.Psync2 p (SyncParameters.getTScan p / Spec.Tsf p)));
      [reflexivity| |].
    + intros k Hk. apply (Psync2_ok p Hvalid _ Hn k Hk).
    + intros k. apply no_delivery_Psync2.
Qed.

End NoDelivery.

(** X11. In Cases 1 and 2 [calculate] returns only if a beacon can be
    received, that is only if [pEB > 0] and some channel of the sequence has
    [pSR > 0]: without that every [Psync(k)] is 0 and the truncation loop
    never reaches its threshold, whatever the fuel. *)
Theorem X11_series_ends_only_with_delivery (p : SyncParameters.t)
    (results : Model.Results) :
  SyncParameters.valid p ->
  SyncParameters.getTScan p < Spec.Tsf p \/
  (SyncParameters.getTScan p) mod (Spec.Tsf p) = 0 ->
  ((exists fuel r, Model.calculate p fuel results = Ret r) ->
   Spec.can_deliver p) /\
  (~ Spec.can_deliver p ->
   forall fuel, Model.calculate p fuel results = OutOfFuel).
Proof.
  intros Hvalid Hcase.
  assert (Hno : ~ Spec.can_deliver p ->
                forall fuel, Model.calculate p fuel results = OutOfFuel).
  { intros Hn fuel. apply (no_delivery_calculate p Hvalid Hn). exact Hcase. }
  split; [|exact Hno].
  intros (fuel & r & E).
  assert (Hdec : Spec.can_deliver p \/ ~ Spec.can_deliver p).
  { unfold Spec.can_deliver.
    destruct (Qlt_le_dec 0 (Spec.pEB p)) as [H1|H1];
      [|right; intros [H _]; lra].
    destruct (decide (Exists (fun c => Qltb 0 (Spec.pSR p c) = true)
                        (SyncParameters.getCHS p))) as [He|He].
    - left. split; [exact H1|]. apply Exists_exists in He as (c & Hc & H).
      exists c. split; [exact Hc|]. apply Qltb_true. exact H.
    - right. intros (_ & c & Hc & H). apply He. apply Exists_exists.
      exists c. split; [exact Hc|]. apply Qltb_true. exact H. }
  destruct Hdec as [Hd|Hn]; [exact Hd|].
  rewrite (Hno Hn fuel) in E. discriminate.
Qed.

Lemma X11_series_ends_only_with_delivery_witness :
  ~ Spec.can_deliver Samples.silent /\
  forall fuel, Model.calculate Samples.silent fuel Samples.fresh = OutOfFuel.
Proof.
  assert (Hnone : ~ Spec.can_deliver Samples.silent).
  { intros [H _]. vm_compute in H. discriminate. }
  split; [exact Hnone|].
  apply (proj2 (X11_series_ends_only_with_delivery Samples.silent
                  Samples.fresh ltac:(vm_compute; reflexivity)
                  ltac:(left; vm_compute; reflexivity))).
  exact Hnone.
Defined.

(** X12. A configuration without channels, which the constructor accepts,
    never gives a result: in Cases 1 and 2 every [Psync(k)] is an empty sum
    and the truncation loop runs for ever, and in Case 3 the array of
    probabilities keeps its single entry, so that [pSyncArray.at(1)] throws
    [out_of_range]. *)
Theorem X12_no_channel_no_result (p : SyncParameters.t) (fuel : nat)
    (results : Model.Results) :
  SyncParameters.valid p -> SyncParameters.getCHS p = [] ->
  (SyncParameters.getTScan p < Spec.Tsf p \/
   (SyncParameters.getTScan p) mod (Spec.Tsf p) = 0 ->
   Model.calculate p fuel results = OutOfFuel) /\
  (Spec.Tsf p <= SyncParameters.getTScan p ->
   (SyncParameters.getTScan p) mod (Spec.Tsf p) <> 0 ->
   Model.calculate p fuel results = Throw out_of_range).
Proof.
  intros Hvalid Hchs.
  pose proof (Tsf_pos p Hvalid) as HT.
  pose proof (valid_tScan p Hvalid) as HS.
  split.
  - apply (no_delivery_calculate p Hvalid).
    intros (_ & c & Hc & _). rewrite Hchs in Hc. inversion Hc.
  - intros Hge Hnz.
    unfold Model.calculate, Model.cases. rewrite (W_ok p Hvalid). cbn [bind].
    change (Model.Tscan p) with (SyncParameters.getTScan p).
    change (Model.Tsf p) with (Spec.Tsf p).
    destruct (Z.ltb_spec (SyncParameters.getTScan p) (Spec.Tsf p)); [lia|].
    rewrite imod_Ret by lia. cbn [bind].
    destruct (Z.eqb_spec (SyncParameters.getTScan p mod Spec.Tsf p) 0);
      [contradiction|].
    rewrite fdiv_Ret by (apply inject_Z_nonzero; lia). cbn [bind].
    unfold Model.case3_loop, for_range, Model.C, Model.chs. rewrite Hchs.
    cbn [length Z.of_nat Z.sub Z.add Z.to_nat Z.opp Z.pos_sub for_loop bind].
    unfold Model.cdf_loop. cbn [length Z.of_nat Z.sub Z.max Z.compare Z.to_nat
      Pos.to_nat Pos.iter_op Init.Nat.add Z.pos_sub Z.opp].
    cbn [for_loop].
    destruct (Model.cdf_ results) as [|x rest]; reflexivity.
Qed.

Lemma X12_no_channel_no_result_witness :
  Model.calculate Samples.no_channel 7 Samples.fresh = OutOfFuel /\
  Model.calculate Samples.no_channel3 7 Samples.fresh = Throw out_of_range.
Proof.
  split.
  - apply (X12_no_channel_no_result Samples.no_channel 7 Samples.fresh);
      [vm_compute; reflexivity | reflexivity | left; vm_compute; reflexivity].
  - apply (X12_no_channel_no_result Samples.no_channel3 7 Samples.fresh);
      [vm_compute; reflexivity | reflexivity | vm_compute; discriminate
      | vm_compute; discriminate].
Defined.

(** *** The results of Cases 1 and 2 *)

Lemma returned_series (p : SyncParameters.t) (fuel : nat)
    (results r : Model.Results) :
  SyncParameters.valid p -> Model.fresh results ->
  SyncParameters.getTScan p < Spec.Tsf p \/
  (SyncParameters.getTScan p) mod (Spec.Tsf p) = 0 ->
  Model.calculate p fuel results = Ret r ->
  exists (P : Z -> Q) (K : Z),
    Spec.truncation P K /\
    (Model.avgSyncTime r == Spec.expected_time p P K)%Q /\
    Forall2 Qeq (Model.cdf_ r) (Spec.recorded_cdf P K) /\
    (forall k, 1 <= k -> (0 <= P k)%Q) /\
    (forall k, 0 <= k -> (Spec.cumulative P k <= 1)%Q).
Proof.
  intros Hvalid Hfresh Hcase H.
  pose proof (Tsf_pos p Hvalid) as HT.
  pose proof (valid_tScan p Hvalid) as HS.
  destruct (calculate_series_inv p fuel results r Hvalid Hfresh H) as [H1 H2].
  destruct (Z_lt_le_dec (SyncParameters.getTScan p) (Spec.Tsf p)) as [Hlt|Hge].
  - destruct (H1 Hlt) as (K & Ht & _ & Ha & Hc).
    destruct (series_dist p Hvalid 1 ltac:(lia)) as [Hnn Hone].
    exists (Spec.Psync1 p), K. repeat split; try assumption; try apply Ht.
    + intros k Hk. rewrite Psync1_is_Psync2. apply Hnn. exact Hk.
    + intros k Hk.
      rewrite (cumulative_ext _ (Spec.Psync2 p 1))
        by (intros; apply Psync1_is_Psync2).
      apply Hone. exact Hk.
  - destruct Hcase as [Hlt|Hz]; [lia|].
    set (n := SyncParameters.getTScan p / Spec.Tsf p).
    assert (Hn : 1 <= n) by (apply Z.div_le_lower_bound; lia).
    assert (En : SyncParameters.getTScan p = n * Spec.Tsf p).
    { pose proof (Z.div_mod (SyncParameters.getTScan p) (Spec.Tsf p)
                    ltac:(lia)). unfold n. lia. }
    destruct (H2 n Hn En) as (K & Ht & _ & Ha & Hc).
    destruct (series_dist p Hvalid n Hn) as [Hnn Hone].
    exists (Spec.Psync2 p n), K. repeat split; try assumption; apply Ht.
Qed.

Lemma recorded_lookup (cdf : list Q) (P : Z -> Q) (K : Z) :
  Forall2 Qeq cdf (Spec.recorded_cdf P K) ->
  length cdf = S (Z.to_nat K) /\
  forall j, (j <= Z.to_nat K)%nat ->
    exists v, cdf !! j = Some v /\ (v == Spec.cumulative P (Z.of_nat j))%Q.
Proof.
  intros H.
  assert (Hlen : length cdf = S (Z.to_nat K)).
  { apply Forall2_length in H. rewrite H. unfold Spec.recorded_cdf.
    rewrite length_map, length_seq. reflexivity. }
  split; [exact Hlen|]. intros j Hj.
  destruct (cdf !! j) as [v|] eqn:E; [|apply lookup_ge_None in E; lia].
  exists v. split; [reflexivity|].
  eapply Forall2_lookup_l in H as (x & Hx & Hq); [|exact E].
  unfold Spec.recorded_cdf in Hx. rewrite list_lookup_fmap in Hx.
  rewrite lookup_seq_lt in Hx by lia. cbn in Hx. injection Hx as <-.
  exact Hq.
Qed.

(** X13. In Cases 1 and 2 the recorded distribution stops at the first step
    at which it reaches [1 - 1e-9]: [cdf] is below that value at every
    earlier step, at least that value at the last recorded step, and the
    constant 1 afterwards. *)
Theorem X13_series_stops_at_threshold (p : SyncParameters.t) (fuel : nat)
    (results r : Model.Results) :
  SyncParameters.valid p -> Model.fresh results ->
  SyncParameters.getTScan p < Spec.Tsf p \/
  (SyncParameters.getTScan p) mod (Spec.Tsf p) = 0 ->
  Model.calculate p fuel results = Ret r ->
  exists K : nat,
    length (Model.cdf_ r) = S K /\ (1 <= K)%nat /\
    (forall steps, (1 <= steps < K)%nat ->
       exists v, Model.cdf r steps = Ret v /\ (v < 1 - (1 # 1000000000))%Q) /\
    (exists v, Model.cdf r K = Ret v /\ (1 - (1 # 1000000000) <= v)%Q) /\
    (forall steps, (K < steps)%nat -> Model.cdf r steps = Ret 1%Q).
Proof.
  intros Hvalid Hfresh Hcase H.
  destruct (returned_series p fuel results r Hvalid Hfresh Hcase H)
    as (P & K & (HK & Hreach & Hbelow) & _ & Hc & _ & _).
  destruct (recorded_lookup _ _ _ Hc) as [Hlen Hget].
  exists (Z.to_nat K). split; [exact Hlen|]. split; [lia|].
  assert (Hq : forall steps, (1 <= steps <= Z.to_nat K)%nat ->
            exists v, Model.cdf r steps = Ret v /\
                      (v == Spec.cumulative P (Z.of_nat steps))%Q).
  { intros steps Hs. destruct (Hget steps ltac:(lia)) as (v & Ev & Hv).
    exists v. split; [|exact Hv].
    destruct (Model_cdf_spec r steps) as (_ & _ & H2). apply H2; [lia|exact Ev]. }
  split; [|split].
  - intros steps Hs. destruct (Hq steps ltac:(lia)) as (v & Ev & Hv).
    exists v. split; [exact Ev|]. rewrite Hv. apply Hbelow. lia.
  - destruct (Hq (Z.to_nat K) ltac:(lia)) as (v & Ev & Hv).
    exists v. split; [exact Ev|]. rewrite Hv.
    replace (Z.of_nat (Z.to_nat K)) with K by lia.
    exact Hreach.
  - intros steps Hs. destruct (Model_cdf_spec r steps) as (_ & H1 & _).
    apply H1; lia.
Qed.

Lemma X13_series_stops_at_threshold_witness :
  exists r K,
    Model.calculate Samples.reliable_frame 3 Samples.fresh = Ret r /\
    length (Model.cdf_ r) = S K /\ (1 <= K)%nat /\
    (forall steps, (1 <= steps < K)%nat ->
       exists v, Model.cdf r steps = Ret v /\ (v < 1 - (1 # 1000000000))%Q) /\
    (exists v, Model.cdf r K = Ret v /\ (1 - (1 # 1000000000) <= v)%Q) /\
    (forall steps, (K < steps)%nat -> Model.cdf r steps = Ret 1%Q).
Proof.
  eexists.
  destruct (X13_series_stops_at_threshold Samples.reliable_frame 3
              Samples.fresh _
              ltac:(vm_compute; reflexivity) eq_refl
              ltac:(right; vm_compute; reflexivity)
              ltac:(vm_compute; reflexivity)) as (K & HK).
  exists K. split; [vm_compute; reflexivity | exact HK].
Defined.

Section AverageBounds.
Local Open Scope Q_scope.

Lemma weighted_sum_bounds (P t : Z -> Q) (K : Z) (lo hi : Q) :
  (forall k, (1 <= k <= K)%Z -> 0 <= P k) ->
  (forall k, (1 <= k <= K)%Z -> lo <= t k /\ t k <= hi) ->
  lo * Spec.cumulative P K <= Spec.sum_range (fun k => P k * t k) 1 K /\
  Spec.sum_range (fun k => P k * t k) 1 K <= hi * Spec.cumulative P K.
Proof.
  intros HP Ht. unfold Spec.cumulative, Spec.sum_range.
  rewrite <- !sumQ_scale.
  split; apply sumQ_le; intros i Hi.
  - specialize (HP i ltac:(lia)). destruct (Ht i ltac:(lia)). nra.
  - specialize (HP i ltac:(lia)). destruct (Ht i ltac:(lia)). nra.
Qed.

End AverageBounds.

(** X14. In Cases 1 and 2 the average synchronisation time lies between
    [(1 - 1e-9)] times the time of the first step (half a slotframe plus
    [tEB]) and the time of the last recorded step, in seconds. *)
Theorem X14_average_between_steps (p : SyncParameters.t) (fuel : nat)
    (results r : Model.Results) :
  SyncParameters.valid p -> Model.fresh results ->
  SyncParameters.getTScan p < Spec.Tsf p \/
  (SyncParameters.getTScan p) mod (Spec.Tsf p) = 0 ->
  Model.calculate p fuel results = Ret r ->
  ((1 - (1 # 1000000000))
   * (inject_Z (Spec.Tsf p) / 2 + inject_Z (SyncParameters.getTeb p))
   / 1000000000
   <= Model.avgSyncTime r)%Q /\
  (Model.avgSyncTime r
   <= (inject_Z (Z.of_nat (length (Model.cdf_ r)) - 2) * inject_Z (Spec.Tsf p)
       + inject_Z (Spec.Tsf p) / 2 + inject_Z (SyncParameters.getTeb p))
      / 1000000000)%Q.
Proof.
  intros Hvalid Hfresh Hcase H.
  destruct (returned_series p fuel results r Hvalid Hfresh Hcase H)
    as (P & K & (HK & Hreach & Hbelow) & Ha & Hc & Hnn & Hone).
  destruct (recorded_lookup _ _ _ Hc) as [Hlen _].
  pose proof (Tsf_pos p Hvalid) as HT.
  pose proof (valid_tEB p Hvalid) as HE.
  assert (HTq : (0 < inject_Z (Spec.Tsf p))%Q)
    by (change 0%Q with (inject_Z 0); rewrite <- Zlt_Qlt; exact HT).
  assert (HEq : (0 <= inject_Z (SyncParameters.getTeb p))%Q)
    by (change 0%Q with (inject_Z 0); rewrite <- Zle_Qle; exact HE).
  replace (Z.of_nat (length (Model.cdf_ r)) - 2) with (K - 1) by lia.
  rewrite Ha. unfold Spec.expected_time.
  change (Spec.tEB p) with (SyncParameters.getTeb p).
  set (T := inject_Z (Spec.Tsf p)) in *.
  set (e := inject_Z (SyncParameters.getTeb p)) in *.
  assert (Hh : (T / 2 == T * (1 # 2))%Q) by reflexivity.
  set (t := fun k : Z => (inject_Z (k - 1) * T + T / 2 + e)%Q).
  assert (Hk : forall k, 1 <= k <= K ->
            (0 <= inject_Z (k - 1) /\ inject_Z (k - 1) <= inject_Z (K - 1))%Q).
  { intros k Hk. change 0%Q with (inject_Z 0). rewrite <- !Zle_Qle. lia. }
  destruct (weighted_sum_bounds P t K (T / 2 + e) (inject_Z (K - 1) * T + T / 2 + e))
    as [Hlo Hhi].
  - intros k Hk'. apply Hnn. lia.
  - intros k Hk'. unfold t. destruct (Hk k Hk') as [H0 H1].
    set (x := inject_Z (k - 1)) in *. set (y := inject_Z (K - 1)) in *.
    set (h := (T / 2)%Q) in *. clearbody x y h T e. split; nra.
  - specialize (Hone K ltac:(lia)).
    destruct (Hk K ltac:(lia)) as [H0 _].
    change (Spec.sum_range _ 1 K)
      with (Spec.sum_range (fun k => (P k * t k)%Q) 1 K).
    set (s := Spec.sum_range (fun k => (P k * t k)%Q) 1 K) in *.
    set (c := Spec.cumulative P K) in *.
    set (y := inject_Z (K - 1)) in *.
    set (h := (T / 2)%Q) in *.
    clearbody s c y. clear Hk. clearbody h T e.
    split.
    + apply Qmult_le_compat_r; [|discriminate].
      assert (0 <= (h + e) * (c - (1 - (1 # 1000000000))))%Q
        by (apply Qmult_le_0_compat; lra).
      lra.
    + apply Qmult_le_compat_r; [|discriminate].
      assert (0 <= y * T)%Q by (apply Qmult_le_0_compat; lra).
      assert (0 <= (y * T + h + e) * (1 - c))%Q
        by (apply Qmult_le_0_compat; lra).
      lra.
Qed.

Lemma X14_average_between_steps_witness :
  exists r,
    Model.calculate Samples.reliable_frame 3 Samples.fresh = Ret r /\
    ((1 - (1 # 1000000000))
     * (inject_Z (Spec.Tsf Samples.reliable_frame) / 2
        + inject_Z (SyncParameters.getTeb Samples.reliable_frame))
     / 1000000000
     <= Model.avgSyncTime r)%Q /\
    (Model.avgSyncTime r
     <= (inject_Z (Z.of_nat (length (Model.cdf_ r)) - 2)
           * inject_Z (Spec.Tsf Samples.reliable_frame)
         + inject_Z (Spec.Tsf Samples.reliable_frame) / 2
         + inject_Z (SyncParameters.getTeb Samples.reliable_frame))
        / 1000000000)%Q.
Proof.
  eexists. split; [vm_compute; reflexivity|].
  apply (X14_average_between_steps Samples.reliable_frame 3 Samples.fresh).
  - vm_compute; reflexivity.
  - reflexivity.
  - right; vm_compute; reflexivity.
  - vm_compute; reflexivity.
Defined.

(** ** simulator.cpp *)

Lemma ensures_bind {A B} (m : outcome A) (k : A -> outcome B)
    (P : A -> Prop) (R : B -> Prop) :
  ensures m P -> (forall a, P a -> ensures (k a) R) -> ensures (bind m k) R.
Proof. destruct m; cbn; auto. Qed.

Lemma ensures_weaken {A} (o : outcome A) (P R : A -> Prop) :
  ensures o P -> (forall a, P a -> R a) -> ensures o R.
Proof. destruct o; cbn; auto. Qed.

Lemma ensures_no_throw {A} (o : outcome A) (P : A -> Prop) :
  ensures o P -> no_throw o.
Proof. destruct o; cbn; auto. Qed.

Lemma ensures_Ret {A} (o : outcome A) (P : A -> Prop) (a : A) :
  ensures o P -> o = Ret a -> P a.
Proof. intros H ->. exact H. Qed.

Lemma for_loop_ensures {A} (P : Z -> A -> Prop) (n : nat) :
  forall (lo : Z) (body : Z -> A -> outcome A) (acc : A),
    P lo acc ->
    (forall i a, lo <= i < lo + Z.of_nat n -> P i a ->
       ensures (body i a) (P (i + 1))) ->
    ensures (for_loop n lo body acc) (P (lo + Z.of_nat n)).
Proof.
  induction n as [|n IH]; intros lo body acc H0 Hstep; cbn [for_loop].
  - cbn. replace (lo + Z.of_nat 0) with lo by lia. exact H0.
  - eapply ensures_bind; [apply Hstep; [lia | exact H0]|].
    intros a Ha. cbv beta.
    replace (lo + Z.of_nat (S n)) with (lo + 1 + Z.of_nat n) by lia.
    apply IH; [exact Ha|]. intros i a' Hi. apply Hstep. lia.
Qed.

Lemma valid_tSwitch (p : SyncParameters.t) :
  SyncParameters.valid p -> 0 <= SyncParameters.getTSwitch p.
Proof. intros H. exact (valid_conditions p H 8%nat). Qed.

Section SimulatorSafe.

Variable p : SyncParameters.t.
Variable g : Simulator.rng.
Hypothesis Hvalid : SyncParameters.valid p.
Hypothesis Hrng : Simulator.rng_ok p g.

Local Abbreviation chs := (SyncParameters.getCHS p).
Local Abbreviation slot := SyncParameters.DEFAULT_SLOT_DURATION.
Local Abbreviation offset := SyncParameters.DEFAULT_TX_OFFSET.

(** An EB sent on channel [c] can be received. *)
Local Abbreviation receivable :=
  (exists c psr, c ∈ chs /\ SyncParameters.getPsr p !! c = Some psr /\
                 (0 < SyncParameters.getPeb p * psr)%Q).

Lemma C_pos : 0 < Simulator.C p.
Proof.
  destruct Hrng as (H1 & _ & _). specialize (H1 O).
  unfold Simulator.C, Simulator.chs, Simulator.availableChannels in *. lia.
Qed.

Lemma randomChannel_returns (d : Simulator.drawn) :
  exists ch, ch ∈ chs /\
    Simulator.randomChannel p g d
    = Ret (ch, Simulator.mkDrawn (S (Simulator.n1 d)) (Simulator.n2 d)
                 (Simulator.n3 d)).
Proof.
  destruct Hrng as (H1 & _ & _). specialize (H1 (Simulator.n1 d)).
  unfold Simulator.randomChannel, Simulator.availableChannels in *.
  unfold vector_get.
  destruct (Z.ltb_spec (Simulator.randomGenerator1 g (Simulator.n1 d)) 0);
    [lia|].
  destruct (chs !! Z.to_nat (Simulator.randomGenerator1 g (Simulator.n1 d)))
    as [ch|] eqn:E.
  - exists ch. split; [|reflexivity]. eapply list_elem_of_lookup_2. exact E.
  - apply lookup_ge_None in E. lia.
Qed.

Lemma select_loop_ensures (fuel : nat) : forall txTime l d,
  ensures (Simulator.select_loop p g fuel txTime l d)
    (fun '(ch, l', d') =>
       ch ∈ chs /\ Simulator.lastSelectedChannel l' = ch /\
       (Simulator.nextSelectionTime l <= txTime ->
        Simulator.lastSelectionTime l' <= txTime) /\
       txTime < Simulator.nextSelectionTime l').
Proof.
  induction fuel as [|fuel IH]; intros txTime l d; [exact I|].
  cbn [Simulator.select_loop].
  destruct (randomChannel_returns d) as (ch & Hch & ->). cbn [bind].
  match goal with |- ensures (if ?c then _ else _) _ => destruct c eqn:E end.
  - eapply ensures_weaken; [apply IH|].
    intros [[ch' l'] d'] (H1 & H2 & H3 & H4). cbn [Simulator.nextSelectionTime] in H3.
    apply Z.leb_le in E. repeat split; try assumption.
    intros _. apply H3. exact E.
  - apply Z.leb_gt in E. cbn. repeat split; try assumption. auto.
Qed.

Lemma cell_loop_ensures (fuel : nat) : forall asn l d,
  0 <= asn ->
  ensures (Simulator.cell_loop p g fuel asn l d)
    (fun '(tx, _) => asn * slot + offset <= tx /\ receivable).
Proof.
  pose proof C_pos as HC. pose proof (valid_S p Hvalid) as HS.
  induction fuel as [|fuel IH]; intros asn l d Hasn; [exact I|].
  cbn [Simulator.cell_loop].
  rewrite imod_Ret by (assumption || exact HC). cbn [bind].
  assert (Hidx : 0 <= asn mod Simulator.C p < Z.of_nat (length (Simulator.chs p)))
    by (apply Z.mod_pos_bound; exact HC).
  rewrite vector_get_nth by exact Hidx. cbn [bind].
  set (cell := nth (Z.to_nat (asn mod Simulator.C p)) (Simulator.chs p) 0).
  assert (Hcell : cell ∈ chs).
  { apply list_elem_of_In, nth_In.
    unfold Simulator.chs in Hidx. lia. }
  assert (Hnext : forall l' d',
            ensures (Simulator.cell_loop p g fuel (asn + Simulator.S_ p) l' d')
              (fun '(tx, _) => asn * slot + offset <= tx /\ receivable)).
  { intros l' d'. eapply ensures_weaken; [apply IH; unfold Simulator.S_; lia|].
    intros [tx d''] [H1 H2]. split; [|exact H2].
    unfold Simulator.S_, SyncParameters.DEFAULT_SLOT_DURATION in *. nia. }
  eapply ensures_bind with (P := fun _ => True).
  { match goal with |- ensures (if ?c then _ else _) _ => destruct c end.
    - eapply ensures_weaken; [apply select_loop_ensures | trivial].
    - exact I. }
  intros [[scanned l'] d'] _.
  match goal with |- ensures (if ?c then _ else _) _ => destruct c end;
    [|apply Hnext].
  destruct (Z.eqb_spec cell scanned) as [<-|_]; [|apply Hnext].
  unfold Simulator.random.
  destruct (valid_pSR_some p Hvalid cell Hcell) as (v & Ev & Hv).
  unfold map_at. rewrite Ev. cbn [bind].
  match goal with |- ensures (if ?c then _ else _) _ => destruct c eqn:Eu end;
    [|apply Hnext].
  apply Qltb_true in Eu. destruct Hrng as (_ & H2 & _).
  specialize (H2 (Simulator.n2 d')). cbn. split; [lia|].
  exists cell, v. repeat split; [exact Hcell | exact Ev | lra].
Qed.

Lemma receivable_can_deliver : receivable -> Spec.can_deliver p.
Proof.
  intros (c & psr & Hc & E & H).
  destruct (valid_pEB p Hvalid) as [H0 _].
  pose proof (valid_pSR_bounds p Hvalid c) as [H1 _].
  unfold Spec.can_deliver, Spec.pSR, Spec.pEB in *. rewrite E in H1.
  cbn in H1.
  assert (0 < SyncParameters.getPeb p /\ 0 < psr)%Q as [Ha Hb] by nra.
  split; [exact Ha|]. exists c. rewrite E. auto.
Qed.

(** The first minimal cell of a trial is not before the scan start. *)
Lemma first_cell (start : Z) :
  0 <= start ->
  let a := start / slot in
  let r := a mod SyncParameters.getS p in
  let asn :=
    if (r =? 0) && (start <=? a * slot + offset) then a
    else a + SyncParameters.getS p - r in
  0 <= asn /\ start <= asn * slot + offset.
Proof.
  intros Hs a r asn. pose proof (valid_S p Hvalid) as HS.
  assert (Ha : 0 <= a) by (apply Z.div_pos; [exact Hs | reflexivity]).
  assert (Hr : 0 <= r < SyncParameters.getS p) by (apply Z.mod_pos_bound; exact HS).
  assert (Hd : a * slot <= start < (a + 1) * slot).
  { pose proof (Z.div_mod start slot ltac:(discriminate)) as E.
    pose proof (Z.mod_pos_bound start slot ltac:(reflexivity)) as B.
    fold a in E. unfold SyncParameters.DEFAULT_SLOT_DURATION in *. lia. }
  subst asn.
  destruct ((r =? 0) && (start <=? a * slot + offset)) eqn:E.
  - apply andb_true_iff in E as [_ E]. apply Z.leb_le in E. split; [lia|exact E].
  - unfold SyncParameters.DEFAULT_SLOT_DURATION,
      SyncParameters.DEFAULT_TX_OFFSET in *. split; nia.
Qed.

Lemma trial_ensures (fuel : nat) (numRuns : Z) (avg : Q) (counter : gmap Z Z)
    (d : Simulator.drawn) :
  0 < numRuns ->
  ensures (Simulator.trial p g fuel numRuns (avg, counter, d))
    (fun '(avg', counter', _) =>
       (exists step, 0 <= step /\ counter' = Simulator.count step counter) /\
       (avg + seconds (inject_Z (SyncParameters.getTeb p) / inject_Z numRuns)
        <= avg')%Q /\
       receivable).
Proof.
  intros Hn. pose proof (valid_S p Hvalid) as HS.
  unfold Simulator.trial, Simulator.randomScanStartTime. cbv beta iota zeta.
  set (start := Simulator.randomGenerator3 g (Simulator.n3 d)).
  assert (Hstart : 0 <= start) by (destruct Hrng as (_ & _ & H3); apply H3).
  rewrite idiv_Ret by (exact Hstart || reflexivity). cbn [bind].
  rewrite imod_Ret
    by (try (apply Z.div_pos; [exact Hstart | reflexivity]); exact HS).
  cbn [bind].
  destruct (randomChannel_returns
              (Simulator.mkDrawn (Simulator.n1 d) (Simulator.n2 d)
                 (S (Simulator.n3 d)))) as (ch & _ & ->).
  cbn [bind].
  destruct (first_cell start Hstart) as [Hasn Hfirst].
  eapply ensures_bind; [apply cell_loop_ensures; exact Hasn|].
  intros [tx d'] [Htx Hrec]. unfold Simulator.S_ in Htx.
  rewrite !fdiv_Ret.
  2:{ apply inject_Z_nonzero. unfold Simulator.slotframeDuration, Simulator.S_,
        SyncParameters.DEFAULT_SLOT_DURATION. lia. }
  2:{ apply inject_Z_nonzero. lia. }
  cbn [bind ensures].
  assert (HN : (0 < inject_Z numRuns)%Q)
    by (change 0%Q with (inject_Z 0); rewrite <- Zlt_Qlt; exact Hn).
  split; [|split; [|exact Hrec]].
  - eexists. split; [|reflexivity].
    change 0 with (Qceiling 0). apply Qceiling_resp_le.
    apply Qle_shift_div_l.
    + change 0%Q with (inject_Z 0). rewrite <- Zlt_Qlt.
      unfold Simulator.slotframeDuration, Simulator.S_,
        SyncParameters.DEFAULT_SLOT_DURATION. lia.
    + rewrite Qmult_0_l. change 0%Q with (inject_Z 0). rewrite <- Zle_Qle. lia.
  - apply Qplus_le_r. unfold seconds, Qdiv.
    apply Qmult_le_compat_r; [|discriminate].
    apply Qmult_le_compat_r.
    + rewrite <- Zle_Qle. lia.
    + apply Qlt_le_weak, Qinv_lt_0_compat. exact HN.
Qed.

Lemma count_keys (step : Z) (counter : gmap Z Z) :
  0 <= step ->
  (forall k c, counter !! k = Some c -> 0 <= k) ->
  forall k c, Simulator.count step counter !! k = Some c -> 0 <= k.
Proof.
  intros Hs Hk k c. unfold Simulator.count.
  destruct (counter !! step) as [c0|];
    (destruct (decide (step = k)) as [<-|Hne'];
     [intros _; exact Hs | rewrite lookup_insert_ne by exact Hne'; apply Hk]).
Qed.

Lemma trials_ensures (fuel : nat) (numRuns : Z) :
  0 < numRuns ->
  ensures (Simulator.trials p g fuel numRuns)
    (fun '(avg, counter, _) =>
       (seconds (inject_Z (SyncParameters.getTeb p)) <= avg)%Q /\
       Distribution.counted counter = numRuns /\
       Distribution.positive_counters counter /\
       (forall k c, counter !! k = Some c -> 0 <= k) /\
       receivable).
Proof.
  intros Hn. unfold Simulator.trials, for_range.
  set (share := seconds (inject_Z (SyncParameters.getTeb p) / inject_Z numRuns)).
  eapply ensures_weaken.
  - apply (for_loop_ensures
      (fun i '(avg, counter, _) =>
         (inject_Z i * share <= avg)%Q /\
         Distribution.counted counter = i /\
         Distribution.positive_counters counter /\
         (forall k c, counter !! k = Some c -> 0 <= k) /\
         (0 < i -> receivable))).
    + split; [rewrite Qmult_0_l; apply Qle_refl|].
      split; [apply counted_empty|].
      split; [intros k c Hk; rewrite lookup_empty in Hk; discriminate|].
      split; [intros k c Hk; rewrite lookup_empty in Hk; discriminate | lia].
    + intros i [[avg counter] d] Hi (Ha & Hc & Hp & Hk & _).
      eapply ensures_weaken; [apply trial_ensures; exact Hn|].
      intros [[avg' counter'] d'] ((step & Hs & ->) & Ha' & Hrec).
      split; [|split; [|split; [|split]]].
      * rewrite inject_Z_plus. fold share in Ha'.
        change (inject_Z 1) with 1%Q. lra.
      * rewrite counted_count. lia.
      * apply positive_count. exact Hp.
      * apply count_keys; assumption.
      * intros _. exact Hrec.
  - intros [[avg counter] d] (Ha & Hc & Hp & Hk & Hrec).
    replace (0 + Z.of_nat (Z.to_nat (numRuns - 1 - 0 + 1))) with numRuns in *
      by lia.
    split; [|repeat split; try assumption; apply Hrec; exact Hn].
    assert (HN : (0 < inject_Z numRuns)%Q)
      by (change 0%Q with (inject_Z 0); rewrite <- Zlt_Qlt; exact Hn).
    assert (E : (inject_Z numRuns * share
                 == seconds (inject_Z (SyncParameters.getTeb p)))%Q).
    { unfold share, seconds. field. intros E0. rewrite E0 in HN. lra. }
    rewrite <- E. exact Ha.
Qed.

End SimulatorSafe.

Lemma foldr_max_ge (k : Z) (l : list Z) : k <= foldr Z.max k l.
Proof. induction l as [|x l IH]; cbn; lia. Qed.

Lemma create_cdf_no_throw (numRuns : Z) (counter : gmap Z Z) :
  0 < numRuns ->
  Distribution.counted counter = numRuns ->
  (forall k c, counter !! k = Some c -> 0 <= k) ->
  no_throw (Simulator.create_cdf numRuns counter).
Proof.
  intros Hn Hc Hk. unfold Simulator.create_cdf, Simulator.last_key.
  destruct (map_to_list counter) as [|[k v] rest] eqn:E.
  - apply map_to_list_empty_iff in E. subst counter.
    rewrite counted_empty in Hc. lia.
  - cbn [bind]. pose proof (foldr_max_ge k (rest.*1)) as Hmax.
    assert (0 <= k).
    { apply (Hk k v). apply elem_of_map_to_list. rewrite E. left. }
    unfold Simulator.assign.
    destruct (Z.ltb_spec (foldr Z.max k (rest.*1) + 1) 0) as [?|_]; [lia|].
    cbn [bind]. apply no_throw_bind.
    + unfold Simulator.cdf_loop, for_range.
      apply (for_loop_no_throw (fun _ _ => True)); [exact I|].
      intros i [sc cdf] _ _.
      rewrite fdiv_Ret by (apply inject_Z_nonzero; lia). cbn. auto.
    + intros [sc cdf] _. exact I.
Qed.

Lemma run_ensures (p : SyncParameters.t) (g : Simulator.rng) (fuel : nat)
    (numRuns : Z) (results : Simulator.Results) :
  SyncParameters.valid p -> Simulator.rng_ok p g -> 0 < numRuns ->
  ensures (snd (Simulator.run p g fuel numRuns results))
    (fun _ =>
       (seconds (inject_Z (SyncParameters.getTeb p))
        <= Simulator.avgSyncTime
             (fst (Simulator.run p g fuel numRuns results)))%Q /\
       Spec.can_deliver p).
Proof.
  intros Hvalid Hrng Hn.
  pose proof (trials_ensures p g Hvalid Hrng fuel numRuns Hn) as Ht.
  unfold Simulator.run. destruct (Z.leb_spec numRuns 0) as [?|_]; [lia|].
  destruct (Simulator.trials p g fuel numRuns) as [[[avg counter] d]|e|];
    cbn in Ht; [|contradiction | exact I].
  destruct Ht as (Ha & Hc & _ & Hk & Hrec).
  pose proof (create_cdf_no_throw numRuns counter Hn Hc Hk) as Hcdf.
  destruct (Simulator.create_cdf numRuns counter) as [cdf|e|];
    cbn in Hcdf |- *; [|contradiction | exact I].
  split; [exact Ha|]. apply receivable_can_deliver; assumption.
Qed.

(** X15. For parameters the constructor accepts, [numRuns > 0] and draws
    inside the ranges of the three distributions (the channel list is then
    not empty), [run] throws none of the exceptions of the model and has no
    undefined behaviour in the first [fuel] minimal cells of each trial, as
    long as the times of those cells fit the 64-bit nanosecond counters:
    every index is inside its vector, every key is in its map and no
    division is by zero. *)
Theorem X15_run_throws_nothing (p : SyncParameters.t) (g : Simulator.rng)
    (fuel : nat) (numRuns : Z) (results : Simulator.Results) :
  SyncParameters.valid p -> Simulator.rng_ok p g -> 0 < numRuns ->
  (Simulator.C p + Z.of_nat fuel + 1) * Simulator.slotframeDuration p
  + SyncParameters.DEFAULT_TX_OFFSET + Simulator.TSwitch p + Simulator.TScan p
  + SyncParameters.getTeb p < 2 ^ 63 ->
  no_throw (snd (Simulator.run p g fuel numRuns results)).
Proof.
  intros Hvalid Hrng Hn _. eapply ensures_no_throw.
  apply run_ensures; assumption.
Qed.

Ltac steady_draws :=
  split; [|split]; intros n;
  [ pose proof (Z.mod_pos_bound (Z.of_nat n) 2 ltac:(lia)); cbn; lia
  | split; [apply Qle_refl | reflexivity]
  | pose proof (Z.mod_pos_bound (Z.of_nat n) 4 ltac:(lia));
    unfold Simulator.channelRotationCycle, Simulator.C,
      Simulator.slotframeDuration, Simulator.S_,
      SyncParameters.DEFAULT_SLOT_DURATION; cbn; lia ].

Lemma X15_run_throws_nothing_witness :
  no_throw (snd (Simulator.run Samples.case1 Samples.steady 10 3
                   (Simulator.mkResults 0 []))).
Proof.
  apply X15_run_throws_nothing.
  - vm_compute; reflexivity.
  - steady_draws.
  - lia.
  - vm_compute. reflexivity.
Defined.

(** X16. With an empty channel list, which the constructor accepts, [run]
    has undefined behaviour in its first trial, where [randomChannel]
    indexes the empty vector (or, when [s = 0], where the slot number is
    reduced modulo [s]); [results] is not written. *)
Theorem X16_run_without_channels (p : SyncParameters.t) (g : Simulator.rng)
    (fuel : nat) (numRuns : Z) (results : Simulator.Results) :
  SyncParameters.getCHS p = [] -> 0 < numRuns ->
  Simulator.run p g fuel numRuns results = (results, Throw undefined_behaviour).
Proof.
  intros Hchs Hn. unfold Simulator.run.
  destruct (Z.leb_spec numRuns 0) as [?|_]; [lia|].
  assert (E : Simulator.trials p g fuel numRuns = Throw undefined_behaviour).
  { unfold Simulator.trials, for_range.
    replace (Z.to_nat (numRuns - 1 - 0 + 1)) with (S (Z.to_nat (numRuns - 1)))
      by lia.
    cbn [for_loop].
    assert (Et : Simulator.trial p g fuel numRuns
                   (0%Q, ∅, Simulator.mkDrawn 0 0 0)
                 = Throw undefined_behaviour).
    { unfold Simulator.trial, Simulator.randomScanStartTime.
      cbv beta iota zeta. unfold idiv. cbn [Z.eqb bind
        SyncParameters.DEFAULT_SLOT_DURATION].
      unfold imod. destruct (Simulator.S_ p =? 0); [reflexivity|].
      cbn [bind]. unfold Simulator.randomChannel, Simulator.availableChannels.
      rewrite Hchs. unfold vector_get.
      destruct (_ <? 0); reflexivity. }
    rewrite Et. reflexivity. }
  rewrite E. reflexivity.
Qed.

Lemma X16_run_without_channels_witness :
  Simulator.run Samples.no_channel Samples.steady 10 3
    (Simulator.mkResults 1 [0%Q; 1%Q])
  = (Simulator.mkResults 1 [0%Q; 1%Q], Throw undefined_behaviour).
Proof. apply X16_run_without_channels; [reflexivity | lia]. Defined.

(** X17. [run] returns only if an EB can be received, that is [pEB > 0] and
    some channel has [pSR > 0].  Otherwise the loop over the minimal cells
    of the first trial never ends, whatever values are drawn, and [results]
    is not written. *)
Theorem X17_run_needs_delivery (p : SyncParameters.t) (g : Simulator.rng)
    (fuel : nat) (numRuns : Z) (results : Simulator.Results) :
  SyncParameters.valid p -> Simulator.rng_ok p g ->
  (snd (Simulator.run p g fuel numRuns results) = Ret tt ->
   Spec.can_deliver p) /\
  (0 < numRuns -> ~ Spec.can_deliver p ->
   Simulator.run p g fuel numRuns results = (results, OutOfFuel)).
Proof.
  intros Hvalid Hrng. split.
  - intros E. destruct (Z.leb_spec numRuns 0) as [Hle|Hn].
    + unfold Simulator.run in E. apply Z.leb_le in Hle. rewrite Hle in E.
      discriminate.
    + pose proof (run_ensures p g fuel numRuns results Hvalid Hrng Hn) as H.
      rewrite E in H. apply H.
  - intros Hn Hno.
    pose proof (trials_ensures p g Hvalid Hrng fuel numRuns Hn) as Ht.
    unfold Simulator.run. destruct (Z.leb_spec numRuns 0) as [?|_]; [lia|].
    destruct (Simulator.trials p g fuel numRuns) as [[[avg counter] d]|e|];
      cbn in Ht; [|contradiction | reflexivity].
    exfalso. apply Hno. apply receivable_can_deliver; [assumption|]. apply Ht.
Qed.

Lemma X17_run_needs_delivery_witness :
  Simulator.run Samples.silent Samples.steady 10 3 (Simulator.mkResults 1 [0%Q])
  = (Simulator.mkResults 1 [0%Q], OutOfFuel).
Proof.
  apply X17_run_needs_delivery.
  - vm_compute; reflexivity.
  - steady_draws.
  - lia.
  - intros [H _]. vm_compute in H. discriminate.
Defined.

(** X18. The average time [run] records is at least [tEB]: every trial ends
    at a transmission time that is not before its scan start. *)
Theorem X18_average_at_least_tEB (p : SyncParameters.t) (g : Simulator.rng)
    (fuel : nat) (numRuns : Z) (results r : Simulator.Results) :
  SyncParameters.valid p -> Simulator.rng_ok p g ->
  Simulator.run p g fuel numRuns results = (r, Ret tt) ->
  (seconds (inject_Z (SyncParameters.getTeb p)) <= Simulator.avgSyncTime r)%Q.
Proof.
  intros Hvalid Hrng E. destruct (Z.leb_spec numRuns 0) as [Hle|Hn].
  - unfold Simulator.run in E. apply Z.leb_le in Hle. rewrite Hle in E.
    discriminate.
  - pose proof (run_ensures p g fuel numRuns results Hvalid Hrng Hn) as H.
    rewrite E in H. apply H.
Qed.

Lemma select_loop_returns (p : SyncParameters.t) (g : Simulator.rng)
    (txTime : Z) :
  SyncParameters.valid p -> Simulator.rng_ok p g ->
  forall (fuel : nat) (l : Simulator.listening) (d : Simulator.drawn),
    Simulator.nextSelectionTime l <= txTime ->
    (txTime - Simulator.nextSelectionTime l) / SyncParameters.getTScan p + 1
    <= Z.of_nat fuel ->
    exists r, Simulator.select_loop p g fuel txTime l d = Ret r.
Proof.
  intros Hvalid Hrng.
  pose proof (valid_tScan p Hvalid) as HT.
  pose proof (valid_tSwitch p Hvalid) as HW.
  induction fuel as [|fuel IH]; intros l d Hl Hf.
  - pose proof (Z.div_pos (txTime - Simulator.nextSelectionTime l)
                  (SyncParameters.getTScan p) ltac:(lia) HT). lia.
  - cbn [Simulator.select_loop].
    destruct (randomChannel_returns p g Hrng d) as (ch & _ & ->).
    cbn [bind].
    match goal with |- exists r, (if ?c then _ else _) = _ => destruct c eqn:E end;
      [|eexists; reflexivity].
    apply Z.leb_le in E. apply IH; cbn [Simulator.nextSelectionTime].
    + exact E.
    + unfold Simulator.TScan, Simulator.TSwitch in *.
      set (T := SyncParameters.getTScan p) in *.
      set (nx := Simulator.nextSelectionTime l) in *.
      assert (Hd : (txTime - (nx + T)) / T = (txTime - nx) / T - 1).
      { replace (txTime - (nx + T)) with (txTime - nx + (-1) * T) by lia.
        rewrite Z.div_add by lia. lia. }
      destruct (negb (ch =? Simulator.lastSelectedChannel l)).
      * assert ((txTime - (nx + SyncParameters.getTSwitch p + T)) / T
                <= (txTime - (nx + T)) / T)
          by (apply Z.div_le_mono; lia).
        lia.
      * lia.
Qed.

(** X19. The channel-selection loop of a trial ends, and when it is entered
    with [nextSelectionTime <= txTime] it leaves the scan period that covers
    [txTime]: [lastSelectionTime <= txTime < nextSelectionTime], the channel
    it returns being the last one selected, a channel of the list. *)
Theorem X19_select_loop_covers (p : SyncParameters.t) (g : Simulator.rng)
    (fuel : nat) (txTime : Z) (l : Simulator.listening) (d : Simulator.drawn) :
  SyncParameters.valid p -> Simulator.rng_ok p g ->
  Simulator.nextSelectionTime l <= txTime ->
  (txTime - Simulator.nextSelectionTime l) / SyncParameters.getTScan p + 1
  <= Z.of_nat fuel ->
  exists ch l' d',
    Simulator.select_loop p g fuel txTime l d = Ret (ch, l', d') /\
    ch ∈ SyncParameters.getCHS p /\
    Simulator.lastSelectedChannel l' = ch /\
    Simulator.lastSelectionTime l' <= txTime < Simulator.nextSelectionTime l'.
Proof.
  intros Hvalid Hrng Hl Hf.
  destruct (select_loop_returns p g txTime Hvalid Hrng fuel l d Hl Hf)
    as ([[ch l'] d'] & E).
  pose proof (select_loop_ensures p g Hrng fuel txTime l d) as H.
  rewrite E in H. destruct H as (H1 & H2 & H3 & H4).
  exists ch, l', d'. repeat split; auto.
Qed.

Lemma X19_select_loop_covers_witness :
  exists ch l' d',
    Simulator.select_loop Samples.case1_switch Samples.steady 5 32120000
      (Simulator.mkListening 11 0 8000000 true) (Simulator.mkDrawn 1 0 1)
    = Ret (ch, l', d') /\
    ch ∈ SyncParameters.getCHS Samples.case1_switch /\
    Simulator.lastSelectedChannel l' = ch /\
    Simulator.lastSelectionTime l' <= 32120000
      < Simulator.nextSelectionTime l'.
Proof.
  apply X19_select_loop_covers.
  - vm_compute; reflexivity.
  - steady_draws.
  - cbn; lia.
  - vm_compute; discriminate.
Defined.

Lemma X18_average_at_least_tEB_witness :
  exists r,
    Simulator.run Samples.long_beacon Samples.steady 10 3
      (Simulator.mkResults 0 []) = (r, Ret tt) /\
    (seconds (inject_Z (SyncParameters.getTeb Samples.long_beacon))
     <= Simulator.avgSyncTime r)%Q.
Proof.
  eexists. split; [vm_compute; reflexivity|].
  apply (X18_average_at_least_tEB Samples.long_beacon Samples.steady 10 3
           (Simulator.mkResults 0 [])).
  - vm_compute; reflexivity.
  - steady_draws.
  - vm_compute; reflexivity.
Defined.

(** X20. The vector [run] records has an entry for step 0, which is 0, and
    every entry is a whole number of trials, between 0 and [numRuns],
    divided by [numRuns]. *)
Theorem X20_recorded_counts (p : SyncParameters.t) (g : Simulator.rng)
    (fuel : nat) (numRuns : Z) (results r : Simulator.Results) :
  SyncParameters.valid p -> Simulator.rng_ok p g ->
  Simulator.run p g fuel numRuns results = (r, Ret tt) ->
  (exists v, Simulator.cdf_ r !! 0%nat = Some v /\ (v == 0)%Q) /\
  forall j v, Simulator.cdf_ r !! j = Some v ->
    exists k, 0 <= k <= numRuns /\ (v == inject_Z k / inject_Z numRuns)%Q.
Proof.
  intros Hvalid Hrng E. unfold Simulator.run in E.
  destruct (Z.leb_spec numRuns 0) as [Hle|Hn]; [discriminate|].
  pose proof (trials_ensures p g Hvalid Hrng fuel numRuns Hn) as Ht.
  destruct (Simulator.trials p g fuel numRuns) as [[[avg counter] d]|e|];
    cbn in Ht; [|contradiction | discriminate].
  destruct Ht as (_ & Hc & Hp & Hk & _).
  destruct (Simulator.create_cdf numRuns counter) as [cdf|e|] eqn:Ec;
    [|discriminate | discriminate].
  injection E as <-. cbn [Simulator.cdf_].
  unfold Simulator.create_cdf, Simulator.last_key in Ec.
  destruct (map_to_list counter) as [|[k0 v0] rest] eqn:El; [discriminate|].
  cbn [bind] in Ec. pose proof (foldr_max_ge k0 (rest.*1)) as Hmax.
  assert (0 <= k0).
  { apply (Hk k0 v0). apply elem_of_map_to_list. rewrite El. left. }
  unfold Simulator.assign in Ec.
  destruct (Z.ltb_spec (foldr Z.max k0 (rest.*1) + 1) 0) as [?|_]; [lia|].
  cbn [bind] in Ec.
  apply bind_Ret_inv in Ec as ([sc cdf'] & Hl & Ec). injection Ec as ->.
  apply cdf_loop_records_counts in Hl as [Hlen Hall]; [|exact Hn].
  split.
  - destruct (cdf !! 0%nat) as [v|] eqn:E0.
    + exists v. split; [reflexivity|]. rewrite (Hall _ _ E0). reflexivity.
    + apply lookup_ge_None in E0. lia.
  - intros j v Hv. eexists. split; [|exact (Hall _ _ Hv)].
    pose proof (upto_mono counter 0 (Z.of_nat j) Hp ltac:(lia)) as [_ H0].
    pose proof (partial_count_le counter Hp 1 (Z.to_nat (Z.of_nat j))) as H1.
    rewrite Hc in H1. change (Z.to_nat 0) with 0%nat in H0.
    cbn [Distribution.sumZ] in H0. lia.
Qed.

Lemma X20_recorded_counts_witness :
  exists r,
    Simulator.run Samples.case1 Samples.steady 10 3 (Simulator.mkResults 0 [])
    = (r, Ret tt) /\
    (exists v, Simulator.cdf_ r !! 0%nat = Some v /\ (v == 0)%Q) /\
    forall j v, Simulator.cdf_ r !! j = Some v ->
      exists k, 0 <= k <= 3 /\ (v == inject_Z k / inject_Z 3)%Q.
Proof.
  eexists. split; [vm_compute; reflexivity|].
  apply (X20_recorded_counts Samples.case1 Samples.steady 10 3
           (Simulator.mkResults 0 [])).
  - vm_compute; reflexivity.
  - steady_draws.
  - vm_compute; reflexivity.
Defined.

(** ** modelvalidation.cpp *)

Lemma sum_snoc (l : list Z) (x : Z) :
  foldr Z.add 0 (l ++ [x]) = foldr Z.add 0 l + x.
Proof. induction l as [|y l IH]; cbn; lia. Qed.

(** X21. Once [makeValidation] has accepted [numThreads], the workers of a
    comparison are [numThreads] in number, their numbers of cases add up to
    [NUM_RANDOM_CASES], and no two of them differ by more than one case. *)
Theorem X21_workers_share_cases (numThreads : Z) :
  ModelValidator.check_numThreads numThreads = Ret tt ->
  exists l,
    ModelValidator.worker_numCases numThreads = Ret l /\
    Z.of_nat (length l) = numThreads /\
    foldr Z.add 0 l = ModelValidator.NUM_RANDOM_CASES /\
    Forall (fun n =>
              ModelValidator.NUM_RANDOM_CASES / numThreads <= n
              <= ModelValidator.NUM_RANDOM_CASES / numThreads + 1) l.
Proof.
  unfold ModelValidator.check_numThreads.
  destruct (Z.ltb_spec numThreads 1) as [?|HT]; [discriminate|]. intros _.
  unfold ModelValidator.worker_numCases.
  destruct (Z.eqb_spec numThreads 1) as [->|Hne].
  - exists [ModelValidator.NUM_RANDOM_CASES]. repeat split.
    repeat constructor; rewrite Z.div_1_r; lia.
  - set (N := ModelValidator.NUM_RANDOM_CASES).
    set (q := N / numThreads). set (r := N mod numThreads).
    assert (HN : 0 <= N) by (unfold N; vm_compute; discriminate).
    assert (Hr : 0 <= r < numThreads) by (apply Z.mod_pos_bound; lia).
    assert (Hq : N = numThreads * q + r) by (apply Z.div_mod; lia).
    destruct (for_range_inv
      (fun i threads =>
         Z.of_nat (length threads) = i - 1 /\
         foldr Z.add 0 threads = (i - 1) * q + Z.min (i - 1) r /\
         Forall (fun n => q <= n <= q + 1) threads)
      1 numThreads
      (fun i threads =>
         let* r := imod N numThreads in
         if r >=? i then
           let* q := idiv N numThreads in Ret (threads ++ [q + 1])
         else
           let* q := idiv N numThreads in Ret (threads ++ [q]))
      []) as (l & El & Hlen & Hsum & Hall).
    + lia.
    + cbn. repeat split; [lia | constructor].
    + intros i threads Hi (Hlen & Hsum & Hall).
      rewrite imod_Ret by lia. cbn [bind]. fold r.
      rewrite idiv_Ret by lia. cbn [bind]. fold q.
      destruct (Z.geb_spec r i) as [Hge|Hlt]; eexists; (split; [reflexivity|]);
        rewrite length_app, sum_snoc, Forall_app, Hsum; cbn [length];
        (split; [lia|]); (split; [lia|]);
        (split; [exact Hall | constructor; [lia | constructor]]).
    + exists l. split; [exact El|]. split; [lia|]. split; [|exact Hall].
      rewrite Hsum. lia.
Qed.

Lemma X21_workers_share_cases_witness :
  exists l,
    ModelValidator.worker_numCases 3 = Ret l /\
    Z.of_nat (length l) = 3 /\
    foldr Z.add 0 l = ModelValidator.NUM_RANDOM_CASES /\
    Forall (fun n =>
              ModelValidator.NUM_RANDOM_CASES / 3 <= n
              <= ModelValidator.NUM_RANDOM_CASES / 3 + 1) l.
Proof. apply (X21_workers_share_cases 3). reflexivity. Defined.

Section CdfError.
Import Distribution.
Local Open Scope Q_scope.

Variable m : Model.Results.
Variable s : Simulator.Results.
Hypothesis Hm : is_cdf (Model.cdf m).
Hypothesis Hs : is_cdf (Simulator.cdf s).

(** The two distributions are 1 from step [N] on. *)
Variable N : nat.
Hypothesis HN : forall k, (N <= k)%nat ->
  Model.cdf m k = Ret 1 /\ Simulator.cdf s k = Ret 1.

(** The absolute error at step [k] is [e]. *)
Local Abbreviation error_at k e :=
  (exists vm vs, Model.cdf m k = Ret vm /\ Simulator.cdf s k = Ret vs /\
                 Qabs (vm - vs) == e).

Lemma error_defined (k : nat) : (1 <= k)%nat -> exists e, error_at k e /\ 0 <= e.
Proof.
  intros Hk. destruct Hm as (H1 & _ & _), Hs as (H2 & _ & _).
  destruct (H1 k Hk) as (vm & Em & _), (H2 k Hk) as (vs & Es & _).
  exists (Qabs (vm - vs)). split; [|apply Qabs_nonneg].
  exists vm, vs. repeat split; [exact Em | exact Es].
Qed.

(** From a step at which both distributions have reached 1 the error is 0. *)
Lemma error_after (k j : nat) (vm vs : Q) :
  (1 <= k <= j)%nat ->
  Model.cdf m k = Ret vm -> Simulator.cdf s k = Ret vs ->
  1 <= vm -> 1 <= vs ->
  forall e, error_at j e -> e == 0.
Proof.
  intros Hkj Em Es Hvm Hvs e (wm & ws & Fm & Fs & <-).
  destruct Hm as (B1 & M1 & _), Hs as (B2 & M2 & _).
  pose proof (M1 k j vm wm Hkj Em Fm). pose proof (M2 k j vs ws Hkj Es Fs).
  destruct (B1 j ltac:(lia)) as (x & Ex & Hx). rewrite Fm in Ex. injection Ex as <-.
  destruct (B2 j ltac:(lia)) as (y & Ey & Hy). rewrite Fs in Ey. injection Ey as <-.
  assert (E : wm - ws == 0) by lra. rewrite E. reflexivity.
Qed.

(** What the loop has established before it tests step [k]. *)
Local Abbreviation seen k e :=
  ((forall j d, (1 <= j < k)%nat -> error_at j d -> d <= e) /\
   ((e == -1 /\ (k = 1)%nat) \/ exists j, (1 <= j < k)%nat /\ error_at j e)).

(** What the loop returns. *)
Local Abbreviation largest e :=
  ((e == -1 /\
    forall k vm vs, (1 <= k)%nat ->
      Model.cdf m k = Ret vm -> Simulator.cdf s k = Ret vs ->
      vm == 1 /\ vs == 1) \/
   ((forall k d, (1 <= k)%nat -> error_at k d -> d <= e) /\
    exists k, (1 <= k)%nat /\ error_at k e)).

Lemma cdf_error_loop_returns (fuel : nat) : forall (k : nat) (e : Q),
  (1 <= k)%nat -> (1 <= fuel)%nat -> (N < fuel + k)%nat ->
  seen k e ->
  exists e', ModelValidator.cdf_error_loop fuel k m s e = Ret e' /\ largest e'.
Proof.
  induction fuel as [|fuel IH]; intros k e Hk Hf HNk [Hle Hat]; [lia|].
  cbn [ModelValidator.cdf_error_loop].
  destruct Hm as (B1 & M1 & _), Hs as (B2 & M2 & _).
  destruct (B1 k Hk) as (vm & Em & Hvm), (B2 k Hk) as (vs & Es & Hvs).
  set (d := Qabs (vm - vs)).
  assert (Hgo : Qltb vm 1 || Qltb vs 1 = true ->
            exists e',
              ModelValidator.cdf_error_loop fuel (S k) m s
                (if Qltb e d then d else e) = Ret e' /\ largest e').
  { intros Ego.
    assert (Hlt : (k < N)%nat).
    { destruct (Nat.lt_ge_cases k N) as [?|Hge]; [assumption|]. exfalso.
      destruct (HN k Hge) as [E1 E2]. rewrite E1 in Em. rewrite E2 in Es.
      injection Em as <-. injection Es as <-. discriminate. }
    apply IH; [lia | lia | lia |].
    assert (Hd : error_at k d) by (exists vm, vs; repeat split; assumption).
    assert (Hd0 : 0 <= d) by apply Qabs_nonneg.
    assert (Huniq : forall d', error_at k d' -> d' == d).
    { intros d' (wm & ws & Fm & Fs & <-). rewrite Em in Fm. rewrite Es in Fs.
      injection Fm as <-. injection Fs as <-. reflexivity. }
    destruct (Qltb e d) eqn:Ecmp.
    + apply Qltb_true in Ecmp. split.
      * intros j d' Hj Hj'. destruct (Nat.eq_dec j k) as [->|Hne].
        -- rewrite (Huniq d' Hj'). apply Qle_refl.
        -- specialize (Hle j d' ltac:(lia) Hj'). lra.
      * right. exists k. split; [lia | exact Hd].
    + apply Qltb_false in Ecmp. split.
      * intros j d' Hj Hj'. destruct (Nat.eq_dec j k) as [->|Hne].
        -- rewrite (Huniq d' Hj'). exact Ecmp.
        -- apply (Hle j d'); [lia | exact Hj'].
      * right. destruct Hat as [[He _]|(j & Hj & Hj')]; [lra|].
        exists j. split; [lia | exact Hj']. }
  assert (Hstop : Qltb vm 1 = false -> Qltb vs 1 = false -> largest e).
  { intros G1 G2. apply Qltb_false in G1. apply Qltb_false in G2.
    assert (Hzero : forall j d', (k <= j)%nat -> error_at j d' -> d' == 0).
    { intros j d' Hj. apply (error_after k j vm vs); auto. }
    destruct Hat as [[He ->]|(j & Hj & Hj')].
    + left. split; [exact He|]. intros j wm ws Hj Fm Fs.
      pose proof (M1 1%nat j vm wm ltac:(lia) Em Fm).
      pose proof (M2 1%nat j vs ws ltac:(lia) Es Fs).
      destruct (B1 j Hj) as (x & Ex & Hx). rewrite Fm in Ex. injection Ex as <-.
      destruct (B2 j Hj) as (y & Ey & Hy). rewrite Fs in Ey. injection Ey as <-.
      split; lra.
    + right. split; [|exists j; split; [lia | exact Hj']].
      assert (He0 : 0 <= e).
      { destruct Hj' as (wm & ws & _ & _ & <-). apply Qabs_nonneg. }
      intros i d' Hi Hd. destruct (Nat.lt_ge_cases i k) as [Hik|Hik].
      * apply (Hle i d'); [lia | exact Hd].
      * rewrite (Hzero i d' Hik Hd). exact He0. }
  rewrite Em, Es. cbn [bind].
  destruct (Qltb vm 1) eqn:G1; cbn [bind].
  - apply Hgo. reflexivity.
  - destruct (Qltb vs 1) eqn:G2; cbn [bind].
    + apply Hgo. reflexivity.
    + exists e. split; [reflexivity | apply Hstop; reflexivity].
Qed.

End CdfError.

(** X22. On two recorded distributions the loop that compares them ends, and
    [maxAbsoluteErrorInCDF] is the largest absolute difference between
    [model_results.cdf(k)] and [sim_results.cdf(k)] over all steps
    [k >= 1], a difference that some step attains; it keeps its initial
    value -1 only when both distributions are 1 at every step. *)
Theorem X22_cdf_error_is_largest (fuel : nat) (m : Model.Results)
    (s : Simulator.Results) :
  Distribution.recorded_ok (Model.cdf_ m) ->
  Distribution.recorded_ok (Simulator.cdf_ s) ->
  (1 <= fuel)%nat ->
  (length (Model.cdf_ m) <= fuel)%nat ->
  (length (Simulator.cdf_ s) <= fuel)%nat ->
  exists e,
    ModelValidator.maxAbsoluteErrorInCDF fuel m s = Ret e /\
    (((e == -1)%Q /\
      forall k vm vs, (1 <= k)%nat ->
        Model.cdf m k = Ret vm -> Simulator.cdf s k = Ret vs ->
        (vm == 1 /\ vs == 1)%Q) \/
     ((forall k vm vs, (1 <= k)%nat ->
         Model.cdf m k = Ret vm -> Simulator.cdf s k = Ret vs ->
         (Qabs (vm - vs) <= e)%Q) /\
      exists k vm vs, (1 <= k)%nat /\
        Model.cdf m k = Ret vm /\ Simulator.cdf s k = Ret vs /\
        (Qabs (vm - vs) == e)%Q)).
Proof.
  intros Hm Hs Hf Hlm Hls.
  apply Model_recorded_is_cdf in Hm. apply Simulator_recorded_is_cdf in Hs.
  set (N := Nat.max 1 (Nat.max (length (Model.cdf_ m))
                         (length (Simulator.cdf_ s)))).
  destruct (cdf_error_loop_returns m s Hm Hs N) with (fuel := fuel)
    (k := 1%nat) (e := (-1)%Q) as (e & Ee & He).
  - intros k Hk. split.
    + destruct (Model_cdf_spec m k) as (_ & H1 & _). apply H1; lia.
    + destruct (Simulator_cdf_spec s k) as (_ & H1 & _). apply H1; lia.
  - lia.
  - exact Hf.
  - lia.
  - split; [intros j d Hj; lia|]. left. split; reflexivity.
  - exists e. split; [exact Ee|]. destruct He as [He|[Hle (k & Hk & vm & vs & Hat)]].
    + left. exact He.
    + right. split.
      * intros j vm' vs' Hj Em Es. apply (Hle j); [exact Hj|].
        exists vm', vs'. repeat split; [exact Em | exact Es].
      * exists k, vm, vs. tauto.
Qed.

Lemma X22_cdf_error_is_largest_witness :
  exists e,
    ModelValidator.maxAbsoluteErrorInCDF 4
      (Model.mkResults 0 [0; 1 # 2; 1]%Q)
      (Simulator.mkResults 0 [0; 1 # 4; 3 # 4; 1]%Q) = Ret e /\
    (e == 1 # 4)%Q.
Proof.
  destruct (X22_cdf_error_is_largest 4
              (Model.mkResults 0 [0; 1 # 2; 1]%Q)
              (Simulator.mkResults 0 [0; 1 # 4; 3 # 4; 1]%Q))
    as (e & He & _).
  - split; cbn [Model.cdf_].
    + intros i v H. destruct i as [|[|[|i]]]; cbn in H; try discriminate;
        injection H as <-; lra.
    + intros i j vi vj Hij Hi Hj.
      destruct i as [|[|[|i]]]; cbn in Hi; try discriminate;
        destruct j as [|[|[|j]]]; cbn in Hj; try discriminate;
        injection Hi as <-; injection Hj as <-; (lra || lia).
  - split; cbn [Simulator.cdf_].
    + intros i v H. destruct i as [|[|[|[|i]]]]; cbn in H; try discriminate;
        injection H as <-; lra.
    + intros i j vi vj Hij Hi Hj.
      destruct i as [|[|[|[|i]]]]; cbn in Hi; try discriminate;
        destruct j as [|[|[|[|j]]]]; cbn in Hj; try discriminate;
        injection Hi as <-; injection Hj as <-; (lra || lia).
  - lia.
  - cbn; lia.
  - cbn; lia.
  - exists e. split; [exact He|]. vm_compute in He. injection He as <-. reflexivity.
Defined.

Lemma truncate_floor (x : Q) : (0 <= x)%Q -> truncate x = Qfloor x.
Proof.
  destruct x as [n d]. unfold Qle, truncate, Qfloor. cbn. intros H.
  apply Z.quot_div_nonneg; lia.
Qed.




Lemma chrono_round_integer (x : Q) (z : Z) :
  (x == inject_Z z)%Q -> chrono_round x = z.
Proof.
  intros E. unfold chrono_round. cbv zeta.
  assert (Ef : Qfloor x = z) by (apply Qfloor_unique; rewrite E; lra).
  rewrite Ef.
  assert (Hd : Qltb (x - inject_Z z) (1 # 2) = true)
    by (apply Qltb_true; rewrite E; lra).
  rewrite Hd. reflexivity.
Qed.

(** X24. The scan periods of the second and third comparison fall into the
    cases of the model they are meant for.  For an integer [n >= 1],
    [tScan] is exactly [n] slotframes, which is Case 2.  For the first
    branch of [custom_real_n_distribution], [n = m + 2^-e] with [m >= 1] and
    [e] from 1 to 4, the rounding changes nothing and [tScan] is longer than
    a slotframe without being a multiple of it, which is Case 3.  The scan
    period [optimalTscan] of [c] slotframes is the one that [n = c] gives. *)
Theorem X24_scan_period_cases (p : SyncParameters.t) (n : Q) :
  1 <= SyncParameters.getS p ->
  SyncParameters.getTScan p = ModelValidator.tScan n (SyncParameters.getS p) ->
  (forall k, 1 <= k -> n = inject_Z k ->
     SyncParameters.getTScan p = k * Spec.Tsf p /\
     (SyncParameters.getTScan p) mod (Spec.Tsf p) = 0 /\
     SyncParameters.getTScan p
     = ModelValidator.optimalTscan k (SyncParameters.getS p)) /\
  (forall m e u, 1 <= m -> 1 <= e <= 4 ->
     n = ModelValidator.custom_real_n_distribution true m e u ->
     (inject_Z (SyncParameters.getTScan p)
      == n * inject_Z (SyncParameters.getS p)
         * inject_Z SyncParameters.DEFAULT_SLOT_DURATION)%Q /\
     Spec.Tsf p < SyncParameters.getTScan p /\
     (SyncParameters.getTScan p) mod (Spec.Tsf p) <> 0).
Proof.
  intros Hs ->. unfold Spec.Tsf, ModelValidator.tScan.
  set (s := SyncParameters.getS p) in *.
  unfold SyncParameters.DEFAULT_SLOT_DURATION. split.
  - intros k Hk ->.
    rewrite (chrono_round_integer _ (k * (10000000 * s))).
    + split; [reflexivity|]. split; [apply Z.mod_mul; lia|].
      unfold ModelValidator.optimalTscan,
        SyncParameters.DEFAULT_SLOT_DURATION. ring.
    + rewrite !inject_Z_mult. ring.
  - intros m e u Hm He ->. unfold ModelValidator.custom_real_n_distribution.
    assert (Hc : exists c, 0 < c < 10000000 /\
              (pow 2 (- e) * inject_Z 10000000 == inject_Z c)%Q).
    { assert (e = 1 \/ e = 2 \/ e = 3 \/ e = 4) as [-> | [-> | [-> | ->]]] by lia;
        [exists 5000000 | exists 2500000 | exists 1250000 | exists 625000];
        (split; [lia | vm_compute; reflexivity]). }
    destruct Hc as (c & Hc & Ec).
    assert (Ex : ((inject_Z m + pow 2 (- e)) * inject_Z s * inject_Z 10000000
                  == inject_Z (s * c + m * (10000000 * s)))%Q).
    { transitivity (inject_Z m * inject_Z s * inject_Z 10000000
                    + inject_Z s * (pow 2 (- e) * inject_Z 10000000))%Q;
        [ring|].
      rewrite Ec, inject_Z_plus, !inject_Z_mult. ring. }
    rewrite (chrono_round_integer _ _ Ex). split; [|split].
    + rewrite Ex. reflexivity.
    + nia.
    + rewrite Z.mod_add by lia. rewrite Z.mod_small by nia. nia.
Qed.

Lemma X24_scan_period_cases_witness :
  Spec.Tsf Samples.case3 < SyncParameters.getTScan Samples.case3 /\
  (SyncParameters.getTScan Samples.case3) mod (Spec.Tsf Samples.case3) <> 0.
Proof.
  apply (proj2 (X24_scan_period_cases Samples.case3 (3 # 2)
                  ltac:(cbn; lia) ltac:(vm_compute; reflexivity))
           1 1 0%Q).
  - lia.
  - lia.
  - vm_compute; reflexivity.
Defined.

(** ** main.cpp *)

Lemma push_loop {A} (x : A) (n : nat) : forall (lo : Z) (acc : list A),
  for_loop n lo (fun _ temp => Ret (temp ++ [x])) acc
  = Ret (acc ++ replicate n x).
Proof.
  induction n as [|n IH]; intros lo acc; cbn [for_loop replicate bind].
  - rewrite app_nil_r. reflexivity.
  - rewrite IH, <- app_assoc. reflexivity.
Qed.

Lemma pad_returns (size : nat) (fuel : nat) : forall temp : list Q,
  (size - length temp < fuel)%nat ->
  Main.pad fuel size temp = Ret (temp ++ replicate (size - length temp) 0%Q).
Proof.
  induction fuel as [|fuel IH]; intros temp Hf; [lia|].
  cbn [Main.pad]. destruct (Nat.ltb_spec (length temp) size) as [Hlt|Hge].
  - rewrite IH by (rewrite length_app; cbn; lia).
    rewrite length_app. cbn [length].
    replace (size - length temp)%nat with (S (size - (length temp + 1)))%nat
      by lia.
    cbn [replicate]. rewrite <- app_assoc. reflexivity.
  - replace (size - length temp)%nat with 0%nat by lia.
    cbn. rewrite app_nil_r. reflexivity.
Qed.

(** The loop [for (i = 0; i < chs.size(); i++) pSR[chs[i]] = temp[i]]. *)
Lemma fill_loop (chs : list Z) (temp : list Q) :
  NoDup chs -> (length chs <= length temp)%nat ->
  exists pSR : gmap Z Q,
    for_range 0 (Z.of_nat (length chs) - 1)
      (fun i pSR =>
         let* ch := vector_get chs i in
         let* v := vector_get temp i in
         Ret (<[ch := v]> pSR))
      ∅ = Ret pSR /\
    (forall j c v, chs !! j = Some c -> temp !! j = Some v ->
       pSR !! c = Some v) /\
    (forall c, is_Some (pSR !! c) -> c ∈ chs).
Proof.
  intros Hnd Hlen.
  destruct (for_range_inv
    (fun i (pSR : gmap Z Q) =>
       (forall j c v, (Z.of_nat j < i) -> chs !! j = Some c ->
          temp !! j = Some v -> pSR !! c = Some v) /\
       (forall c, is_Some (pSR !! c) ->
          exists j, Z.of_nat j < i /\ chs !! j = Some c))
    0 (Z.of_nat (length chs) - 1)
    (fun i pSR =>
       let* ch := vector_get chs i in
       let* v := vector_get temp i in
       Ret (<[ch := v]> pSR))
    ∅) as (pSR & E & H1 & H2).
  - lia.
  - split; [intros; lia|]. intros c [v Hv]. rewrite lookup_empty in Hv.
    discriminate.
  - intros i pSR Hi [H1 H2].
    destruct (chs !! Z.to_nat i) as [ch|] eqn:Ec;
      [|apply lookup_ge_None in Ec; lia].
    destruct (temp !! Z.to_nat i) as [v|] eqn:Ev;
      [|apply lookup_ge_None in Ev; lia].
    unfold vector_get. destruct (Z.ltb_spec i 0) as [?|_]; [lia|].
    rewrite Ec, Ev. cbn [bind]. eexists. split; [reflexivity|]. split.
    + intros j c w Hj Hc Hw.
      destruct (decide (j = Z.to_nat i)) as [->|Hne].
      * rewrite Ec in Hc. rewrite Ev in Hw. injection Hc as <-.
        injection Hw as <-. apply lookup_insert_eq.
      * assert (ch <> c).
        { intros <-. apply Hne. eapply NoDup_lookup; eassumption. }
        rewrite lookup_insert_ne by assumption.
        apply (H1 j); [lia | assumption | assumption].
    + intros c Hc. destruct (decide (ch = c)) as [<-|Hne].
      * exists (Z.to_nat i). split; [lia | exact Ec].
      * rewrite lookup_insert_ne in Hc by assumption.
        destruct (H2 c Hc) as (j & Hj & Hjc). exists j. split; [lia|exact Hjc].
  - exists pSR. split; [exact E|]. split.
    + intros j c v Hc Hv. apply (H1 j); [|assumption|assumption].
      apply lookup_lt_Some in Hc. lia.
    + intros c Hc. destruct (H2 c Hc) as (j & _ & Hj).
      eapply list_elem_of_lookup_2. exact Hj.
Qed.

(** The loop [for (int ch : chs) pSR[ch] = averagePsr]. *)
Lemma fill_same (a : Q) (chs : list Z) : forall (acc : gmap Z Q) (c : Z),
  foldl (fun pSR ch => <[ch := a]> pSR) acc chs !! c
  = if decide (c ∈ chs) then Some a else acc !! c.
Proof.
  induction chs as [|x chs IH]; intros acc c; cbn [foldl].
  - destruct (decide (c ∈ [])) as [H|_]; [inversion H | reflexivity].
  - rewrite IH. destruct (decide (c ∈ chs)) as [H|H].
    + rewrite decide_True by (right; exact H). reflexivity.
    + destruct (decide (c = x)) as [->|Hne].
      * rewrite decide_True by left. apply lookup_insert_eq.
      * rewrite decide_False by (rewrite elem_of_cons; tauto).
        apply lookup_insert_ne. congruence.
Qed.

Lemma total_replicate (n : nat) (x : Q) :
  (Distribution.total (replicate n x) == inject_Z (Z.of_nat n) * x)%Q.
Proof.
  induction n as [|n IH].
  - cbn. ring.
  - cbn [replicate Distribution.total foldr].
    change (foldr Qplus 0%Q (replicate n x))
      with (Distribution.total (replicate n x)).
    rewrite IH, Nat2Z.inj_succ. unfold Z.succ. rewrite inject_Z_plus. ring.
Qed.

Lemma total_concat (l l' : list Q) :
  (Distribution.total (l ++ l') == Distribution.total l + Distribution.total l')%Q.
Proof.
  unfold Distribution.total.
  induction l as [|a l IH]; cbn [app foldr]; [ring | rewrite IH; ring].
Qed.

(** What the two fillings of [pSR] have in common. *)
Lemma filled_shape (chs : list Z) (vals : list Q) (pSR : gmap Z Q) :
  length vals = length chs ->
  (forall j c v, chs !! j = Some c -> vals !! j = Some v -> pSR !! c = Some v) ->
  (forall c, is_Some (pSR !! c) -> c ∈ chs) ->
  Forall (fun v => (0 <= v /\ v <= 1)%Q) vals ->
  SyncParameters.cond6 chs pSR /\
  (fun c => default 0%Q (pSR !! c)) <$> chs = vals /\
  (forall c v, pSR !! c = Some v ->
     exists j, chs !! j = Some c /\ vals !! j = Some v).
Proof.
  intros Hlen Hfill Hdom Hall.
  assert (Hidx : forall c v, pSR !! c = Some v ->
            exists j, chs !! j = Some c /\ vals !! j = Some v).
  { intros c v Hv. assert (Hc : c ∈ chs) by (apply Hdom; eauto).
    apply list_elem_of_lookup_1 in Hc as [j Hj].
    destruct (vals !! j) as [w|] eqn:Ew.
    - pose proof (Hfill j c w Hj Ew) as Hw. rewrite Hv in Hw.
      injection Hw as <-. eauto.
    - apply lookup_ge_None in Ew. apply lookup_lt_Some in Hj. lia. }
  split; [|split; [|exact Hidx]].
  - split; [|split; [|exact Hdom]].
    + intros c Hc. apply list_elem_of_lookup_1 in Hc as [j Hj].
      destruct (vals !! j) as [w|] eqn:Ew.
      * exists w. eapply Hfill; eassumption.
      * apply lookup_ge_None in Ew. apply lookup_lt_Some in Hj. lia.
    + intros c v Hv. destruct (Hidx c v Hv) as (j & _ & Hj).
      rewrite Forall_lookup in Hall. apply (Hall j v Hj).
  - apply list_eq. intros j. rewrite list_lookup_fmap.
    destruct (chs !! j) as [c|] eqn:Ec; cbn.
    + destruct (vals !! j) as [w|] eqn:Ew.
      * rewrite (Hfill j c w Ec Ew). reflexivity.
      * apply lookup_ge_None in Ew. apply lookup_lt_Some in Ec. lia.
    + symmetry. apply lookup_ge_None. apply lookup_ge_None in Ec. lia.
Qed.

(** X25. For a list of distinct channels and an average between 0 and 1,
    [generatePsr] returns a map that the constructor of [SyncParameters]
    accepts for these channels, one probability between 0 and 1 for each
    channel and for no other, whose probabilities add up to
    [averagePsr * chs.size()].  With [ZeroStdDev] every probability is the
    average; with [MaxStdDev] at most one channel has a probability that is
    neither 0 nor 1. *)
Theorem X25_generatePsr_keeps_average (fuel : nat) (chs : list Z)
    (averagePsr : Q) (averagePsrType : Main.AveragePsrType) :
  NoDup chs -> (0 <= averagePsr)%Q -> (averagePsr <= 1)%Q ->
  (length chs < fuel)%nat -> Z.of_nat (length chs) <= 2147483647 ->
  exists pSR,
    Main.generatePsr fuel chs averagePsr averagePsrType = Ret pSR /\
    SyncParameters.cond6 chs pSR /\
    (Distribution.total ((fun c => default 0%Q (pSR !! c)) <$> chs)
     == averagePsr * inject_Z (Z.of_nat (length chs)))%Q /\
    match averagePsrType with
    | Main.ZeroStdDev => forall c, c ∈ chs -> pSR !! c = Some averagePsr
    | Main.MaxStdDev =>
        forall c c' v v', pSR !! c = Some v -> pSR !! c' = Some v' ->
          (0 < v /\ v < 1)%Q -> (0 < v' /\ v' < 1)%Q -> c = c'
    end.
Proof.
  intros Hnd Ha0 Ha1 Hfuel Hint.
  destruct averagePsrType; cbn [Main.generatePsr]; set (n := length chs) in *.
  - (* every channel gets the average *)
    set (pSR := foldl (fun pSR ch => <[ch := averagePsr]> pSR) ∅ chs).
    assert (Hget : forall c, pSR !! c
                     = if decide (c ∈ chs) then Some averagePsr else None).
    { intros c. unfold pSR. rewrite fill_same, lookup_empty. reflexivity. }
    destruct (filled_shape chs (replicate n averagePsr) pSR)
      as (Hcond & Hvals & _).
    + apply length_replicate.
    + intros j c v Hc Hv. apply lookup_replicate in Hv as [-> _].
      rewrite Hget, decide_True; [reflexivity|].
      eapply list_elem_of_lookup_2. exact Hc.
    + intros c [v Hv]. rewrite Hget in Hv.
      destruct (decide (c ∈ chs)); [assumption | discriminate].
    + apply Forall_replicate. split; assumption.
    + exists pSR. split; [reflexivity|]. split; [exact Hcond|]. split.
      * rewrite Hvals, total_replicate. ring.
      * intros c Hc. rewrite Hget, decide_True by exact Hc. reflexivity.
  - (* as many ones as fit, the remainder, then zeros *)
    set (T := (averagePsr * inject_Z (Z.of_nat n))%Q) in *.
    assert (Hn0 : (0 <= inject_Z (Z.of_nat n))%Q)
      by (change 0%Q with (inject_Z 0); rewrite <- Zle_Qle; lia).
    assert (HT0 : (0 <= T)%Q) by (unfold T; nra).
    assert (HT1 : (T <= inject_Z (Z.of_nat n))%Q) by (unfold T; nra).
    set (k := Qfloor T).
    assert (Hk0 : 0 <= k).
    { change 0 with (Qfloor 0). apply Qfloor_resp_le. exact HT0. }
    assert (Hkn : k <= Z.of_nat n).
    { rewrite <- (Qfloor_Z (Z.of_nat n)). apply Qfloor_resp_le. exact HT1. }
    assert (Hrem : (0 <= T - inject_Z k /\ T - inject_Z k < 1)%Q).
    { pose proof (Qfloor_le T). pose proof (Qlt_floor T) as Hlt.
      fold k in Hlt. rewrite inject_Z_plus in Hlt.
      change (inject_Z 1) with 1%Q in Hlt. fold k in H. split; lra. }
    unfold to_int. cbv zeta. rewrite truncate_floor by exact HT0. fold k.
    destruct (Z.leb_spec (-2147483648) k) as [_|?]; [|lia].
    destruct (Z.leb_spec k 2147483647) as [_|?]; [|lia].
    cbn [andb bind]. unfold for_range at 1. rewrite push_loop.
    cbn [bind app]. replace (Z.to_nat (k - 1 - 0 + 1)) with (Z.to_nat k) by lia.
    rewrite length_replicate.
    set (rest := (n - Z.to_nat k - 1)%nat).
    set (vals := if (Z.to_nat k <? n)%nat
                 then replicate (Z.to_nat k) 1%Q
                        ++ [(T - inject_Z k)%Q] ++ replicate rest 0%Q
                 else replicate (Z.to_nat k) 1%Q).
    assert (Hpad :
      Main.pad fuel n
        (if (Z.to_nat k <? n)%nat
         then replicate (Z.to_nat k) 1%Q ++ [(T - inject_Z k)%Q]
         else replicate (Z.to_nat k) 1%Q) = Ret vals).
    { unfold vals. destruct (Nat.ltb_spec (Z.to_nat k) n) as [Hlt|Hge].
      - rewrite pad_returns by (rewrite length_app, length_replicate; cbn; lia).
        rewrite length_app, length_replicate. cbn [length].
        replace (n - (Z.to_nat k + 1))%nat with rest by (unfold rest; lia).
        rewrite <- app_assoc. reflexivity.
      - rewrite pad_returns by (rewrite length_replicate; lia).
        rewrite length_replicate.
        replace (n - Z.to_nat k)%nat with 0%nat by lia.
        cbn. rewrite app_nil_r. reflexivity. }
    rewrite Hpad. cbn [bind].
    assert (Hlen : length vals = n).
    { unfold vals, rest. destruct (Nat.ltb_spec (Z.to_nat k) n) as [Hlt|Hge].
      - rewrite !length_app, !length_replicate. cbn [length]. lia.
      - rewrite length_replicate. lia. }
    assert (Hentry : forall j v, vals !! j = Some v ->
              (j < Z.to_nat k)%nat /\ v = 1%Q \/
              j = Z.to_nat k /\ v = (T - inject_Z k)%Q \/
              (Z.to_nat k < j)%nat /\ v = 0%Q).
    { intros j v Hv. unfold vals in Hv.
      destruct (Nat.ltb_spec (Z.to_nat k) n) as [Hlt|Hge].
      - apply lookup_app_Some in Hv as [Hv|[Hj Hv]].
        + apply lookup_replicate in Hv as [-> Hj]. left. auto.
        + rewrite length_replicate in *.
          apply lookup_app_Some in Hv as [Hv|[Hj' Hv]].
          * apply list_lookup_singleton_Some in Hv as [Hz <-].
            right. left. split; [lia | reflexivity].
          * apply lookup_replicate in Hv as [-> _]. cbn [length] in Hj'.
            right. right. split; [lia | reflexivity].
      - apply lookup_replicate in Hv as [-> Hj]. left. auto. }
    assert (Hall : Forall (fun v => (0 <= v /\ v <= 1)%Q) vals).
    { apply Forall_lookup. intros j v Hv.
      destruct (Hentry j v Hv) as [[_ ->]|[[_ ->]|[_ ->]]]; lra. }
    assert (Htotal : (Distribution.total vals == T)%Q).
    { unfold vals. destruct (Nat.ltb_spec (Z.to_nat k) n) as [Hlt|Hge].
      - rewrite !total_concat, !total_replicate.
        unfold Distribution.total. cbn [foldr].
        replace (Z.of_nat (Z.to_nat k)) with k by lia. ring.
      - rewrite total_replicate. replace (Z.of_nat (Z.to_nat k)) with k by lia.
        assert (k = Z.of_nat n) as E by lia.
        assert (inject_Z k <= T)%Q by apply Qfloor_le.
        rewrite E in *. lra. }
    destruct (fill_loop chs vals Hnd ltac:(fold n; lia))
      as (pSR & Eloop & Hfill & Hdom).
    fold n in Eloop. rewrite Eloop.
    destruct (filled_shape chs vals pSR Hlen Hfill Hdom Hall)
      as (Hcond & Hvals & Hidx).
    exists pSR. split; [reflexivity|]. split; [exact Hcond|]. split.
    + rewrite Hvals. exact Htotal.
    + intros c c' v v' Hc Hc' Hv Hv'.
      destruct (Hidx c v Hc) as (j & Hj & Hjv).
      destruct (Hidx c' v' Hc') as (j' & Hj' & Hjv').
      destruct (Hentry j v Hjv) as [[_ ->]|[[-> _]|[_ ->]]]; [lra| |lra].
      destruct (Hentry j' v' Hjv') as [[_ ->]|[[-> _]|[_ ->]]]; [lra| |lra].
      congruence.
Qed.

Lemma X25_generatePsr_keeps_average_witness :
  exists pSR,
    Main.generatePsr 5 [11; 13; 14; 12] (3 # 8) Main.MaxStdDev = Ret pSR /\
    SyncParameters.cond6 [11; 13; 14; 12] pSR /\
    (Distribution.total
       ((fun c : Z => default 0%Q (pSR !! c)) <$> [11; 13; 14; 12]%Z)
     == (3 # 8) * inject_Z (Z.of_nat (length [11; 13; 14; 12])))%Q /\
    (forall c c' v v', pSR !! c = Some v -> pSR !! c' = Some v' ->
       (0 < v /\ v < 1)%Q -> (0 < v' /\ v' < 1)%Q -> c = c').
Proof.
  apply (X25_generatePsr_keeps_average 5 [11; 13; 14; 12] (3 # 8)
           Main.MaxStdDev).
  - apply (bool_decide_unpack _). vm_compute. exact I.
  - lra.
  - lra.
  - cbn; lia.
  - cbn; lia.
Defined.

#[local] Instance Qle_transitive : Transitive Qle.
Proof. intros x y z. apply Qle_trans. Qed.

#[local] Instance Qle_total : Total Qle.
Proof.
  intros x y. destruct (Qlt_le_dec y x) as [H|H];
    [right; apply Qlt_le_weak; exact H | left; exact H].
Qed.

Lemma sorted_lookup (l : list Q) :
  StronglySorted Qle l ->
  forall i j x y, (i <= j)%nat -> l !! i = Some x -> l !! j = Some y ->
    (x <= y)%Q.
Proof.
  induction 1 as [|a l Hs IH Ha]; intros i j x y Hij Hi Hj; [discriminate|].
  destruct i as [|i], j as [|j]; cbn in Hi, Hj; try lia.
  - injection Hi as <-. injection Hj as <-. apply Qle_refl.
  - injection Hi as <-. rewrite Forall_lookup in Ha. apply (Ha j y Hj).
  - apply (IH i j); [lia | assumption | assumption].
Qed.

Lemma filter_all {A} (P : A -> Prop) `{!forall x, Decision (P x)} (l : list A) :
  Forall P l -> filter P l = l.
Proof.
  induction 1 as [|x l Hx Hl IH]; [reflexivity|].
  rewrite filter_cons_True by exact Hx. rewrite IH. reflexivity.
Qed.

(** A predicate that holds at the positions [i .. j] of a list holds for at
    least [j - i + 1] of its elements. *)
Lemma filter_run {A} (P : A -> Prop) `{!forall x, Decision (P x)} (l : list A)
    (i j : nat) :
  (i <= j < length l)%nat ->
  (forall t v, (i <= t <= j)%nat -> l !! t = Some v -> P v) ->
  (j - i + 1 <= length (filter P l))%nat.
Proof.
  intros Hij HP.
  rewrite <- (take_drop i l), filter_app, length_app.
  rewrite <- (take_drop (j - i + 1) (drop i l)), filter_app, length_app.
  rewrite (filter_all P (take (j - i + 1) (drop i l))).
  - rewrite length_take, length_drop. lia.
  - apply Forall_lookup. intros t v Ht.
    apply lookup_take_Some in Ht as [Ht Hlt]. rewrite lookup_drop in Ht.
    apply (HP (i + t)%nat); [lia | exact Ht].
Qed.

Lemma vector_get_cases {A} (v : list A) (k : Z) :
  (exists a, vector_get v k = Ret a) \/
  vector_get v k = Throw undefined_behaviour.
Proof.
  unfold vector_get. destruct (k <? 0); [right; reflexivity|].
  destruct (v !! Z.to_nat k); [left; eauto | right; reflexivity].
Qed.

(** X26. [calculateCI] leaves the vector it is given sorted in
    non-decreasing order, with the same values.  Given at least one value
    and a confidence level between 0 and 0.999999, it reads inside the
    sorted vector and returns two of the values, the first not above the
    second, with at least [confLevel * values.size()] of the values between
    them.  With a confidence level of 1, or no value at all, it indexes the
    vector outside its bounds. *)
Theorem X26_calculateCI_covers (values : list Q) (confLevel : Q) :
  fst (Main.calculateCI values confLevel) ≡ₚ values /\
  StronglySorted Qle (fst (Main.calculateCI values confLevel)) /\
  (values <> [] -> (0 <= confLevel)%Q ->
   (confLevel <= 1 - (1 # 1000000))%Q ->
   exists lo hi,
     snd (Main.calculateCI values confLevel) = Ret (lo, hi) /\
     lo ∈ values /\ hi ∈ values /\ (lo <= hi)%Q /\
     (confLevel * inject_Z (Z.of_nat (length values))
      <= inject_Z (Z.of_nat
           (length (filter (fun v => (lo <= v)%Q /\ (v <= hi)%Q) values))))%Q) /\
  (values = [] \/ (confLevel == 1)%Q ->
   snd (Main.calculateCI values confLevel) = Throw undefined_behaviour).
Proof.
  unfold Main.calculateCI. cbv zeta. cbn [fst snd].
  pose proof (merge_sort_Permutation Qle values) as Hperm.
  pose proof (StronglySorted_merge_sort Qle values) as Hsorted.
  set (sorted := merge_sort Qle values) in *.
  set (n := Z.of_nat (length sorted)).
  assert (Hlen : length sorted = length values)
    by (apply Permutation_length; exact Hperm).
  split; [exact Hperm|]. split; [exact Hsorted|]. split.
  - intros Hne H0 H1'.
    assert (H1 : (confLevel < 1)%Q) by lra.
    assert (Hn : 1 <= n).
    { unfold n. rewrite Hlen. destruct values; [contradiction | cbn; lia]. }
    assert (Hnq : (1 <= inject_Z n)%Q)
      by (change 1%Q with (inject_Z 1); rewrite <- Zle_Qle; exact Hn).
    set (pl := ((1 - confLevel) / 2)%Q).
    assert (Epl : (pl == (1 - confLevel) * (1 # 2))%Q) by reflexivity.
    clearbody pl.
    assert (0 < pl /\ pl <= 1 # 2)%Q as [Hpl0 Hpl1] by (rewrite Epl; split; lra).
    set (xl := (inject_Z n * pl)%Q). set (xu := (inject_Z n * (1 - pl))%Q).
    assert (Hx : forall N : Q, (1 <= N)%Q ->
              (0 <= N * pl /\ N * pl <= N * (1 - pl) /\ N * (1 - pl) < N)%Q)
      by (clear - Hpl0 Hpl1; intros N HN; repeat split; nra).
    destruct (Hx (inject_Z n) Hnq) as (Hxl & Hxlu & Hxu). clear Hx.
    fold xl in Hxl, Hxlu. fold xu in Hxlu, Hxu.
    assert (Hconf : (xu - xl == confLevel * inject_Z n)%Q)
      by (unfold xl, xu; rewrite Epl; ring).
    assert (HL0 : 0 <= Qfloor xl).
    { change 0 with (Qfloor 0). apply Qfloor_resp_le. exact Hxl. }
    assert (HLU : Qfloor xl <= Qfloor xu) by (apply Qfloor_resp_le; exact Hxlu).
    assert (HUn : Qfloor xu < n).
    { rewrite Zlt_Qlt. eapply Qle_lt_trans; [apply Qfloor_le | exact Hxu]. }
    destruct (sorted !! Z.to_nat (Qfloor xl)) as [lo|] eqn:El;
      [|apply lookup_ge_None in El; lia].
    destruct (sorted !! Z.to_nat (Qfloor xu)) as [hi|] eqn:Eu;
      [|apply lookup_ge_None in Eu; lia].
    exists lo, hi. unfold vector_get.
    destruct (Z.ltb_spec (Qfloor xl) 0) as [?|_]; [lia|].
    destruct (Z.ltb_spec (Qfloor xu) 0) as [?|_]; [lia|].
    rewrite El, Eu. cbn [bind]. split; [reflexivity|].
    split; [rewrite <- Hperm; eapply list_elem_of_lookup_2; exact El|].
    split; [rewrite <- Hperm; eapply list_elem_of_lookup_2; exact Eu|].
    split.
    { apply (sorted_lookup sorted Hsorted (Z.to_nat (Qfloor xl))
               (Z.to_nat (Qfloor xu)) lo hi); [lia | exact El | exact Eu]. }
    rewrite <- Hperm. fold n. rewrite <- Hconf.
    pose proof (filter_run (fun v => (lo <= v)%Q /\ (v <= hi)%Q) sorted
                  (Z.to_nat (Qfloor xl)) (Z.to_nat (Qfloor xu))) as Hrun.
    assert (Hcount : Qfloor xu - Qfloor xl + 1
              <= Z.of_nat (length (filter (fun v => (lo <= v)%Q /\ (v <= hi)%Q)
                                     sorted))).
    { cut (Z.to_nat (Qfloor xu) - Z.to_nat (Qfloor xl) + 1
           <= length (filter (fun v => (lo <= v)%Q /\ (v <= hi)%Q) sorted))%nat;
        [lia|].
      apply Hrun; [lia|]. intros t v Ht Hv. split.
      - apply (sorted_lookup sorted Hsorted (Z.to_nat (Qfloor xl)) t);
          [lia | exact El | exact Hv].
      - apply (sorted_lookup sorted Hsorted t (Z.to_nat (Qfloor xu)));
          [lia | exact Hv | exact Eu]. }
    rewrite Zle_Qle in Hcount.
    unfold Z.sub in Hcount. rewrite !inject_Z_plus, inject_Z_opp in Hcount.
    change (inject_Z 1) with 1%Q in Hcount.
    pose proof (Qfloor_le xl). pose proof (Qlt_floor xu) as Hlt.
    rewrite inject_Z_plus in Hlt. change (inject_Z 1) with 1%Q in Hlt.
    lra.
  - intros [->|Hc].
    + reflexivity.
    + assert (Ex : (inject_Z n * (1 - (1 - confLevel) / 2) == inject_Z n)%Q).
      { rewrite Hc. field. }
      assert (EU : Qfloor (inject_Z n * (1 - (1 - confLevel) / 2)) = n).
      { rewrite (Qfloor_comp _ _ Ex). apply Qfloor_Z. }
      fold n. rewrite EU.
      assert (Hget : vector_get sorted n = Throw undefined_behaviour).
      { unfold vector_get. destruct (n <? 0); [reflexivity|].
        rewrite (proj2 (lookup_ge_None sorted (Z.to_nat n))) by (unfold n; lia).
        reflexivity. }
      rewrite Hget.
      destruct (vector_get_cases sorted
                  (Qfloor (inject_Z n * ((1 - confLevel) / 2))))
        as [[lo ->] | ->]; reflexivity.
Qed.

Lemma X26_calculateCI_covers_witness :
  StronglySorted Qle
    (fst (Main.calculateCI [3; 1 # 2; 2; 5; 4; 1; 7; 6; 9; 8]%Q (8 # 10))) /\
  exists lo hi,
    snd (Main.calculateCI [3; 1 # 2; 2; 5; 4; 1; 7; 6; 9; 8]%Q (8 # 10))
    = Ret (lo, hi) /\
    lo ∈ [3; 1 # 2; 2; 5; 4; 1; 7; 6; 9; 8]%Q /\
    hi ∈ [3; 1 # 2; 2; 5; 4; 1; 7; 6; 9; 8]%Q /\ (lo <= hi)%Q /\
    ((8 # 10)
     * inject_Z (Z.of_nat (length [3; 1 # 2; 2; 5; 4; 1; 7; 6; 9; 8]%Q))
     <= inject_Z (Z.of_nat
          (length (filter (fun v => (lo <= v)%Q /\ (v <= hi)%Q)
                     [3; 1 # 2; 2; 5; 4; 1; 7; 6; 9; 8]%Q))))%Q.
Proof.
  split;
    [apply (proj1 (proj2 (X26_calculateCI_covers
                            [3; 1 # 2; 2; 5; 4; 1; 7; 6; 9; 8]%Q (8 # 10))))|].
  apply (proj1 (proj2 (proj2 (X26_calculateCI_covers
                         [3; 1 # 2; 2; 5; 4; 1; 7; 6; 9; 8]%Q (8 # 10))))).
  - discriminate.
  - lra.
  - lra.
Defined.

(** X27. A case that a worker does not count as failed is close in both
    respects: the two average times differ by at most 1% of the simulated
    one, and the two distributions differ by at most 0.01 at every step. *)
Theorem X27_accepted_case_is_close (fuel : nat) (m : Model.Results)
    (s : Simulator.Results) (rel e : Q) :
  Distribution.recorded_ok (Model.cdf_ m) ->
  Distribution.recorded_ok (Simulator.cdf_ s) ->
  (1 <= fuel)%nat ->
  (length (Model.cdf_ m) <= fuel)%nat ->
  (length (Simulator.cdf_ s) <= fuel)%nat ->
  (0 < Simulator.avgSyncTime s)%Q ->
  ModelValidator.relativeErrorInAVG m s = Ret rel ->
  ModelValidator.maxAbsoluteErrorInCDF fuel m s = Ret e ->
  ModelValidator.exceeds rel e = false ->
  (Qabs (Model.avgSyncTime m - Simulator.avgSyncTime s)
   <= (1 # 100) * Simulator.avgSyncTime s)%Q /\
  forall k vm vs, (1 <= k)%nat ->
    Model.cdf m k = Ret vm -> Simulator.cdf s k = Ret vs ->
    (Qabs (vm - vs) <= 1 # 100)%Q.
Proof.
  intros Hm Hs Hf Hlm Hls Havg Erel Ee Hok.
  unfold ModelValidator.exceeds in Hok.
  apply orb_false_iff in Hok as [Hrel He].
  apply Qltb_false in Hrel. apply Qltb_false in He.
  unfold ModelValidator.MAX_ALLOWED_ERROR in *. split.
  - unfold ModelValidator.relativeErrorInAVG in Erel.
    rewrite fdiv_Ret in Erel by (intros E0; rewrite E0 in Havg; lra).
    assert (Er : rel = (Qabs (Model.avgSyncTime m - Simulator.avgSyncTime s)
                        / Simulator.avgSyncTime s)%Q) by congruence.
    subst rel.
    set (d := Qabs (Model.avgSyncTime m - Simulator.avgSyncTime s)) in *.
    set (a := Simulator.avgSyncTime s) in *.
    assert (Ed : (d == d / a * a)%Q) by (field; intros E0; rewrite E0 in Havg; lra).
    eapply Qle_trans; [rewrite Ed; apply Qle_refl|].
    apply Qmult_le_compat_r; [exact Hrel | lra].
  - apply Model_recorded_is_cdf in Hm. apply Simulator_recorded_is_cdf in Hs.
    set (N := Nat.max 1 (Nat.max (length (Model.cdf_ m))
                           (length (Simulator.cdf_ s)))).
    destruct (cdf_error_loop_returns m s Hm Hs N) with (fuel := fuel)
      (k := 1%nat) (e := (-1)%Q) as (e' & Ee' & He').
    + intros k Hk. split.
      * destruct (Model_cdf_spec m k) as (_ & H1 & _). apply H1; lia.
      * destruct (Simulator_cdf_spec s k) as (_ & H1 & _). apply H1; lia.
    + lia.
    + exact Hf.
    + lia.
    + split; [intros j d Hj; lia|]. left. split; reflexivity.
    + unfold ModelValidator.maxAbsoluteErrorInCDF in Ee. rewrite Ee in Ee'.
      injection Ee' as <-. intros k vm vs Hk Em Es.
      destruct He' as [[_ Hone]|[Hle _]].
      * destruct (Hone k vm vs Hk Em Es) as [E1 E2].
        assert (E : (vm - vs == 0)%Q) by lra. rewrite E. discriminate.
      * eapply Qle_trans; [|exact He]. apply (Hle k); [exact Hk|].
        exists vm, vs. repeat split; [exact Em | exact Es].
Qed.

Lemma X27_accepted_case_is_close_witness :
  (Qabs (Model.avgSyncTime (Model.mkResults 1 [0; 1 # 2; 1]%Q)
         - Simulator.avgSyncTime
             (Simulator.mkResults (101 # 100) [0; 101 # 200; 1]%Q))
   <= (1 # 100)
      * Simulator.avgSyncTime
          (Simulator.mkResults (101 # 100) [0; 101 # 200; 1]%Q))%Q /\
  forall k vm vs, (1 <= k)%nat ->
    Model.cdf (Model.mkResults 1 [0; 1 # 2; 1]%Q) k = Ret vm ->
    Simulator.cdf (Simulator.mkResults (101 # 100) [0; 101 # 200; 1]%Q) k
    = Ret vs ->
    (Qabs (vm - vs) <= 1 # 100)%Q.
Proof.
  eapply (X27_accepted_case_is_close 3).
  - split; cbn [Model.cdf_].
    + intros i v H. destruct i as [|[|[|i]]]; cbn in H; try discriminate;
        injection H as <-; lra.
    + intros i j vi vj Hij Hi Hj.
      destruct i as [|[|[|i]]]; cbn in Hi; try discriminate;
        destruct j as [|[|[|j]]]; cbn in Hj; try discriminate;
        injection Hi as <-; injection Hj as <-; (lra || lia).
  - split; cbn [Simulator.cdf_].
    + intros i v H. destruct i as [|[|[|i]]]; cbn in H; try discriminate;
        injection H as <-; lra.
    + intros i j vi vj Hij Hi Hj.
      destruct i as [|[|[|i]]]; cbn in Hi; try discriminate;
        destruct j as [|[|[|j]]]; cbn in Hj; try discriminate;
        injection Hi as <-; injection Hj as <-; (lra || lia).
  - lia.
  - cbn; lia.
  - cbn; lia.
  - cbn; lra.
  - vm_compute. reflexivity.
  - vm_compute. reflexivity.
  - vm_compute. reflexivity.
Defined.
